(** * Record linkage and anonymisation of DICOM data

    A shallow embedding of [functions/anonymise_mri.py] (class
    [Anonymisation]): the retry wrappers around an unreliable file system,
    the mapping between original and anonymised patients, the derivation of
    the anonymised patient name and the scrubbing of the DICOM tags. *)

From Stdlib Require Import Ascii.
From stdpp Require Import gmap strings list fin_maps pretty.

Local Open Scope string_scope.
Local Open Scope list_scope.
Local Open Scope Z_scope.

(** ** Python exceptions and effectful code *)

(** The exceptions the code meets. [KeyboardInterrupt] stands for the
    exceptions that derive from [BaseException] only: [except Exception]
    lets them through, a bare [except:] catches them. *)
Inductive exn :=
  | Exception (msg : string)
  | OSError (msg : string)
  | IndexError
  | KeyError (key : string)
  | KeyboardInterrupt.

Definition is_Exception (e : exn) : bool :=
  match e with
  | KeyboardInterrupt => false
  | _ => true
  end.

Inductive result (A : Type) :=
  | Return (a : A)
  | Raise (e : exn).
Arguments Return {A} a.
Arguments Raise {A} e.

(** A Python computation over a mutable world [W]: it ends in a value or in
    an exception, and the world keeps what was done before the exception. *)
Definition Py (W A : Type) : Type := W → W * result A.

Definition ret {W A} (a : A) : Py W A := λ w, (w, Return a).
Definition raise {W A} (e : exn) : Py W A := λ w, (w, Raise e).
Definition bind {W A B} (m : Py W A) (k : A → Py W B) : Py W B :=
  λ w, match m w with
       | (w', Return a) => k a w'
       | (w', Raise e) => (w', Raise e)
       end.
Definition lift {W A} (r : result A) : Py W A := λ w, (w, r).
Definition gets {W A} (f : W → A) : Py W A := λ w, (w, Return (f w)).
Definition read {W A} (f : W → result A) : Py W A := λ w, (w, f w).
Definition modify {W} (f : W → W) : Py W unit := λ w, (f w, Return tt).

(** [try: body except: handler] (a bare [except], every exception). *)
Definition try_except {W A} (body : Py W A) (handler : exn → Py W A) : Py W A :=
  λ w, match body w with
       | (w', Raise e) => handler e w'
       | r => r
       end.

(** [for x in l: body x]. *)
Fixpoint foreach {W X} (l : list X) (body : X → Py W unit) : Py W unit :=
  match l with
  | [] => λ w, (w, Return tt)
  | x :: l' => bind (body x) (λ _, foreach l' body)
  end.

(** Code that works on one component of a world of two. *)
Definition on_fst {W1 W2 A} (m : Py W1 A) : Py (W1 * W2) A :=
  λ w, let '(w1, r) := m w.1 in ((w1, w.2), r).
Definition on_snd {W1 W2 A} (m : Py W2 A) : Py (W1 * W2) A :=
  λ w, let '(w2, r) := m w.2 in ((w.1, w2), r).

Declare Scope py_scope.
Delimit Scope py_scope with py.
Notation "x <- m ;; k" := (bind m (λ x, k))
  (at level 100, m at next level, right associativity) : py_scope.
Notation "m ;;; k" := (bind m (λ _, k))
  (at level 100, right associativity) : py_scope.
Local Open Scope py_scope.

(** ** RetryableOps *)

Section Retry.
Context {W A : Type}.

(** The [for i in range(times)] loop of [try_function]; [e] is the
    exception raised when the loop runs out. *)
Fixpoint try_function (function : Py W A) (n : nat) (e : exn) : Py W A :=
  match n with
  | O => raise e
  | S n' => λ w,
      match function w with
      | (w', Return a) => (w', Return a)
      | (w', Raise caught_exception) =>
          if is_Exception caught_exception
          then try_function function n' caught_exception w'
          else (w', Raise caught_exception)
      end
  end.

Definition retry_function (times : Z) (function : Py W A) : Py W A :=
  try_function function (Z.to_nat times) (Exception "Retry Exception Failed.").

(** The [k]-th execution of [function] (from 0) when every execution
    before it was made: the world it leaves and its outcome. *)
Fixpoint attempt (function : Py W A) (w : W) (k : nat) : W * result A :=
  match k with
  | O => function w
  | S k' => attempt function (function w).1 k'
  end.
End Retry.

(** The file system as the code sees it: the outcome of the [k]-th call of
    [os.listdir] on a directory. The world is the number of calls made. *)
Definition filesystem : Type := string → nat → result (list string).

Definition os_listdir (fs : filesystem) (directory : string) : Py nat (list string) :=
  λ calls, (S calls, fs directory calls).

Section Listdir.
Variable fs : filesystem.
Variable directory : string.

Definition exception_repeat_times : Z := 10.
Definition repeat_times : nat := 20.

(** One round of the loop of [listdir]: the new [max_size] and
    [selected_list]. *)
Definition listdir_round (max_size : Z) (selected_list : list string)
    : Py nat (Z * list string) :=
  try_except
    (directory_list <- retry_function exception_repeat_times (os_listdir fs directory) ;;
     let size := Z.of_nat (length directory_list) in
     if bool_decide (max_size < size)
     then ret (size, directory_list)
     else ret (max_size, selected_list))
    (λ _, ret (max_size, selected_list)).

Fixpoint listdir_loop (n : nat) (max_size : Z) (selected_list : list string)
    : Py nat (list string) :=
  match n with
  | O => ret selected_list
  | S n' =>
      st <- listdir_round max_size selected_list ;;
      listdir_loop n' st.1 st.2
  end.

Definition listdir : Py nat (list string) := listdir_loop repeat_times (-1) [].
End Listdir.


(** File systems for the examples. A listing of [n] entries. *)
Definition listing (n : nat) : list string := (λ i : nat, "file" +:+ pretty i) <$> seq 0 n.

(** Four calls return listings of 3, 3, 7 and 3 entries, later calls fail. *)
Definition truncating_fs : filesystem :=
  λ _ k, nth k [Return (listing 3); Return (listing 3); Return (listing 7); Return (listing 3)]
           (Raise (OSError "unreachable")).

(** Every call is interrupted. *)
Definition interrupted_fs : filesystem := λ _ _, Raise KeyboardInterrupt.

(** An operation that returns at its third execution; the world counts
    the executions. *)
Definition third_time_lucky : Py nat string :=
  λ w, (S w, if bool_decide (w < 2)%nat then Raise (OSError "busy") else Return "done").

(** ** Values *)

(** Python's [str()]. *)
Class Str (A : Type) := str : A → string.
Global Instance str_int : Str Z := pretty.
Global Instance str_str : Str string := id.

(** [s.split(sep)] for a separator of one character. *)
Fixpoint str_split (sep : ascii) (s : string) : list string :=
  match s with
  | EmptyString => [EmptyString]
  | String c s' =>
      if bool_decide (c = sep) then EmptyString :: str_split sep s'
      else match str_split sep s' with
           | h :: t => String c h :: t
           | [] => [String c EmptyString]
           end
  end.

(** [s[0]] on a string. *)
Definition first_char (s : string) : result string :=
  match s with
  | EmptyString => Raise IndexError
  | String c _ => Return (String c EmptyString)
  end.

(** pydicom's [PersonName], by its text [family^given^middle^prefix^suffix]
    (the alphabetic group, before any [=]); a component that is not there
    reads as the empty string. A value with a backslash is read by pydicom
    as several values, which is no [PersonName] and has no family name
    ([generate_new_patient_name] raises on it): the records here carry one
    name. *)
Abbreviation PersonName := string (only parsing).

Definition component (patient_name : PersonName) (i : nat) : string :=
  nth i (str_split "^" (nth 0 (str_split "=" patient_name) "")) "".
Definition family_name (patient_name : PersonName) : string := component patient_name 0.
Definition given_name (patient_name : PersonName) : string := component patient_name 1.

(** ** MappingLedger and IdentityResolver *)

(** The dictionary [extract_key_info] returns. *)
Module Info.
Record t := mk {
  PatientID : string;
  PatientName : PersonName;
  AccessionNumber : string;
  StudyDate : string;
  OriginalBaseFolder : string
}.
End Info.

(** One value of [self.mapping]. *)
Module Entry.
Record t := mk {
  PatientIndex : option Z;
  PatientName : list string;
  NewPatientName : list string;
  AccessionNumber : list string;
  StudyDate : list string;
  OriginalBaseFolder : list string
}.

Definition initial : t := mk None [] [] [] [] [].
End Entry.

Abbreviation ledger := (gmap string Entry.t).

Definition exists_in_mapping (patient_info : Info.t) (mapping : ledger) : bool :=
  match mapping !! Info.PatientID patient_info with
  | None => false
  | Some patient_values =>
      existsb
        (λ stored,
           bool_decide (stored.1 = Info.AccessionNumber patient_info)
           && bool_decide (stored.2 = Info.StudyDate patient_info))
        (zip (Entry.AccessionNumber patient_values) (Entry.StudyDate patient_values))
  end.

Definition initialise_mapping_entry (patient_id : string) (mapping : ledger) : ledger :=
  match mapping !! patient_id with
  | Some _ => mapping
  | None => <[patient_id := Entry.initial]> mapping
  end.

Definition get_patient_index (patient_info : Info.t) (mapping : ledger) : result Z :=
  match mapping !! Info.PatientID patient_info with
  | None => Raise (KeyError (Info.PatientID patient_info))
  | Some patient_values =>
      match Entry.PatientIndex patient_values with
      | Some patient_index => Return patient_index
      | None => Return (Z.of_nat (size mapping))
      end
  end.

(** The initials: given then family, or the family initial alone when the
    first expression raises. *)
Definition initials (patient_name : PersonName) : result string :=
  match first_char (given_name patient_name), first_char (family_name patient_name) with
  | Return g, Return f => Return (g +:+ f)
  | _, _ => first_char (family_name patient_name)
  end.

Definition generate_new_patient_name `{Str D}
    (patient_name : PersonName) (patient_index : Z) (study_date : D) : result string :=
  match initials patient_name with
  | Return new_patient_name =>
      Return (new_patient_name +:+ str patient_index +:+ "_" +:+ str study_date)
  | Raise e => Raise e
  end.

(** The five appends of [add_to_mapping] and the assignment of the index. *)
Definition append_encounter (patient_index : Z) (patient_info : Info.t)
    (new_patient_name : string) (patient_values : Entry.t) : Entry.t :=
  Entry.mk
    (Some patient_index)
    (Entry.PatientName patient_values ++ [str (Info.PatientName patient_info)])
    (Entry.NewPatientName patient_values ++ [new_patient_name])
    (Entry.AccessionNumber patient_values ++ [Info.AccessionNumber patient_info])
    (Entry.StudyDate patient_values ++ [Info.StudyDate patient_info])
    (Entry.OriginalBaseFolder patient_values ++ [Info.OriginalBaseFolder patient_info]).

Definition add_to_mapping (patient_info : Info.t) : Py ledger string :=
  modify (initialise_mapping_entry (Info.PatientID patient_info)) ;;;
  let patient_id := Info.PatientID patient_info in
  patient_index <- read (get_patient_index patient_info) ;;
  let patient_name := Info.PatientName patient_info in
  let study_date := Info.StudyDate patient_info in
  new_patient_name <- lift (generate_new_patient_name patient_name patient_index study_date) ;;
  found <- gets (exists_in_mapping patient_info) ;;
  if (found : bool) then ret new_patient_name
  else
    modify (alter (append_encounter patient_index patient_info new_patient_name) patient_id) ;;;
    ret new_patient_name.

(** The records of a run, one call of [add_to_mapping] each; an exception
    ends the run. *)
Fixpoint resolve_all (records : list Info.t) : Py ledger (list string) :=
  match records with
  | [] => ret []
  | patient_info :: rest =>
      new_patient_name <- add_to_mapping patient_info ;;
      names <- resolve_all rest ;;
      ret (new_patient_name :: names)
  end.

(** The ledgers a process can hold: empty at the start, then changed by
    calls of [add_to_mapping] only, whether they return or raise. *)
Inductive reachable : ledger → Prop :=
  | reachable_empty : reachable ∅
  | reachable_step mapping patient_info :
      reachable mapping → reachable (add_to_mapping patient_info mapping).1.

Definition parallel (patient_values : Entry.t) : Prop :=
  length (Entry.PatientName patient_values) = length (Entry.NewPatientName patient_values)
  ∧ length (Entry.NewPatientName patient_values) = length (Entry.AccessionNumber patient_values)
  ∧ length (Entry.AccessionNumber patient_values) = length (Entry.StudyDate patient_values)
  ∧ length (Entry.StudyDate patient_values) = length (Entry.OriginalBaseFolder patient_values).

(** The encounters of an entry, as [exists_in_mapping] reads them. *)
Definition encounters (patient_values : Entry.t) : list (string * string) :=
  zip (Entry.AccessionNumber patient_values) (Entry.StudyDate patient_values).

Definition encounters_of (mapping : ledger) (patient_id : string) : list (string * string) :=
  default [] (encounters <$> mapping !! patient_id).

Definition index_of (mapping : ledger) (patient_id : string) : option Z :=
  mapping !! patient_id ≫= Entry.PatientIndex.

Definition entry_of (mapping : ledger) (patient_id : string) : Entry.t :=
  default Entry.initial (mapping !! patient_id).

(** The index [add_to_mapping] works with: the one of the entry, else the
    number of entries once the entry of the patient is there. *)
Definition candidate_index (patient_info : Info.t) (mapping : ledger) : Z :=
  default
    (Z.of_nat (size (initialise_mapping_entry (Info.PatientID patient_info) mapping)))
    (Entry.PatientIndex (entry_of mapping (Info.PatientID patient_info))).

(** The accession number and study date of a record. *)
Definition encounter (patient_info : Info.t) : string * string :=
  (Info.AccessionNumber patient_info, Info.StudyDate patient_info).

(** The first position of an entry whose accession number and study date
    are those of the record. *)
Definition matching_position (patient_info : Info.t) (patient_values : Entry.t) : option nat :=
  fst <$> list_find (λ stored, stored = encounter patient_info) (encounters patient_values).

(** The anonymised and the original name recorded at that position. *)
Definition stored_pseudonym (patient_info : Info.t) (mapping : ledger) : option string :=
  patient_values ← mapping !! Info.PatientID patient_info;
  i ← matching_position patient_info patient_values;
  Entry.NewPatientName patient_values !! i.

Definition recorded_name (patient_info : Info.t) (mapping : ledger) : option string :=
  patient_values ← mapping !! Info.PatientID patient_info;
  i ← matching_position patient_info patient_values;
  Entry.PatientName patient_values !! i.

(** How often the encounter of a record is in the entry of its patient. *)
Definition times_recorded (patient_info : Info.t) (mapping : ledger) : nat :=
  length (filter (λ stored, stored = encounter patient_info)
            (encounters_of mapping (Info.PatientID patient_info))).

(** Every anonymised name of an entry is the one its original name, the
    index of the entry and its study date give. *)
Definition derived (patient_values : Entry.t) : Prop :=
  ∀ i n q d,
    Entry.PatientName patient_values !! i = Some n →
    Entry.NewPatientName patient_values !! i = Some q →
    Entry.StudyDate patient_values !! i = Some d →
    ∃ patient_index,
      Entry.PatientIndex patient_values = Some patient_index
      ∧ generate_new_patient_name n patient_index d = Return q.

Definition entry_ok (patient_values : Entry.t) : Prop :=
  parallel patient_values
  ∧ NoDup (encounters patient_values)
  ∧ (Entry.PatientIndex patient_values = None → Entry.StudyDate patient_values = [])
  ∧ derived patient_values.

Definition ledger_parallel (mapping : ledger) : Prop :=
  ∀ patient_id patient_values,
    mapping !! patient_id = Some patient_values → parallel patient_values.

Definition ledger_ok (mapping : ledger) : Prop :=
  ∀ patient_id patient_values,
    mapping !! patient_id = Some patient_values → entry_ok patient_values.

(** Records of two patients, for the examples: two studies of a first
    patient, the first study again under another name and under a name with
    the same initials, and a study of a second patient. *)
Definition smith_a1 : Info.t := Info.mk "P1" "SMITH^JOHN" "A1" "20200101" "source".
Definition smith_a2 : Info.t := Info.mk "P1" "SMITH^JOHN" "A2" "20200102" "source".
Definition smith_a1_renamed : Info.t := Info.mk "P1" "DOE^JANE" "A1" "20200101" "source".
Definition smith_a1_respelled : Info.t := Info.mk "P1" "SMYTHE^JON" "A1" "20200101" "source".
Definition doe_a7 : Info.t := Info.mk "P2" "DOE^JANE" "A7" "20200301" "source".

(** ** TagScrubber *)

(** A data element is found by its keyword, or, for a private (vendor)
    element, by its tag numbers. *)
Inductive tag :=
  | Keyword (name : string)
  | PrivateTag (group element : N).

Global Instance tag_eq_dec : EqDecision tag.
Proof. solve_decision. Defined.

Global Instance tag_countable : Countable tag.
Proof.
  refine (inj_countable'
    (λ t, match t with Keyword k => inl k | PrivateTag g e => inr (g, e) end)
    (λ x, match x with inl k => Keyword k | inr (g, e) => PrivateTag g e end) _).
  by intros [].
Defined.

Definition is_private (t : tag) : bool :=
  match t with
  | Keyword _ => false
  | PrivateTag _ _ => true
  end.

(** A data element, as pydicom gives it when it is read: an element that
    reads as text (a single value), a sequence, whose value is a list of
    items that are datasets of their own, or an element that is incorrectly
    populated, which raises when it is read. An element is read, and only
    then converted from the bytes of the file, by [dataset[tag]] and by
    [dataset.data_element(field)]; [in], [del] and [list(dataset._dict)] do
    not read it. *)
#[warnings="-register-all"]
Inductive DataElement :=
  | Text (value : string)
  | Sequence (items : list (gmap tag DataElement))
  | Malformed (raw : string).

Abbreviation Dataset := (gmap tag DataElement).

Definition text_of (elem : DataElement) : option string :=
  match elem with
  | Text value => Some value
  | _ => None
  end.

Definition patient_name_key : string := "PatientName".
Definition patient_id_key : string := "PatientID".
Definition accession_key : string := "AccessionNumber".
Definition study_date_key : string := "StudyDate".

Definition replace_tags : list (string * string) :=
  [("PatientBirthDate", "00010101");
   ("PatientID", "anonymised");
   ("PatientAddress", "anonymised");
   ("ReferringPhysicianName", "anonymised")].

Definition delete_tags : list string :=
  ["OtherPatientIDs";
   "OtherPatientNames";
   "OtherPatientIDsSequence";
   "IssuerOfPatientID";
   "InstitutionName";
   "InstitutionAddress";
   "PerformingPhysicianName";
   "PerformingPhysicianIdentificationSequence";
   "OperatorsName";
   "OperatorIdentificationSequence";
   "IssuerOfPatientID";
   "IssuerOfPatientIDQualifiersSequence";
   "ReferencedPatientPhotoSequence";
   "ResponsiblePerson";
   "ResponsiblePersonRole";
   "ResponsibleOrganization";
   "ReferringPhysicianIdentificationSequence";
   "ConsultingPhysicianIdentificationSequence";
   "PhysiciansOfRecord";
   "PhysiciansOfRecordIdentificationSequence";
   "NameOfPhysiciansReadingStudy";
   "PhysiciansReadingStudyIdentificationSequence";
   "PatientComments";
   "InstitutionalDepartmentName"].

(** [dataset.data_element(field).value], for the four elements
    [extract_key_info] reads, which are text elements in a DICOM file. The
    value of a sequence is its list of items, which is not a value the
    mapping holds: such a dataset is not read further. *)
Definition get_value (field : string) (dataset : Dataset) : result string :=
  match dataset !! Keyword field with
  | Some (Text value) => Return value
  | Some (Sequence _) => Raise (Exception "the value is a sequence")
  | Some (Malformed _) => Raise (Exception "incorrectly populated tag")
  | None => Raise (KeyError field)
  end.

(** [dataset.data_element(field).value = v]: the element is read first,
    and a sequence takes no string for value. *)
Definition set_value (field v : string) : Py Dataset unit :=
  λ dataset,
    match dataset !! Keyword field with
    | Some (Text _) => (<[Keyword field := Text v]> dataset, Return tt)
    | Some (Sequence _) => (dataset, Raise (Exception "the value is no sequence"))
    | Some (Malformed _) => (dataset, Raise (Exception "incorrectly populated tag"))
    | None => (dataset, Raise (KeyError field))
    end.

(** [dataset.add_new(field, 'CS', v)]: a new element, in the place of the
    one of this tag if there is one. *)
Definition add_new (field v : string) : Py Dataset unit :=
  modify (insert (Keyword field) (Text v)).

(** [dataset.PatientName = v], and the like: a new element when the dataset
    has none of this tag, and the assignment to the value of the element it
    has otherwise. *)
Definition setattr (field v : string) : Py Dataset unit :=
  present <- gets (λ dataset : Dataset, bool_decide (is_Some (dataset !! Keyword field))) ;;
  if (present : bool) then set_value field v else add_new field v.

(** [delattr(dataset, field)]. *)
Definition delattr (field : string) : Py Dataset unit :=
  modify (delete (Keyword field)).

(** [del dataset[tag]]: the element is removed without being read. *)
Definition delitem (t : tag) : Py Dataset unit :=
  λ dataset,
    match dataset !! t with
    | Some _ => (delete t dataset, Return tt)
    | None => (dataset, Raise (KeyError "tag"))
    end.

(** [list(dataset._dict)]. *)
Definition keys (dataset : Dataset) : list tag := (map_to_list dataset).*1.

(** One round of the loop of [Dataset.walk] with the callback of
    [remove_private_tags]. The loop ends at the first exception. The
    element is read, which raises when it is incorrectly populated; the
    callback deletes it when its tag is private; the items of an element
    that is still there are walked in their turn, which is [walk_value]. *)
Definition visit (walk_value : DataElement → DataElement * result unit)
    (t : tag) (elem : DataElement) (state : Dataset * result unit)
    : Dataset * result unit :=
  match state.2, elem with
  | Raise _, _ => state
  | Return _, Malformed _ => (state.1, Raise (Exception "incorrectly populated tag"))
  | Return _, _ =>
      if is_private t then (delete t state.1, Return tt)
      else let r := walk_value elem in (<[t := r.1]> state.1, r.2)
  end.

(** The walk of the items of a sequence, one item after the other, each
    item changed in place; other elements have no items. pydicom visits
    the tags of a dataset in increasing order, here the order is the one of
    the dictionary ([map_fold]). *)
Fixpoint walk_value (elem : DataElement) : DataElement * result unit :=
  match elem with
  | Sequence items =>
      let r :=
        (fix walk_items (items : list Dataset) : list Dataset * result unit :=
           match items with
           | [] => ([], Return tt)
           | item :: rest =>
               match map_fold (visit walk_value) (item, Return tt) item with
               | (item', Return _) => let r := walk_items rest in (item' :: r.1, r.2)
               | (item', Raise e) => (item' :: rest, Raise e)
               end
           end) items in
      (Sequence r.1, r.2)
  | _ => (elem, Return tt)
  end.

(** [dataset.walk(remove_callback)]. *)
Definition walk (dataset : Dataset) : Dataset * result unit :=
  map_fold (visit walk_value) (dataset, Return tt) dataset.

(** The loop over the items of a sequence in [Dataset.walk]. *)
Fixpoint walk_items (items : list Dataset) : list Dataset * result unit :=
  match items with
  | [] => ([], Return tt)
  | item :: rest =>
      match walk item with
      | (item', Return _) => let r := walk_items rest in (item' :: r.1, r.2)
      | (item', Raise e) => (item' :: rest, Raise e)
      end
  end.

(** [dataset.remove_private_tags()]. *)
Definition remove_private_tags : Py Dataset unit := walk.

Definition extract_key_info (base_folder : string) : Py Dataset Info.t :=
  patient_id <- read (get_value patient_id_key) ;;
  patient_name <-
    try_except (read (get_value patient_name_key))
      (λ _, setattr patient_name_key "Z^Z" ;;; read (get_value patient_name_key)) ;;
  accession_number <- read (get_value accession_key) ;;
  study_date <- read (get_value study_date_key) ;;
  ret (Info.mk patient_id patient_name accession_number study_date base_folder).

(** The world of [anonymise_dicom]: [self.mapping] and the dataset, both
    changed in place. [base_folder] is the base name of
    [self.source_directory]. It returns the new patient name, the dataset
    it also returns is the one of the final world. *)
Definition anonymise_dicom (base_folder : string) : Py (ledger * Dataset) string :=
  patient_info <- on_snd (extract_key_info base_folder) ;;
  new_patient_name <- on_fst (add_to_mapping patient_info) ;;
  on_snd (try_except (set_value patient_name_key new_patient_name)
            (λ _, setattr patient_name_key new_patient_name)) ;;;
  on_snd (foreach replace_tags (λ fv,
            try_except (set_value fv.1 fv.2) (λ _, add_new fv.1 fv.2))) ;;;
  on_snd (foreach delete_tags (λ field,
            present <- gets (λ dataset : Dataset, bool_decide (is_Some (dataset !! Keyword field))) ;;
            if (present : bool) then delattr field else ret tt)) ;;;
  on_snd (try_except remove_private_tags
            (λ _, tags <- gets keys ;;
                  foreach tags (λ t,
                    if is_private t
                    then try_except (delitem t) (λ _, ret tt)
                    else ret tt))) ;;;
  ret new_patient_name.

(** The tags [anonymise_dicom] rewrites or deletes by name. *)
Definition named_tag (t : tag) : Prop :=
  t = Keyword patient_name_key
  ∨ (∃ field, t = Keyword field ∧ field ∈ replace_tags.*1)
  ∨ (∃ field, t = Keyword field ∧ field ∈ delete_tags).

(** What the assignments of [anonymise_dicom] do to the dataset: the
    element of the field gets the value, or a new element is made. *)
Definition upsert (field v : string) (dataset : Dataset) : Dataset :=
  <[Keyword field := Text v]> dataset.

(** Whether an element with a private tag is in the items of an element,
    or in a dataset, at any depth. *)
Fixpoint private_in (elem : DataElement) : bool :=
  match elem with
  | Sequence items =>
      existsb (λ item : Dataset,
                 map_fold (λ t e found, found || is_private t || private_in e) false item)
        items
  | _ => false
  end.

Definition has_private_tag (dataset : Dataset) : bool :=
  map_fold (λ t e found, found || is_private t || private_in e) false dataset.

(** The dataset after the assignments and deletions by name. *)
Definition scrubbed (new_patient_name : string) (dataset : Dataset) : Dataset :=
  foldl (λ d field, delete (Keyword field) d)
    (foldl (λ d fv, upsert fv.1 fv.2 d)
       (upsert patient_name_key new_patient_name dataset) replace_tags)
    delete_tags.

(** Whether an element that is incorrectly populated is an element, or is
    in its items, or in a dataset, at any depth. *)
Fixpoint malformed_in (elem : DataElement) : bool :=
  match elem with
  | Text _ => false
  | Sequence items =>
      existsb (λ item : Dataset,
                 map_fold (λ _ e found, found || malformed_in e) false item)
        items
  | Malformed _ => true
  end.

Definition has_malformed (dataset : Dataset) : bool :=
  map_fold (λ _ e found, found || malformed_in e) false dataset.

(** The number of elements in an element, itself and those of its items
    at every depth: the measure of the inductions on the items. *)
Fixpoint element_size (elem : DataElement) : nat :=
  match elem with
  | Sequence items =>
      S (list_sum ((λ item : Dataset,
                      map_fold (λ _ e n, element_size e + n)%nat 0%nat item) <$> items))
  | _ => 1%nat
  end.

(** Whether the elements [extract_key_info] reads that the dataset has
    read as text. *)
Definition key_fields : list string :=
  [patient_id_key; patient_name_key; accession_key; study_date_key].

Definition readable (dataset : Dataset) : bool :=
  forallb (λ field,
             match dataset !! Keyword field with
             | Some elem => bool_decide (is_Some (text_of elem))
             | None => true
             end) key_fields.

(** An element is as it was but for private elements removed inside its
    items, at any depth: every item has the elements it had, themselves as
    they were but for such removals, except private elements, which it may
    have lost. *)
#[warnings="-register-all"]
Inductive pruned : DataElement → DataElement → Prop :=
  | pruned_same elem : pruned elem elem
  | pruned_Sequence items items' :
      Forall2 (λ item item' : Dataset,
                 ∀ t, is_private t = true ∧ item' !! t = None
                      ∨ option_Forall2 pruned (item !! t) (item' !! t))
        items items' →
      pruned (Sequence items) (Sequence items').

Definition pruned_dataset (before after : Dataset) : Prop :=
  ∀ t, is_private t = true ∧ after !! t = None
       ∨ option_Forall2 pruned (before !! t) (after !! t).

(** A dataset for the examples, with three private elements, one of them
    incorrectly populated. *)
Definition study_dataset : Dataset :=
  list_to_map
    [(Keyword "PatientID", Text "P1");
     (Keyword "PatientName", Text "SMITH^JOHN");
     (Keyword "AccessionNumber", Text "A1");
     (Keyword "StudyDate", Text "20200101");
     (Keyword "InstitutionName", Text "General Hospital");
     (Keyword "Modality", Text "MR");
     (PrivateTag 9 16, Text "vendor");
     (PrivateTag 9 17, Malformed "broken");
     (PrivateTag 11 16, Text "vendor")].

(** The items of a sequence of two: the first has an element that is
    incorrectly populated, the second a private element. *)
Definition referenced_items : list Dataset :=
  [ {[ Keyword "ReferencedFrameNumber" := Malformed "one" ]};
    list_to_map
      [(Keyword "ReferencedSOPInstanceUID", Text "1.2.840.1");
       (PrivateTag 9 16, Text "vendor")] ].

(** The same items, every element correctly populated. *)
Definition sound_items : list Dataset :=
  [ {[ Keyword "ReferencedFrameNumber" := Text "1" ]};
    list_to_map
      [(Keyword "ReferencedSOPInstanceUID", Text "1.2.840.1");
       (PrivateTag 9 16, Text "vendor")] ].

(** A dataset with a private element and a sequence of these items. *)
Definition referenced_dataset (items : list Dataset) : Dataset :=
  list_to_map
    [(Keyword "PatientID", Text "P1");
     (Keyword "PatientName", Text "SMITH^JOHN");
     (Keyword "AccessionNumber", Text "A1");
     (Keyword "StudyDate", Text "20200101");
     (Keyword "Modality", Text "MR");
     (PrivateTag 9 16, Text "vendor");
     (Keyword "ReferencedImageSequence", Sequence items)].

(** ** The rest of the traversal *)

(** The outcome of the [k]-th call of [os.path.isdir] or [os.path.isfile]
    on a path; these calls do not raise. The world counts them together
    with the calls of [os.listdir]. *)
Definition probes : Type := string → nat → bool.

Definition os_path_probe (probe : probes) (directory : string) : Py nat bool :=
  λ calls, (S calls, Return (probe directory calls)).

(** The loop of [isdir] and of [isfile]: [value = value or probe(directory)],
    where [or] does not evaluate the call once [value] is true. *)
Fixpoint probe_loop (probe : probes) (directory : string) (n : nat) (value : bool)
    : Py nat bool :=
  match n with
  | O => ret value
  | S n' =>
      value' <- (if value then ret value else os_path_probe probe directory) ;;
      probe_loop probe directory n' value'
  end.

Definition isdir (os_path_isdir : probes) (directory : string) : Py nat bool :=
  probe_loop os_path_isdir directory 40 false.

Definition isfile (os_path_isfile : probes) (directory : string) : Py nat bool :=
  probe_loop os_path_isfile directory 40 false.

(** [s.endswith(suffix)]. *)
Fixpoint endswith (s suffix : string) : bool :=
  if bool_decide (s = suffix) then true
  else match s with
       | EmptyString => false
       | String _ s' => endswith s' suffix
       end.

(** A generator run to its end: the loop over the names, with the test
    made when the loop reaches the name, and the list of what is yielded. *)
Fixpoint yield_loop (names : list string) (test : string → Py nat bool)
    (item : string → string) : Py nat (list string) :=
  match names with
  | [] => ret []
  | name :: names' =>
      selected <- test name ;;
      rest <- yield_loop names' test item ;;
      ret (if (selected : bool) then item name :: rest else rest)
  end.

Section Traversal.
(** [os.path.join], the listings, and the answers of [os.path.isdir] and
    [os.path.isfile]. *)
Variable join : string → string → string.
Variable fs : filesystem.
Variable os_path_isdir os_path_isfile : probes.

Definition patient_directory_yield (root_directory : string) : Py nat (list string) :=
  names <- listdir fs root_directory ;;
  yield_loop names
    (λ patient_folder, isdir os_path_isdir (join root_directory patient_folder))
    (join root_directory).

Definition sequence_directory_yield (patient_directory : string) : Py nat (list string) :=
  names <- listdir fs patient_directory ;;
  yield_loop names
    (λ sequence_folder, isdir os_path_isdir (join patient_directory sequence_folder))
    (join patient_directory).

Definition dicom_directory_yield (sequence_directory : string) : Py nat (list string) :=
  names <- listdir fs sequence_directory ;;
  yield_loop names
    (λ dicom_file,
       is_file <- isfile os_path_isfile (join sequence_directory dicom_file) ;;
       ret (if (is_file : bool) then endswith dicom_file ".dcm" else false))
    (join sequence_directory).
End Traversal.

(** Whether a character is in a string. *)
Fixpoint mentions (c : ascii) (s : string) : bool :=
  match s with
  | EmptyString => false
  | String a s' => bool_decide (a = c) || mentions c s'
  end.

(** Every entry has an index, the indices are between 1 and the number of
    entries, and no two patients have the same. *)
Definition indexed (mapping : ledger) : Prop :=
  (∀ patient_id patient_values,
     mapping !! patient_id = Some patient_values →
     ∃ i, Entry.PatientIndex patient_values = Some i
          ∧ 1 ≤ i ≤ Z.of_nat (size mapping))
  ∧ (∀ patient1 patient2 i,
       index_of mapping patient1 = Some i →
       index_of mapping patient2 = Some i →
       patient1 = patient2).

(** A record without a patient name, and file systems for the examples:
    a directory of three entries that are files from the second probe on. *)
Definition nameless_a1 : Info.t := Info.mk "P1" "" "A1" "20200101" "source".

Definition series_fs : filesystem :=
  λ _ _, Return ["IM1.dcm"; "notes.txt"; "IM2.dcm"].

Definition late_probes : probes := λ _ k, bool_decide (1 ≤ k)%nat.

Definition slash_join (a b : string) : string := a +:+ "/" +:+ b.

(** Listings of 2, 5, 5 and 1 entries, the two of 5 with other names. *)
Definition tie_fs : filesystem :=
  λ _ k, nth k [Return (listing 2); Return ((λ i : nat, "a" +:+ pretty i) <$> seq 0 5);
                Return ((λ i : nat, "b" +:+ pretty i) <$> seq 0 5); Return (listing 1)]
           (Raise (OSError "unreachable")).

(** The dataset once [extract_key_info] has read the patient name: a
    dataset without one has got the name [Z^Z]. *)
Definition with_patient_name (dataset : Dataset) : Dataset :=
  match dataset !! Keyword patient_name_key with
  | Some _ => dataset
  | None => <[Keyword patient_name_key := Text "Z^Z"]> dataset
  end.

(** An entry whose five sequences start with those of another. *)
Definition extends (before after : Entry.t) : Prop :=
  Entry.PatientName before `prefix_of` Entry.PatientName after
  ∧ Entry.NewPatientName before `prefix_of` Entry.NewPatientName after
  ∧ Entry.AccessionNumber before `prefix_of` Entry.AccessionNumber after
  ∧ Entry.StudyDate before `prefix_of` Entry.StudyDate after
  ∧ Entry.OriginalBaseFolder before `prefix_of` Entry.OriginalBaseFolder after.

(** ** Retry: properties *)

Section RetryFacts.
Context {W A : Type}.
Implicit Types (function : Py W A) (w : W).

Lemma try_function_first function n e w k :
  (k < n)%nat →
  (∀ j, (j < k)%nat → ∃ e', (attempt function w j).2 = Raise e' ∧ is_Exception e' = true) →
  (∀ e', (attempt function w k).2 = Raise e' → is_Exception e' = false) →
  try_function function n e w = attempt function w k.
Proof.
  revert e w k. induction n as [|n IH]; intros e w k Hk Hbefore Hat; [lia|].
  destruct k as [|k]; simpl in *.
  - destruct (function w) as [w' [a|c]] eqn:E; [done|].
    rewrite (Hat c eq_refl). done.
  - destruct (Hbefore 0%nat ltac:(lia)) as (e' & He' & Hex). simpl in He'.
    destruct (function w) as [w' [a|c]] eqn:E; simpl in *; [done|].
    injection He' as ->. rewrite Hex.
    apply IH; [lia| |done].
    intros j Hj. specialize (Hbefore (S j) ltac:(lia)). simpl in Hbefore.
    by rewrite E in Hbefore.
Qed.

Lemma try_function_exhausted function n e w :
  (0 < n)%nat →
  (∀ j, (j < n)%nat → ∃ e', (attempt function w j).2 = Raise e' ∧ is_Exception e' = true) →
  try_function function n e w = attempt function w (n - 1).
Proof.
  revert e w. induction n as [|n IH]; intros e w Hn Hall; [lia|].
  destruct (Hall 0%nat ltac:(lia)) as (e' & He' & Hex).
  cbn [try_function attempt] in *.
  destruct (function w) as [w' [a|c]] eqn:E; cbn [fst snd] in *; [done|].
  injection He' as ->. rewrite Hex.
  destruct (decide (n = 0%nat)) as [->|Hpos].
  - cbn. by rewrite E.
  - rewrite (IH e' w'); [|lia|].
    + replace (S n - 1)%nat with (S (n - 1)) by lia.
      cbn [attempt]. by rewrite E.
    + intros j Hj. specialize (Hall (S j) ltac:(lia)).
      cbn [attempt] in Hall. by rewrite E in Hall.
Qed.
End RetryFacts.

(** ** Directory listing: properties *)

Section ListdirFacts.
Variable fs : filesystem.
Variable directory : string.

(** The calls [retry_function] makes to [os.listdir]: it stops at the
    first one that returns, so a call that returned is the result. *)
Lemma try_listdir n e w :
  ∃ w' r, try_function (os_listdir fs directory) n e w = (w', r)
    ∧ (w ≤ w' ≤ w + n)%nat
    ∧ ((0 < n)%nat → (w < w')%nat)
    ∧ (∀ k l, (w ≤ k < w')%nat → fs directory k = Return l → r = Return l)
    ∧ (∀ l, r = Return l → ∃ k, (w ≤ k < w')%nat ∧ fs directory k = Return l).
Proof.
  revert e w. induction n as [|n IH]; intros e w.
  - exists w, (Raise e). repeat split; [lia|lia|lia|intros; lia|done].
  - cbn [try_function]. unfold os_listdir at 1.
    destruct (fs directory w) as [l|c] eqn:E.
    + exists (S w), (Return l). repeat split; try lia.
      * intros k l' Hk Hl'. assert (k = w) as -> by lia. congruence.
      * intros l' [= <-]. exists w. split; [lia|done].
    + destruct (is_Exception c).
      * destruct (IH c (S w)) as (w' & r & -> & Hw & _ & Hret & Hsrc).
        exists w', r. repeat split; try lia.
        -- intros k l Hk Hl. destruct (decide (k = w)) as [->|]; [congruence|].
           apply (Hret k); [lia|done].
        -- intros l Hl. destruct (Hsrc l Hl) as (k & Hk & Hfs).
           exists k. split; [lia|done].
      * exists (S w), (Raise c). repeat split; try lia; [|done].
        intros k l Hk Hl. assert (k = w) as -> by lia. congruence.
Qed.

(** What the rounds of [listdir] keep true: [selected_list] is at least
    as long as every listing seen since call [w0], and it is one of them
    unless none was seen. *)
Lemma listdir_loop_spec n w0 w max_size selected_list :
  (w0 ≤ w)%nat →
  (∀ k l, (w0 ≤ k < w)%nat → fs directory k = Return l → Z.of_nat (length l) ≤ max_size) →
  ((max_size = -1 ∧ selected_list = [])
   ∨ (max_size = Z.of_nat (length selected_list)
      ∧ ∃ k, (w0 ≤ k < w)%nat ∧ fs directory k = Return selected_list)) →
  ∃ w' selected,
    listdir_loop fs directory n max_size selected_list w = (w', Return selected)
    ∧ (w + n ≤ w' ≤ w + 10 * n)%nat
    ∧ (∀ k l, (w0 ≤ k < w')%nat → fs directory k = Return l →
         (length l ≤ length selected)%nat)
    ∧ ((∃ k l, (w0 ≤ k < w')%nat ∧ fs directory k = Return l) →
         ∃ k, (w0 ≤ k < w')%nat ∧ fs directory k = Return selected)
    ∧ ((∀ k, (w0 ≤ k < w')%nat → ∃ e, fs directory k = Raise e) → selected = []).
Proof.
  revert w max_size selected_list.
  induction n as [|n IH]; intros w max_size selected_list Hw Hmax Hsel.
  - exists w, selected_list. cbn. repeat split; try lia.
    + intros k l Hk Hl. specialize (Hmax k l Hk Hl).
      destruct Hsel as [[-> _]|[-> _]]; lia.
    + intros (k & l & Hk & Hl). specialize (Hmax k l Hk Hl).
      destruct Hsel as [[-> _]|[_ ?]]; [lia|done].
    + intros Hnone. destruct Hsel as [[_ ->]|[_ (k & Hk & Hl)]]; [done|].
      destruct (Hnone k Hk) as [e He]. congruence.
  - cbn [listdir_loop]. unfold bind at 1, listdir_round, try_except, bind, retry_function.
    destruct (try_listdir (Z.to_nat exception_repeat_times)
                (Exception "Retry Exception Failed.") w)
      as (w1 & r & -> & Hw1 & Hlt & Hret & Hsrc).
    specialize (Hlt ltac:(unfold exception_repeat_times; lia)).
    assert (w1 ≤ w + 10)%nat by (unfold exception_repeat_times in Hw1; lia).
    destruct r as [directory_list|c].
    + destruct (Hsrc directory_list eq_refl) as (k0 & Hk0 & Hfs0).
      case_bool_decide as Hcmp; cbn [ret fst snd].
      * destruct (IH w1 (Z.of_nat (length directory_list)) directory_list)
          as (w' & selected & -> & Hw' & H1 & H2 & H3).
        -- lia.
        -- intros k l Hk Hl. destruct (decide (k < w)%nat).
           ++ specialize (Hmax k l ltac:(lia) Hl). lia.
           ++ specialize (Hret k l ltac:(lia) Hl). injection Hret as ->. lia.
        -- right. split; [done|]. exists k0. split; [lia|done].
        -- exists w', selected. repeat split; try done; lia.
      * destruct (IH w1 max_size selected_list)
          as (w' & selected & -> & Hw' & H1 & H2 & H3).
        -- lia.
        -- intros k l Hk Hl. destruct (decide (k < w)%nat).
           ++ apply (Hmax k l); [lia|done].
           ++ specialize (Hret k l ltac:(lia) Hl). injection Hret as ->. lia.
        -- destruct Hsel as [[-> _]|[-> (k & Hk & Hl)]]; [lia|].
           right. split; [done|]. exists k. split; [lia|done].
        -- exists w', selected. repeat split; try done; lia.
    + cbn [ret fst snd].
      destruct (IH w1 max_size selected_list)
        as (w' & selected & -> & Hw' & H1 & H2 & H3).
      * lia.
      * intros k l Hk Hl. destruct (decide (k < w)%nat).
        -- apply (Hmax k l); [lia|done].
        -- specialize (Hret k l ltac:(lia) Hl). done.
      * destruct Hsel as [?|[-> (k & Hk & Hl)]]; [by left|].
        right. split; [done|]. exists k. split; [lia|done].
      * exists w', selected. repeat split; try done; lia.
Qed.
End ListdirFacts.

(** ** The mapping: properties *)

Section LedgerFacts.
Implicit Types (mapping : ledger) (patient_info : Info.t) (patient_id : string).

Lemma initialise_lookup patient_id mapping :
  initialise_mapping_entry patient_id mapping !! patient_id
  = Some (entry_of mapping patient_id).
Proof.
  unfold initialise_mapping_entry, entry_of.
  destruct (mapping !! patient_id) eqn:E; simpl; [done|].
  by rewrite lookup_insert_eq.
Qed.

Lemma initialise_lookup_ne patient_id other mapping :
  patient_id ≠ other →
  initialise_mapping_entry patient_id mapping !! other = mapping !! other.
Proof.
  intros Hne. unfold initialise_mapping_entry.
  destruct (mapping !! patient_id); [done|]. by rewrite lookup_insert_ne.
Qed.

Lemma initialise_present patient_id mapping :
  is_Some (mapping !! patient_id) →
  initialise_mapping_entry patient_id mapping = mapping.
Proof. intros [e He]. unfold initialise_mapping_entry. by rewrite He. Qed.

Lemma exists_in_mapping_spec patient_info mapping :
  exists_in_mapping patient_info mapping = true
  ↔ encounter patient_info ∈ encounters_of mapping (Info.PatientID patient_info).
Proof.
  unfold exists_in_mapping, encounters_of, encounters.
  destruct (mapping !! Info.PatientID patient_info) as [e|]; simpl.
  - rewrite existsb_exists. split.
    + intros ([a d] & Hin & Hb). simpl in Hb.
      apply andb_true_iff in Hb as [Ha Hd].
      apply bool_decide_eq_true in Ha, Hd. subst.
      by apply list_elem_of_In.
    + intros Hin. exists (encounter patient_info). split.
      * by apply list_elem_of_In.
      * simpl. by rewrite !bool_decide_eq_true_2.
  - split; [done|]. by intros ?%not_elem_of_nil.
Qed.

Lemma exists_in_mapping_initialise patient_info mapping :
  exists_in_mapping patient_info
    (initialise_mapping_entry (Info.PatientID patient_info) mapping)
  = exists_in_mapping patient_info mapping.
Proof.
  unfold exists_in_mapping. rewrite initialise_lookup. unfold entry_of.
  by destruct (mapping !! Info.PatientID patient_info).
Qed.

Lemma exists_in_mapping_present patient_info mapping :
  exists_in_mapping patient_info mapping = true →
  is_Some (mapping !! Info.PatientID patient_info).
Proof.
  unfold exists_in_mapping.
  by destruct (mapping !! Info.PatientID patient_info).
Qed.

Lemma get_patient_index_initialise patient_info mapping :
  get_patient_index patient_info
    (initialise_mapping_entry (Info.PatientID patient_info) mapping)
  = Return (candidate_index patient_info mapping).
Proof.
  unfold get_patient_index, candidate_index. rewrite initialise_lookup.
  by destruct (Entry.PatientIndex _).
Qed.

(** [add_to_mapping], case by case. *)
Lemma add_to_mapping_eq patient_info mapping :
  add_to_mapping patient_info mapping =
  let patient_id := Info.PatientID patient_info in
  let patient_index := candidate_index patient_info mapping in
  match generate_new_patient_name (Info.PatientName patient_info) patient_index
          (Info.StudyDate patient_info) with
  | Raise e => (initialise_mapping_entry patient_id mapping, Raise e)
  | Return new_patient_name =>
      if exists_in_mapping patient_info mapping
      then (mapping, Return new_patient_name)
      else (<[patient_id :=
                append_encounter patient_index patient_info new_patient_name
                  (entry_of mapping patient_id)]> mapping,
            Return new_patient_name)
  end.
Proof.
  unfold add_to_mapping, bind, modify, read, lift, gets, ret. cbn zeta.
  rewrite get_patient_index_initialise.
  destruct (generate_new_patient_name _ _ _) as [p|e]; [|done].
  rewrite exists_in_mapping_initialise.
  destruct (exists_in_mapping patient_info mapping) eqn:E.
  - rewrite initialise_present; [done|]. by apply exists_in_mapping_present.
  - f_equal. apply map_eq. intros k.
    destruct (decide (k = Info.PatientID patient_info)) as [->|Hne].
    + rewrite lookup_alter_eq, initialise_lookup, lookup_insert_eq. done.
    + rewrite lookup_alter_ne, lookup_insert_ne, initialise_lookup_ne by done. done.
Qed.

Lemma encounters_append patient_index patient_info new_patient_name patient_values :
  parallel patient_values →
  encounters (append_encounter patient_index patient_info new_patient_name patient_values)
  = encounters patient_values ++ [encounter patient_info].
Proof.
  intros (_ & _ & Hlen & _). unfold encounters, append_encounter.
  cbn [Entry.AccessionNumber Entry.StudyDate].
  by rewrite zip_with_app.
Qed.

Lemma parallel_initial : parallel Entry.initial.
Proof. by repeat split. Qed.

Lemma parallel_append patient_index patient_info new_patient_name patient_values :
  parallel patient_values →
  parallel (append_encounter patient_index patient_info new_patient_name patient_values).
Proof.
  intros (H1 & H2 & H3 & H4). unfold parallel, append_encounter; simpl.
  rewrite !length_app; simpl. lia.
Qed.

Lemma entry_ok_initial : entry_ok Entry.initial.
Proof.
  split; [apply parallel_initial|]. split; [constructor|]. split; [done|].
  intros i n q d Hn. cbn in Hn. by destruct i.
Qed.

Lemma entry_ok_append patient_index patient_info new_patient_name patient_values :
  entry_ok patient_values →
  encounter patient_info ∉ encounters patient_values →
  (∀ i, Entry.PatientIndex patient_values = Some i → patient_index = i) →
  generate_new_patient_name (Info.PatientName patient_info) patient_index
    (Info.StudyDate patient_info) = Return new_patient_name →
  entry_ok (append_encounter patient_index patient_info new_patient_name patient_values).
Proof.
  intros (Hpar & Hnd & Hnone & Hder) Hfresh Hidx Hgen.
  split; [by apply parallel_append|].
  split.
  { rewrite encounters_append by done.
    apply NoDup_app. split; [done|]. split; [|apply NoDup_singleton].
    intros x Hx ->%list_elem_of_singleton. done. }
  split; [done|].
  destruct Hpar as (H1 & H2 & H3 & H4).
  intros i n q d. unfold append_encounter; simpl. intros Hn Hq Hd.
  exists patient_index. split; [done|].
  destruct (decide (i < length (Entry.StudyDate patient_values))%nat) as [Hlt|Hge].
  - rewrite lookup_app_l in Hn, Hq, Hd by lia.
    destruct (Hder i n q d Hn Hq Hd) as (j & Hj & Hgenj).
    by rewrite (Hidx j Hj).
  - assert (i = length (Entry.StudyDate patient_values)) as ->.
    { apply lookup_lt_Some in Hd. rewrite length_app in Hd. simpl in Hd. lia. }
    rewrite lookup_app_r in Hd by lia.
    rewrite lookup_app_r in Hn by lia.
    rewrite lookup_app_r in Hq by lia.
    replace (_ - _)%nat with 0%nat in Hd by lia.
    replace (_ - _)%nat with 0%nat in Hn by lia.
    replace (_ - _)%nat with 0%nat in Hq by lia.
    simpl in *. by simplify_eq.
Qed.

Lemma initialise_parallel patient_id mapping :
  ledger_parallel mapping →
  ledger_parallel (initialise_mapping_entry patient_id mapping).
Proof.
  intros Hm k e. unfold initialise_mapping_entry.
  destruct (mapping !! patient_id) eqn:E; [apply Hm|].
  rewrite lookup_insert. case_decide.
  - intros [= <-]. apply parallel_initial.
  - apply Hm.
Qed.

Lemma initialise_ok patient_id mapping :
  ledger_ok mapping → ledger_ok (initialise_mapping_entry patient_id mapping).
Proof.
  intros Hm k e. unfold initialise_mapping_entry.
  destruct (mapping !! patient_id) eqn:E; [apply Hm|].
  rewrite lookup_insert. case_decide.
  - intros [= <-]. apply entry_ok_initial.
  - apply Hm.
Qed.

Lemma entry_of_parallel patient_id mapping :
  ledger_parallel mapping → parallel (entry_of mapping patient_id).
Proof.
  intros Hm. unfold entry_of.
  destruct (mapping !! patient_id) eqn:E; simpl; [by eapply Hm|apply parallel_initial].
Qed.

Lemma entry_of_ok patient_id mapping :
  ledger_ok mapping → entry_ok (entry_of mapping patient_id).
Proof.
  intros Hm. unfold entry_of.
  destruct (mapping !! patient_id) eqn:E; simpl; [by eapply Hm|apply entry_ok_initial].
Qed.

Lemma encounters_of_entry_of mapping patient_id :
  encounters_of mapping patient_id = encounters (entry_of mapping patient_id).
Proof.
  unfold encounters_of, entry_of. by destruct (mapping !! patient_id).
Qed.

Lemma add_to_mapping_parallel patient_info mapping :
  ledger_parallel mapping → ledger_parallel (add_to_mapping patient_info mapping).1.
Proof.
  intros Hm. rewrite add_to_mapping_eq. cbn zeta.
  destruct (generate_new_patient_name _ _ _) as [p|e]; simpl.
  - destruct (exists_in_mapping patient_info mapping); simpl; [done|].
    intros k e. rewrite lookup_insert. case_decide.
    + intros [= <-]. apply parallel_append. by apply entry_of_parallel.
    + apply Hm.
  - by apply initialise_parallel.
Qed.

Lemma add_to_mapping_ok patient_info mapping :
  ledger_ok mapping → ledger_ok (add_to_mapping patient_info mapping).1.
Proof.
  intros Hm. rewrite add_to_mapping_eq. cbn zeta.
  destruct (generate_new_patient_name _ _ _) as [p|e] eqn:Hgen; simpl.
  - destruct (exists_in_mapping patient_info mapping) eqn:Hex; simpl; [done|].
    intros k e. rewrite lookup_insert. case_decide; [|apply Hm].
    intros [= <-]. apply entry_ok_append; [by apply entry_of_ok| | |done].
    + rewrite <-encounters_of_entry_of, <-exists_in_mapping_spec. by rewrite Hex.
    + intros i Hi. unfold candidate_index. by rewrite Hi.
  - by apply initialise_ok.
Qed.

Lemma reachable_ok mapping : reachable mapping → ledger_ok mapping.
Proof.
  induction 1 as [|mapping patient_info _ IH].
  - intros k e Hk. by rewrite lookup_empty in Hk.
  - by apply add_to_mapping_ok.
Qed.

Lemma ledger_ok_parallel mapping : ledger_ok mapping → ledger_parallel mapping.
Proof. intros Hm k e Hk. by destruct (Hm k e Hk). Qed.
End LedgerFacts.

(** ** Recording an encounter once *)

Section Encounters.
Implicit Types (mapping : ledger) (patient_info : Info.t).

Lemma filter_eq_absent {X} `{EqDecision X} (x : X) (l : list X) :
  x ∉ l → filter (λ y, y = x) l = [].
Proof.
  induction l as [|y l IH]; [done|].
  intros [Hne Hl]%not_elem_of_cons.
  rewrite filter_cons_False by congruence. by apply IH.
Qed.

Lemma filter_eq_once {X} `{EqDecision X} (x : X) (l : list X) :
  NoDup l → x ∈ l → length (filter (λ y, y = x) l) = 1%nat.
Proof.
  induction 1 as [|y l Hy Hnd IH]; [by intros ?%not_elem_of_nil|].
  intros [->|Hin]%elem_of_cons.
  - rewrite filter_cons_True by done. by rewrite filter_eq_absent.
  - rewrite filter_cons_False; [by apply IH|].
    intros ->. done.
Qed.

Lemma entry_of_insert mapping patient_id (patient_values : Entry.t) :
  entry_of (<[patient_id := patient_values]> mapping) patient_id = patient_values.
Proof. unfold entry_of. by rewrite lookup_insert_eq. Qed.

Lemma candidate_index_assigned patient_info mapping patient_index :
  Entry.PatientIndex (entry_of mapping (Info.PatientID patient_info)) = Some patient_index →
  candidate_index patient_info mapping = patient_index.
Proof. intros H. unfold candidate_index. by rewrite H. Qed.

(** A call that returned, made again from the ledger it left. *)
Lemma add_to_mapping_again patient_info mapping mapping1 new_patient_name :
  ledger_ok mapping →
  add_to_mapping patient_info mapping = (mapping1, Return new_patient_name) →
  add_to_mapping patient_info mapping1 = (mapping1, Return new_patient_name)
  ∧ exists_in_mapping patient_info mapping1 = true.
Proof.
  intros Hok. rewrite add_to_mapping_eq. cbn zeta.
  destruct (generate_new_patient_name _ _ _) as [p|e] eqn:Hgen; [|done].
  destruct (exists_in_mapping patient_info mapping) eqn:Hex.
  - intros [= <- <-]. split; [|done].
    rewrite add_to_mapping_eq. cbn zeta. by rewrite Hgen, Hex.
  - intros [= <- <-].
    set (e1 := append_encounter _ _ _ _).
    set (m1 := <[_ := e1]> mapping).
    assert (exists_in_mapping patient_info m1 = true) as Hex1.
    { apply exists_in_mapping_spec. rewrite encounters_of_entry_of.
      unfold m1. rewrite entry_of_insert. unfold e1.
      rewrite encounters_append
        by (apply entry_of_parallel; by apply ledger_ok_parallel).
      apply elem_of_app. right. by apply list_elem_of_singleton. }
    split; [|done].
    rewrite add_to_mapping_eq. cbn zeta.
    rewrite (candidate_index_assigned patient_info m1
               (candidate_index patient_info mapping)).
    + by rewrite Hgen, Hex1.
    + unfold m1. by rewrite entry_of_insert.
Qed.

Lemma times_recorded_once patient_info mapping :
  ledger_ok mapping →
  exists_in_mapping patient_info mapping = true →
  times_recorded patient_info mapping = 1%nat.
Proof.
  intros Hok Hex. unfold times_recorded.
  apply filter_eq_once; [|by apply exists_in_mapping_spec].
  rewrite encounters_of_entry_of. by apply entry_of_ok.
Qed.

(** The encounters of the patient after a call that returned. *)
Lemma add_to_mapping_encounters patient_info mapping mapping1 new_patient_name :
  ledger_parallel mapping →
  add_to_mapping patient_info mapping = (mapping1, Return new_patient_name) →
  encounters_of mapping1 (Info.PatientID patient_info)
  = if exists_in_mapping patient_info mapping
    then encounters_of mapping (Info.PatientID patient_info)
    else encounters_of mapping (Info.PatientID patient_info) ++ [encounter patient_info].
Proof.
  intros Hpar. rewrite add_to_mapping_eq. cbn zeta.
  destruct (generate_new_patient_name _ _ _) as [p|e] eqn:Hgen; [|done].
  destruct (exists_in_mapping patient_info mapping) eqn:Hex; intros [= <- <-]; [done|].
  rewrite !encounters_of_entry_of, entry_of_insert.
  by rewrite encounters_append by (by apply entry_of_parallel).
Qed.
End Encounters.

(** C9. The five sequences of every entry of the ledger have one length: in
    every ledger reachable from the empty one, and after
    [initialise_mapping_entry] or [add_to_mapping] (whether it returns or
    raises) on any ledger where they had. A new entry has five empty
    sequences, and a call that appends an encounter makes each of the five
    sequences of the patient one longer. *)
Theorem parallel_sequences_invariant (mapping : ledger) (patient_info : Info.t) :
  let patient_id := Info.PatientID patient_info in
  (reachable mapping → ledger_parallel mapping)
  ∧ (ledger_parallel mapping →
       ledger_parallel (initialise_mapping_entry patient_id mapping)
       ∧ ledger_parallel (add_to_mapping patient_info mapping).1)
  ∧ (mapping !! patient_id = None →
       initialise_mapping_entry patient_id mapping !! patient_id
       = Some (Entry.mk None [] [] [] [] []))
  ∧ (∀ mapping1 new_patient_name,
       add_to_mapping patient_info mapping = (mapping1, Return new_patient_name) →
       exists_in_mapping patient_info mapping = false →
       let before := entry_of mapping patient_id in
       let after := entry_of mapping1 patient_id in
       length (Entry.PatientName after) = S (length (Entry.PatientName before))
       ∧ length (Entry.NewPatientName after) = S (length (Entry.NewPatientName before))
       ∧ length (Entry.AccessionNumber after) = S (length (Entry.AccessionNumber before))
       ∧ length (Entry.StudyDate after) = S (length (Entry.StudyDate before))
       ∧ length (Entry.OriginalBaseFolder after)
         = S (length (Entry.OriginalBaseFolder before))).
Proof.
  cbn zeta. split; [|split; [|split]].
  - intros Hr. by apply ledger_ok_parallel, reachable_ok.
  - intros Hpar. split; [by apply initialise_parallel|by apply add_to_mapping_parallel].
  - intros Hnone. rewrite initialise_lookup. unfold entry_of. by rewrite Hnone.
  - intros mapping1 p. rewrite add_to_mapping_eq. cbn zeta.
    destruct (generate_new_patient_name _ _ _) as [q|e]; [|done].
    intros Hadd Hex. rewrite Hex in Hadd. injection Hadd as <- <-.
    rewrite entry_of_insert. unfold append_encounter; simpl.
    rewrite !length_app; simpl. lia.
Qed.

(** C2. In every ledger reachable from the empty one, a call of
    [add_to_mapping] that returned, made again with the same record, returns
    the same anonymised name and leaves the ledger as the first call left
    it; the encounter is then in the entry of the patient exactly once, and
    the two calls together appended it once if it was not there and not at
    all if it was. *)
Theorem resolve_idempotent (mapping mapping1 : ledger) (patient_info : Info.t)
    (new_patient_name : string) :
  reachable mapping →
  add_to_mapping patient_info mapping = (mapping1, Return new_patient_name) →
  let patient_id := Info.PatientID patient_info in
  add_to_mapping patient_info mapping1 = (mapping1, Return new_patient_name)
  ∧ times_recorded patient_info mapping1 = 1%nat
  ∧ encounters_of mapping1 patient_id
    = if exists_in_mapping patient_info mapping
      then encounters_of mapping patient_id
      else encounters_of mapping patient_id ++ [encounter patient_info].
Proof.
  intros Hr Hadd. cbn zeta.
  pose proof (reachable_ok _ Hr) as Hok.
  destruct (add_to_mapping_again _ _ _ _ Hok Hadd) as [Hagain Hex1].
  split; [done|]. split.
  - apply times_recorded_once; [|done].
    replace mapping1 with (add_to_mapping patient_info mapping).1 by by rewrite Hadd.
    by apply add_to_mapping_ok.
  - apply (add_to_mapping_encounters _ _ _ new_patient_name); [|done].
    by apply ledger_ok_parallel.
Qed.

(** ** The anonymised name *)

Section NewPatientName.
Lemma first_char_Return s c : first_char s = Return c → ∃ a s', s = String a s' ∧ c = String a "".
Proof. destruct s as [|a s']; [done|]. intros [= <-]. by exists a, s'. Qed.

(** One or two characters. *)
Lemma initials_shape patient_name ini :
  initials patient_name = Return ini →
  (∃ a, ini = String a "") ∨ (∃ a b, ini = String a (String b "")).
Proof.
  unfold initials.
  destruct (first_char (given_name patient_name)) as [g|e] eqn:Hg.
  - destruct (first_char (family_name patient_name)) as [f|e] eqn:Hf; [|done].
    intros [= <-].
    apply first_char_Return in Hg as (a & ? & _ & ->).
    apply first_char_Return in Hf as (b & ? & _ & ->).
    right. by exists a, b.
  - intros (a & ? & _ & ->)%first_char_Return. left. by exists a.
Qed.

Lemma generate_new_patient_name_initials `{Str D} patient_name patient_index
    (study_date : D) new_patient_name :
  generate_new_patient_name patient_name patient_index study_date = Return new_patient_name →
  ∃ ini, initials patient_name = Return ini
         ∧ new_patient_name = ini +:+ str patient_index +:+ "_" +:+ str study_date.
Proof.
  unfold generate_new_patient_name.
  destruct (initials patient_name) as [ini|e]; [|done].
  intros [= <-]. by exists ini.
Qed.

(** The decimal numeral of an index starts with a digit or a sign. *)
Lemma pretty_N_go_head x s :
  (∃ c s', s = String c s' ∧ c ≠ "_"%char) →
  ∃ c s', pretty_N_go x s = String c s' ∧ c ≠ "_"%char.
Proof.
  revert s. induction (N.lt_wf_0 x) as [x _ IH]. intros s Hs.
  destruct (decide (x = 0%N)) as [->|Hx].
  - by rewrite pretty_N_go_0.
  - rewrite pretty_N_go_step by lia.
    apply IH; [apply N.div_lt; lia|].
    eexists _, _. split; [done|].
    unfold pretty_N_char. by repeat case_match.
Qed.

Lemma str_int_head (i : Z) : ∃ c s', str i = String c s' ∧ c ≠ "_"%char.
Proof.
  unfold str, str_int, pretty, pretty_Z.
  assert (∀ p, ∃ c s', pretty (N.pos p) = String c s' ∧ c ≠ "_"%char) as Hpos.
  { intros p. unfold pretty, pretty_N. rewrite decide_False by done.
    rewrite pretty_N_go_step by lia. apply pretty_N_go_head.
    eexists _, _. split; [done|]. unfold pretty_N_char. by repeat case_match. }
  destruct i as [|p|p].
  - by exists "0"%char, "".
  - apply Hpos.
  - exists "-"%char, (pretty (N.pos p)). by split.
Qed.

Lemma shifted_underscore s b t1 t2 :
  s +:+ String "_" t1 = String b (s +:+ String "_" t2) →
  s = "" ∨ ∃ s', s = String "_" s'.
Proof.
  revert b. induction s as [|c s IH]; intros b; [by left|].
  simpl. intros [= -> Hrest]. right.
  destruct (IH _ Hrest) as [->|(s' & ->)].
  - simpl in Hrest. injection Hrest as ->. by exists "".
  - simpl in Hrest. injection Hrest as -> _. by eexists.
Qed.

(** Two anonymised names with the same index are the same only for the
    same study date. *)
Lemma new_patient_name_date name1 name2 ini1 ini2 (patient_index : Z) (d1 d2 : string) :
  initials name1 = Return ini1 →
  initials name2 = Return ini2 →
  ini1 +:+ str patient_index +:+ "_" +:+ d1 = ini2 +:+ str patient_index +:+ "_" +:+ d2 →
  d1 = d2.
Proof.
  intros H1 H2.
  destruct (str_int_head patient_index) as (c & s' & Hs & Hc).
  assert (∀ t1 t2 b,
    str patient_index +:+ String "_" t1
    ≠ String b (str patient_index +:+ String "_" t2)) as Hshift.
  { intros t1 t2 b [Hnil|(s'' & Hhead)]%shifted_underscore; congruence. }
  apply initials_shape in H1 as [(a1 & ->)|(a1 & b1 & ->)];
    apply initials_shape in H2 as [(a2 & ->)|(a2 & b2 & ->)];
    cbn [String.append].
  - intros [= _ Heq]. do 3 apply String.app_inj in Heq. done.
  - intros [= _ Heq]. destruct (Hshift d1 d2 b2 Heq).
  - intros [= _ Heq]. destruct (Hshift d2 d1 b1 (eq_sym Heq)).
  - intros [= _ _ Heq]. do 3 apply String.app_inj in Heq. done.
Qed.
End NewPatientName.

(** C4. The anonymised name is the given-name initial, the family-name
    initial, [str] of the index, an underscore and [str] of the study date;
    without a given name it starts at the family-name initial; without a
    family name the derivation raises and returns nothing. *)
Theorem pseudonym_rule `{Str D} (patient_name : PersonName) (patient_index : Z)
    (study_date : D) :
  (∀ g given f family,
     given_name patient_name = String g given →
     family_name patient_name = String f family →
     generate_new_patient_name patient_name patient_index study_date
     = Return ((String g "" +:+ String f "") +:+ str patient_index +:+ "_" +:+ str study_date))
  ∧ (∀ f family,
       given_name patient_name = "" →
       family_name patient_name = String f family →
       generate_new_patient_name patient_name patient_index study_date
       = Return (String f "" +:+ str patient_index +:+ "_" +:+ str study_date))
  ∧ (family_name patient_name = "" →
       generate_new_patient_name patient_name patient_index study_date = Raise IndexError).
Proof.
  unfold generate_new_patient_name, initials. repeat split.
  - intros g given f family -> ->. done.
  - intros f family -> ->. done.
  - intros ->. by destruct (first_char (given_name patient_name)).
Qed.

Lemma pseudonym_rule_witness :
  generate_new_patient_name "SMITH^JOHN" 0 "20200101" = Return "JS0_20200101"
  ∧ generate_new_patient_name "SMITH" 12 20200102 = Return "S12_20200102"
  ∧ generate_new_patient_name "^JOHN" 0 "20200101" = Raise IndexError.
Proof.
  split; [|split].
  - exact (proj1 (pseudonym_rule "SMITH^JOHN" 0 "20200101")
             "J"%char "OHN" "S"%char "MITH" eq_refl eq_refl).
  - exact (proj1 (proj2 (pseudonym_rule "SMITH" 12 20200102))
             "S"%char "MITH" eq_refl eq_refl).
  - exact (proj2 (proj2 (pseudonym_rule "^JOHN" 0 "20200101")) eq_refl).
Defined.

(** ** The index of a patient *)

Section PatientIndex.
Implicit Types (mapping : ledger) (patient_info : Info.t) (patient_id : string).

Lemma index_of_entry_of mapping patient_id patient_index :
  index_of mapping patient_id = Some patient_index →
  is_Some (mapping !! patient_id)
  ∧ Entry.PatientIndex (entry_of mapping patient_id) = Some patient_index.
Proof.
  unfold index_of, entry_of.
  destruct (mapping !! patient_id) as [e|]; simpl; [|done]. eauto.
Qed.

Lemma index_of_insert mapping patient_id (patient_values : Entry.t) :
  index_of (<[patient_id := patient_values]> mapping) patient_id
  = Entry.PatientIndex patient_values.
Proof. unfold index_of. by rewrite lookup_insert_eq. Qed.

Lemma index_of_insert_ne mapping patient_id other (patient_values : Entry.t) :
  patient_id ≠ other →
  index_of (<[patient_id := patient_values]> mapping) other = index_of mapping other.
Proof. intros Hne. unfold index_of. by rewrite lookup_insert_ne. Qed.

Lemma add_to_mapping_index patient_info mapping patient_id patient_index :
  index_of mapping patient_id = Some patient_index →
  index_of (add_to_mapping patient_info mapping).1 patient_id = Some patient_index.
Proof.
  intros Hidx. rewrite add_to_mapping_eq. cbn zeta.
  destruct (index_of_entry_of _ _ _ Hidx) as [Hsome Hentry].
  destruct (generate_new_patient_name _ _ _) as [p|e]; simpl.
  - destruct (exists_in_mapping patient_info mapping); simpl; [done|].
    destruct (decide (Info.PatientID patient_info = patient_id)) as [<-|Hne].
    + rewrite index_of_insert. simpl.
      by rewrite (candidate_index_assigned _ _ _ Hentry).
    + by rewrite index_of_insert_ne.
  - destruct (decide (Info.PatientID patient_info = patient_id)) as [<-|Hne].
    + by rewrite initialise_present.
    + unfold index_of. by rewrite initialise_lookup_ne.
Qed.

Lemma resolve_all_cons patient_info records mapping :
  (resolve_all (patient_info :: records) mapping).1
  = match (add_to_mapping patient_info mapping).2 with
    | Return _ => (resolve_all records (add_to_mapping patient_info mapping).1).1
    | Raise _ => (add_to_mapping patient_info mapping).1
    end.
Proof.
  cbn [resolve_all]. unfold bind at 1.
  destruct (add_to_mapping patient_info mapping) as [m1 [p|e]]; simpl; [|done].
  unfold bind. by destruct (resolve_all records m1) as [m2 [ps|e]].
Qed.

Lemma resolve_all_index records mapping patient_id patient_index :
  index_of mapping patient_id = Some patient_index →
  index_of (resolve_all records mapping).1 patient_id = Some patient_index.
Proof.
  revert mapping. induction records as [|patient_info records IH]; intros mapping Hidx.
  - done.
  - rewrite resolve_all_cons.
    pose proof (add_to_mapping_index patient_info _ _ _ Hidx) as H1.
    destruct (add_to_mapping patient_info mapping).2; [by apply IH|done].
Qed.

Lemma add_to_mapping_returns patient_info mapping mapping1 new_patient_name :
  add_to_mapping patient_info mapping = (mapping1, Return new_patient_name) →
  generate_new_patient_name (Info.PatientName patient_info)
    (candidate_index patient_info mapping) (Info.StudyDate patient_info)
  = Return new_patient_name.
Proof.
  rewrite add_to_mapping_eq. cbn zeta.
  destruct (generate_new_patient_name _ _ _) as [p|e]; [|done].
  by destruct (exists_in_mapping patient_info mapping); intros [= _ <-].
Qed.

(** The index of the patient after a call is the one the call worked
    with. *)
Lemma add_to_mapping_candidate patient_info mapping mapping1 new_patient_name patient_index :
  add_to_mapping patient_info mapping = (mapping1, Return new_patient_name) →
  index_of mapping1 (Info.PatientID patient_info) = Some patient_index →
  candidate_index patient_info mapping = patient_index.
Proof.
  rewrite add_to_mapping_eq. cbn zeta.
  destruct (generate_new_patient_name _ _ _) as [p|e]; [|done].
  destruct (exists_in_mapping patient_info mapping); intros [= <- <-].
  - intros [_ H]%index_of_entry_of. by apply candidate_index_assigned.
  - rewrite index_of_insert. simpl. congruence.
Qed.
End PatientIndex.

(** C8. The index of a patient, once in the entry, stays: every run of
    calls of [add_to_mapping], for this or any other patient, whether the
    calls return or raise, leaves it there, and a call for the patient
    works with it and puts it in the anonymised name. Two calls for one
    patient, the second from the ledger the first left with an index,
    give names with that one index, and different names when the study
    dates differ. *)
Theorem index_stable (mapping : ledger) (patient_id : string) (patient_index : Z) :
  (index_of mapping patient_id = Some patient_index →
     (∀ records, index_of (resolve_all records mapping).1 patient_id = Some patient_index)
     ∧ (∀ patient_info,
          Info.PatientID patient_info = patient_id →
          get_patient_index patient_info mapping = Return patient_index
          ∧ index_of (add_to_mapping patient_info mapping).1 patient_id = Some patient_index))
  ∧ (∀ info1 info2 mapping1 mapping2 name1 name2,
       Info.PatientID info1 = patient_id →
       Info.PatientID info2 = patient_id →
       add_to_mapping info1 mapping = (mapping1, Return name1) →
       index_of mapping1 patient_id = Some patient_index →
       add_to_mapping info2 mapping1 = (mapping2, Return name2) →
       index_of mapping2 patient_id = Some patient_index
       ∧ (∃ ini1 ini2,
            name1 = ini1 +:+ str patient_index +:+ "_" +:+ Info.StudyDate info1
            ∧ name2 = ini2 +:+ str patient_index +:+ "_" +:+ Info.StudyDate info2)
       ∧ (Info.StudyDate info1 ≠ Info.StudyDate info2 → name1 ≠ name2)).
Proof.
  split.
  - intros Hidx. split; [intros records; by apply resolve_all_index|].
    intros patient_info <-. split; [|by apply add_to_mapping_index].
    unfold get_patient_index.
    destruct (index_of_entry_of _ _ _ Hidx) as [[e He] Hentry].
    unfold entry_of in Hentry. rewrite He in *. simpl in Hentry. by rewrite Hentry.
  - intros info1 info2 mapping1 mapping2 name1 name2 Hp1 Hp2 Hadd1 Hidx1 Hadd2.
    assert (index_of mapping2 patient_id = Some patient_index) as Hidx2.
    { replace mapping2 with (add_to_mapping info2 mapping1).1 by by rewrite Hadd2.
      by apply add_to_mapping_index. }
    split; [done|].
    pose proof (add_to_mapping_returns _ _ _ _ Hadd1) as Hgen1.
    pose proof (add_to_mapping_returns _ _ _ _ Hadd2) as Hgen2.
    rewrite (add_to_mapping_candidate info1 mapping mapping1 name1 patient_index)
      in Hgen1 by (by rewrite ?Hp1).
    rewrite (add_to_mapping_candidate info2 mapping1 mapping2 name2 patient_index)
      in Hgen2 by (by rewrite ?Hp2).
    apply generate_new_patient_name_initials in Hgen1 as (ini1 & Hini1 & ->).
    apply generate_new_patient_name_initials in Hgen2 as (ini2 & Hini2 & ->).
    split; [exists ini1, ini2; split; reflexivity|].
    intros Hdates Heq. apply Hdates.
    exact (new_patient_name_date _ _ _ _ _ _ _ Hini1 Hini2 Heq).
Qed.

Lemma resolve_idempotent_witness :
  let mapping1 := (add_to_mapping smith_a1 ∅).1 in
  add_to_mapping smith_a1 mapping1 = (mapping1, Return "JS1_20200101")
  ∧ times_recorded smith_a1 mapping1 = 1%nat
  ∧ encounters_of mapping1 "P1" = [("A1", "20200101")].
Proof.
  exact (resolve_idempotent ∅ (add_to_mapping smith_a1 ∅).1 smith_a1 "JS1_20200101"
           reachable_empty eq_refl).
Defined.

Lemma parallel_sequences_invariant_witness :
  ledger_parallel (add_to_mapping smith_a1 ∅).1
  ∧ length (Entry.OriginalBaseFolder (entry_of (add_to_mapping smith_a1 ∅).1 "P1")) = 1%nat.
Proof.
  pose proof (parallel_sequences_invariant ∅ smith_a1) as (Hreach & Hstep & Hnew & Hgrow).
  split.
  - apply Hstep. apply Hreach. apply reachable_empty.
  - apply (Hgrow (add_to_mapping smith_a1 ∅).1 "JS1_20200101"); reflexivity.
Defined.

Lemma index_stable_witness :
  let mapping1 := (add_to_mapping smith_a1 ∅).1 in
  index_of (resolve_all [doe_a7; smith_a2; smith_a1_renamed] mapping1).1 "P1" = Some 1
  ∧ ("JS1_20200101" : string) ≠ "JS1_20200102".
Proof.
  cbn zeta. split.
  - apply (proj1 (index_stable (add_to_mapping smith_a1 ∅).1 "P1" 1)). reflexivity.
  - apply (proj2 (index_stable ∅ "P1" 1) smith_a1 smith_a2
             (add_to_mapping smith_a1 ∅).1
             (add_to_mapping smith_a2 (add_to_mapping smith_a1 ∅).1).1
             "JS1_20200101" "JS1_20200102");
      first [reflexivity | discriminate].
Defined.

(** ** A triple met again *)

Section Reencounter.
Implicit Types (mapping : ledger) (patient_info : Info.t).

Lemma exists_in_mapping_unchanged patient_info mapping :
  exists_in_mapping patient_info mapping = true →
  add_to_mapping patient_info mapping
  = (mapping,
     generate_new_patient_name (Info.PatientName patient_info)
       (candidate_index patient_info mapping) (Info.StudyDate patient_info)).
Proof.
  intros Hex. rewrite add_to_mapping_eq. cbn zeta. rewrite Hex.
  destruct (generate_new_patient_name _ _ _); [done|].
  rewrite initialise_present; [done|]. by apply exists_in_mapping_present.
Qed.

Lemma generate_new_patient_name_same_initials `{Str D} name1 name2 patient_index
    (study_date : D) :
  initials name1 = initials name2 →
  generate_new_patient_name name1 patient_index study_date
  = generate_new_patient_name name2 patient_index study_date.
Proof. intros Hini. unfold generate_new_patient_name. by rewrite Hini. Qed.

(** Where the encounter of a record is found, the ledger has its study
    date, a name and an anonymised name derived from them. *)
Lemma recorded_name_derived patient_info mapping original :
  ledger_ok mapping →
  recorded_name patient_info mapping = Some original →
  ∃ patient_index q,
    index_of mapping (Info.PatientID patient_info) = Some patient_index
    ∧ stored_pseudonym patient_info mapping = Some q
    ∧ generate_new_patient_name original patient_index (Info.StudyDate patient_info)
      = Return q.
Proof.
  intros Hok. unfold recorded_name, stored_pseudonym, index_of.
  destruct (mapping !! Info.PatientID patient_info) as [e|] eqn:He; simpl; [|done].
  destruct (Hok _ _ He) as ((H1 & H2 & H3 & H4) & _ & _ & Hder).
  unfold matching_position.
  destruct (list_find _ (encounters e)) as [[i x]|] eqn:Hfind; simpl; [|done].
  intros Hname.
  apply list_find_Some in Hfind as (Hx & -> & _).
  unfold encounters in Hx.
  apply lookup_zip_with_Some in Hx as (a & d & Hpair & Ha & Hd).
  injection Hpair as <- <-.
  destruct (lookup_lt_is_Some_2 (Entry.NewPatientName e) i) as [q Hq].
  { apply lookup_lt_Some in Hname. lia. }
  destruct (Hder i original q _ Hname Hq Hd) as (patient_index & Hindex & Hgen).
  exists patient_index, q. by rewrite Hq.
Qed.
End Reencounter.

(** C3, as the code has it. In a ledger reachable from the empty one where
    the encounter of a record is already there, [add_to_mapping] leaves the
    whole ledger as it is, whether it returns or raises, and what it returns
    is the name derived again from the name of this record, the index of
    the patient and the study date. That is the anonymised name stored at
    the position of the encounter when the name of the record has the
    initials of the name recorded there. *)
Theorem reencounter_rederives (mapping : ledger) (patient_info : Info.t) :
  reachable mapping →
  exists_in_mapping patient_info mapping = true →
  (add_to_mapping patient_info mapping).1 = mapping
  ∧ (add_to_mapping patient_info mapping).2
    = generate_new_patient_name (Info.PatientName patient_info)
        (candidate_index patient_info mapping) (Info.StudyDate patient_info)
  ∧ (∀ original,
       recorded_name patient_info mapping = Some original →
       initials (Info.PatientName patient_info) = initials original →
       ∃ q, stored_pseudonym patient_info mapping = Some q
            ∧ add_to_mapping patient_info mapping = (mapping, Return q)).
Proof.
  intros Hr Hex. rewrite exists_in_mapping_unchanged by done.
  split; [done|]. split; [done|].
  intros original Hname Hini.
  destruct (recorded_name_derived _ _ _ (reachable_ok _ Hr) Hname)
    as (patient_index & q & Hidx & Hq & Hgen).
  exists q. split; [done|].
  apply index_of_entry_of in Hidx as [_ Hidx].
  rewrite (candidate_index_assigned _ _ _ Hidx).
  by rewrite (generate_new_patient_name_same_initials _ original _ _ Hini), Hgen.
Qed.

Lemma reencounter_rederives_witness :
  let mapping := (add_to_mapping smith_a1 ∅).1 in
  (add_to_mapping smith_a1_respelled mapping).1 = mapping
  ∧ ∃ q, stored_pseudonym smith_a1_respelled mapping = Some q
         ∧ add_to_mapping smith_a1_respelled mapping = (mapping, Return q).
Proof.
  cbn zeta.
  pose proof (reencounter_rederives (add_to_mapping smith_a1 ∅).1 smith_a1_respelled
                (reachable_step ∅ smith_a1 reachable_empty) eq_refl) as (Hsame & _ & Hstored).
  split; [exact Hsame|].
  apply (Hstored "SMITH^JOHN"); reflexivity.
Defined.

(** C3 as stated fails: the first study of the first patient met again
    under another name gives a name that is not the stored one. *)
Lemma reencounter_stored_pseudonym_counterexample :
  ¬ (∀ (mapping : ledger) (patient_info : Info.t),
       reachable mapping →
       exists_in_mapping patient_info mapping = true →
       ∃ q, stored_pseudonym patient_info mapping = Some q
            ∧ add_to_mapping patient_info mapping = (mapping, Return q)).
Proof.
  intros Hclaim.
  destruct (Hclaim (add_to_mapping smith_a1 ∅).1 smith_a1_renamed
              (reachable_step ∅ smith_a1 reachable_empty) eq_refl)
    as (q & Hstored & Hadd).
  vm_compute in Hstored. injection Hstored as <-.
  apply (f_equal snd) in Hadd. vm_compute in Hadd. discriminate.
Qed.

(** ** The index of a new patient *)

Section NewIndex.
Implicit Types (mapping : ledger) (patient_info : Info.t) (patient_id : string).

Lemma index_of_None_entry_of mapping patient_id :
  index_of mapping patient_id = None →
  Entry.PatientIndex (entry_of mapping patient_id) = None.
Proof.
  unfold index_of, entry_of. by destruct (mapping !! patient_id).
Qed.

Lemma dom_initialise patient_id mapping :
  dom (initialise_mapping_entry patient_id mapping) = {[patient_id]} ∪ dom mapping.
Proof.
  unfold initialise_mapping_entry.
  destruct (mapping !! patient_id) eqn:E.
  - apply (elem_of_dom_2 (D := gset string)) in E.
    symmetry. by apply subseteq_union_1_L, singleton_subseteq_l.
  - by rewrite dom_insert_L.
Qed.

Lemma dom_add_to_mapping patient_info mapping :
  dom (add_to_mapping patient_info mapping).1
  = {[Info.PatientID patient_info]} ∪ dom mapping.
Proof.
  rewrite add_to_mapping_eq. cbn zeta.
  destruct (generate_new_patient_name _ _ _) as [p|e]; simpl.
  - destruct (exists_in_mapping patient_info mapping) eqn:Hex; simpl.
    + apply exists_in_mapping_present in Hex as [e He].
      apply (elem_of_dom_2 (D := gset string)) in He.
      symmetry. by apply subseteq_union_1_L, singleton_subseteq_l.
    + by rewrite dom_insert_L.
  - apply dom_initialise.
Qed.

(** The index given to a patient that had none: the number of entries,
    the entry of the patient among them. *)
Lemma add_to_mapping_new_index patient_info mapping mapping1 new_patient_name :
  index_of mapping (Info.PatientID patient_info) = None →
  exists_in_mapping patient_info mapping = false →
  add_to_mapping patient_info mapping = (mapping1, Return new_patient_name) →
  index_of mapping1 (Info.PatientID patient_info) = Some (Z.of_nat (size mapping1))
  ∧ size mapping1
    = size (initialise_mapping_entry (Info.PatientID patient_info) mapping).
Proof.
  intros Hnone Hex Hadd.
  assert (size mapping1
          = size (initialise_mapping_entry (Info.PatientID patient_info) mapping)) as Hsize.
  { rewrite <-!size_dom, dom_initialise, <-dom_add_to_mapping. by rewrite Hadd. }
  split; [|done]. rewrite Hsize.
  revert Hadd. rewrite add_to_mapping_eq. cbn zeta.
  destruct (generate_new_patient_name _ _ _) as [p|e]; [|done].
  rewrite Hex. intros [= <- <-]. rewrite index_of_insert. simpl.
  unfold candidate_index. by rewrite index_of_None_entry_of.
Qed.

Lemma reachable_unindexed patient_info mapping :
  ledger_ok mapping →
  index_of mapping (Info.PatientID patient_info) = None →
  exists_in_mapping patient_info mapping = false.
Proof.
  intros Hok Hnone. apply not_true_is_false. intros Hex.
  apply exists_in_mapping_spec in Hex. rewrite encounters_of_entry_of in Hex.
  destruct (entry_of_ok (Info.PatientID patient_info) _ Hok) as (_ & _ & Hempty & _).
  unfold encounters in Hex.
  rewrite (Hempty (index_of_None_entry_of _ _ Hnone)) in Hex.
  destruct (Entry.AccessionNumber _); by apply not_elem_of_nil in Hex.
Qed.

Lemma resolve_all_unfold patient_info records mapping :
  resolve_all (patient_info :: records) mapping
  = match add_to_mapping patient_info mapping with
    | (mapping1, Return new_patient_name) =>
        match resolve_all records mapping1 with
        | (mapping2, Return names) => (mapping2, Return (new_patient_name :: names))
        | (mapping2, Raise e) => (mapping2, Raise e)
        end
    | (mapping1, Raise e) => (mapping1, Raise e)
    end.
Proof. reflexivity. Qed.

Lemma resolve_all_app records1 records2 mapping mapping2 names :
  resolve_all (records1 ++ records2) mapping = (mapping2, Return names) →
  ∃ mapping1 names1 names2,
    resolve_all records1 mapping = (mapping1, Return names1)
    ∧ resolve_all records2 mapping1 = (mapping2, Return names2).
Proof.
  revert mapping names.
  induction records1 as [|patient_info records1 IH]; intros mapping names.
  - intros H. by exists mapping, [], names.
  - rewrite <-app_comm_cons, !resolve_all_unfold.
    destruct (add_to_mapping patient_info mapping) as [m1 [p|e]]; [|done].
    destruct (resolve_all (records1 ++ records2) m1) as [m2 [ps|e]] eqn:Hrest; [|done].
    intros [= <- <-].
    destruct (IH _ _ Hrest) as (mapping1 & names1 & names2 & -> & Hrun2).
    by exists mapping1, (p :: names1), names2.
Qed.

(** Records of a patient that has an entry add no entry. *)
Lemma resolve_all_same_patient records mapping patient_id :
  Forall (λ patient_info, Info.PatientID patient_info = patient_id) records →
  is_Some (mapping !! patient_id) →
  dom (resolve_all records mapping).1 = dom mapping.
Proof.
  intros Hall. revert mapping.
  induction Hall as [|patient_info records Hpid Hall IH]; intros mapping Hsome; [done|].
  assert (dom (add_to_mapping patient_info mapping).1 = dom mapping) as Hdom.
  { rewrite dom_add_to_mapping, Hpid.
    apply (elem_of_dom (D := gset string)) in Hsome.
    by apply subseteq_union_1_L, singleton_subseteq_l. }
  rewrite resolve_all_cons.
  destruct (add_to_mapping patient_info mapping).2; [|done].
  rewrite IH; [done|].
  apply (elem_of_dom (D := gset string)). rewrite Hdom.
  by apply (elem_of_dom (D := gset string)).
Qed.

(** The first records of a patient without entry, then more of them. *)
Lemma resolve_all_new_patient patient_info records mapping mapping1 names patient_id :
  Forall (λ patient_info, Info.PatientID patient_info = patient_id)
    (patient_info :: records) →
  mapping !! patient_id = None →
  resolve_all (patient_info :: records) mapping = (mapping1, Return names) →
  index_of mapping1 patient_id = Some (Z.of_nat (S (size mapping)))
  ∧ size mapping1 = S (size mapping)
  ∧ dom mapping1 = {[patient_id]} ∪ dom mapping
  ∧ ∀ other patient_index,
      index_of mapping other = Some patient_index →
      index_of mapping1 other = Some patient_index.
Proof.
  intros Hall Hnone Hrun.
  apply Forall_cons in Hall as [Hpid Hall].
  pose proof (resolve_all_cons patient_info records mapping) as Hcons.
  rewrite Hrun in Hcons. simpl in Hcons.
  assert (∃ p, (add_to_mapping patient_info mapping).2 = Return p) as [p Hp].
  { revert Hrun. rewrite resolve_all_unfold.
    destruct (add_to_mapping patient_info mapping) as [m1 [p|e]]; [eauto|done]. }
  rewrite Hp in Hcons.
  destruct (add_to_mapping patient_info mapping) as [m1 r] eqn:Hadd.
  simpl in Hp, Hcons. subst r.
  destruct (add_to_mapping_new_index _ _ _ _
              ltac:(unfold index_of; by rewrite Hpid, Hnone)
              ltac:(unfold exists_in_mapping; by rewrite Hpid, Hnone) Hadd)
    as [Hidx Hsize].
  assert (size m1 = S (size mapping)) as Hsize1.
  { rewrite Hsize, Hpid. unfold initialise_mapping_entry. rewrite Hnone.
    by apply map_size_insert_None. }
  rewrite Hpid, Hsize1 in Hidx.
  assert (dom mapping1 = dom m1) as Hdom.
  { rewrite Hcons. apply (resolve_all_same_patient _ _ patient_id); [done|].
    unfold index_of in Hidx. by destruct (m1 !! patient_id). }
  split; [|split; [|split]].
  - rewrite Hcons. by apply resolve_all_index.
  - by rewrite <-size_dom, Hdom, size_dom.
  - rewrite Hdom, <-Hpid.
    replace m1 with (add_to_mapping patient_info mapping).1 by by rewrite Hadd.
    apply dom_add_to_mapping.
  - intros other patient_index Hother. rewrite Hcons.
    apply resolve_all_index.
    replace m1 with (add_to_mapping patient_info mapping).1 by by rewrite Hadd.
    by apply add_to_mapping_index.
Qed.
End NewIndex.

(** C1, as the code has it. The index [add_to_mapping] gives to a patient
    that has none, when it appends the encounter, is the number of entries
    of the ledger at that time, the entry of the patient itself among them.
    From the empty ledger the records of a first patient and then those of
    a second one, in any order within a patient, give index 1 to the first
    patient and index 2 to the second. *)
Theorem index_is_entry_count (mapping : ledger) :
  (reachable mapping →
   ∀ patient_info mapping1 new_patient_name,
     index_of mapping (Info.PatientID patient_info) = None →
     add_to_mapping patient_info mapping = (mapping1, Return new_patient_name) →
     get_patient_index patient_info
       (initialise_mapping_entry (Info.PatientID patient_info) mapping)
     = Return (Z.of_nat (size (initialise_mapping_entry (Info.PatientID patient_info) mapping)))
     ∧ index_of mapping1 (Info.PatientID patient_info)
       = Some (Z.of_nat (size (initialise_mapping_entry (Info.PatientID patient_info) mapping)))
     ∧ size mapping1 = size (initialise_mapping_entry (Info.PatientID patient_info) mapping))
  ∧ (∀ first second records1 records2 names,
       first ≠ second →
       records1 ≠ [] →
       records2 ≠ [] →
       Forall (λ patient_info, Info.PatientID patient_info = first) records1 →
       Forall (λ patient_info, Info.PatientID patient_info = second) records2 →
       resolve_all (records1 ++ records2) ∅ = (mapping, Return names) →
       index_of mapping first = Some 1 ∧ index_of mapping second = Some 2).
Proof.
  split.
  - intros Hr patient_info mapping1 p Hnone Hadd.
    pose proof (reachable_unindexed _ _ (reachable_ok _ Hr) Hnone) as Hex.
    destruct (add_to_mapping_new_index _ _ _ _ Hnone Hex Hadd) as [Hidx Hsize].
    rewrite get_patient_index_initialise. unfold candidate_index.
    rewrite index_of_None_entry_of by done. simpl.
    split; [done|]. split; [|done]. by rewrite <-Hsize.
  - intros first second records1 records2 names Hne Hne1 Hne2 Hall1 Hall2 Hrun.
    apply resolve_all_app in Hrun as (mapping1 & names1 & names2 & Hrun1 & Hrun2).
    destruct records1 as [|r1 records1]; [done|].
    destruct records2 as [|r2 records2]; [done|].
    destruct (resolve_all_new_patient _ _ _ _ _ first Hall1 (lookup_empty _) Hrun1)
      as (Hidx1 & Hsize1 & Hdom1 & _).
    rewrite map_size_empty in Hidx1, Hsize1.
    assert (mapping1 !! second = None) as Hnone2.
    { apply (not_elem_of_dom (D := gset string)).
      rewrite Hdom1, dom_empty_L, elem_of_union, elem_of_singleton, elem_of_empty.
      intros [?|[]]. by apply Hne. }
    destruct (resolve_all_new_patient _ _ _ _ _ second Hall2 Hnone2 Hrun2)
      as (Hidx2 & _ & _ & Hkeep).
    rewrite Hsize1 in Hidx2.
    split; [by apply Hkeep|done].
Qed.

Lemma index_is_entry_count_witness :
  let mapping := (resolve_all [smith_a2; smith_a1; doe_a7] ∅).1 in
  index_of mapping "P1" = Some 1 ∧ index_of mapping "P2" = Some 2.
Proof.
  apply (proj2 (index_is_entry_count (resolve_all [smith_a2; smith_a1; doe_a7] ∅).1)
           "P1" "P2" [smith_a2; smith_a1] [doe_a7]
           ["JS1_20200102"; "JS1_20200101"; "JD2_20200301"]);
    first [done | by repeat constructor].
Defined.

(** C1 as stated fails: the first patient of a run that starts from the
    empty ledger does not get index 0. *)
Lemma first_patient_index_counterexample :
  ¬ (∀ (patient_info : Info.t) (mapping1 : ledger) (new_patient_name : string),
       add_to_mapping patient_info ∅ = (mapping1, Return new_patient_name) →
       index_of mapping1 (Info.PatientID patient_info) = Some 0).
Proof.
  intros Hclaim.
  specialize (Hclaim smith_a1 (add_to_mapping smith_a1 ∅).1 "JS1_20200101" eq_refl).
  vm_compute in Hclaim. discriminate.
Qed.

(** ** RetryableOps: the claims *)

(** C7, as the code has it. [retry_function times function] executes
    [function] at most [times] times in all. It gives the outcome of the
    first execution that returns, after executions that all raised an
    [Exception]; an exception that is not an [Exception] is not caught and
    ends the retries at once; when all [times] executions raise an
    [Exception], the last of them is raised. With [times] at most 0 the
    function is not executed and the exception the wrapper starts with is
    raised. *)
Theorem retry_function_spec {W A : Type} (times : Z) (function : Py W A) (w : W) :
  (times ≤ 0 →
     retry_function times function w = (w, Raise (Exception "Retry Exception Failed.")))
  ∧ (∀ k a,
       (k < Z.to_nat times)%nat →
       (∀ j, (j < k)%nat →
          ∃ e, (attempt function w j).2 = Raise e ∧ is_Exception e = true) →
       (attempt function w k).2 = Return a →
       retry_function times function w = attempt function w k)
  ∧ (∀ k e,
       (k < Z.to_nat times)%nat →
       (∀ j, (j < k)%nat →
          ∃ e', (attempt function w j).2 = Raise e' ∧ is_Exception e' = true) →
       (attempt function w k).2 = Raise e →
       is_Exception e = false →
       retry_function times function w = attempt function w k)
  ∧ (0 < times →
       (∀ j, (j < Z.to_nat times)%nat →
          ∃ e, (attempt function w j).2 = Raise e ∧ is_Exception e = true) →
       retry_function times function w = attempt function w (Z.to_nat times - 1)).
Proof.
  unfold retry_function. repeat split.
  - intros Hle. by replace (Z.to_nat times) with 0%nat by lia.
  - intros k a Hk Hbefore Hat. apply try_function_first; [done|done|].
    intros e' He'. congruence.
  - intros k e Hk Hbefore Hat Hbase. apply try_function_first; [done|done|].
    intros e' He'. congruence.
  - intros Hpos Hall. apply try_function_exhausted; [lia|done].
Qed.

Lemma retry_function_spec_witness :
  retry_function 0 third_time_lucky 0%nat
  = (0%nat, Raise (Exception "Retry Exception Failed."))
  ∧ retry_function 50 third_time_lucky 0%nat = (3%nat, Return "done")
  ∧ retry_function 2 third_time_lucky 0%nat = (2%nat, Raise (OSError "busy")).
Proof.
  split; [|split].
  - apply (proj1 (retry_function_spec 0 third_time_lucky 0%nat)). lia.
  - apply (proj1 (proj2 (retry_function_spec 50 third_time_lucky 0%nat)) 2%nat "done").
    + vm_compute. lia.
    + intros j Hj. exists (OSError "busy").
      destruct j as [|[|j]]; [by split|by split|lia].
    + reflexivity.
  - apply (proj2 (proj2 (proj2 (retry_function_spec 2 third_time_lucky 0%nat)))).
    + lia.
    + intros j Hj. exists (OSError "busy").
      destruct j as [|[|j]]; [by split|by split|vm_compute in Hj; lia].
Defined.

(** C7 as stated fails for the bound 0: the operation is not executed
    even once, and what is raised is not the failure of any attempt. *)
Lemma retry_zero_times_counterexample :
  ¬ (∀ (times : Z) (function : Py nat string) (w : nat),
       match (retry_function times function w).2 with
       | Return a => ∃ k, (attempt function w k).2 = Return a
       | Raise e => ∃ k, (attempt function w k).2 = Raise e
       end).
Proof.
  intros Hclaim.
  destruct (Hclaim 0 (λ w, (S w, Return "done")) 0%nat) as [k Hk].
  revert Hk. generalize 0%nat. induction k as [|k IH]; intros w; [done|].
  simpl. apply IH.
Qed.

(** C6. [listdir] always returns, after 20 to 200 calls of [os.listdir],
    a listing that is at least as long as every listing one of these calls
    returned, and that is one of them when any call returned. The listings
    of 3, 3, 7 and 3 entries give the one of 7. *)
Theorem listdir_returns_largest :
  (∀ (fs : filesystem) (directory : string) (w : nat),
     ∃ w' selected_list,
       listdir fs directory w = (w', Return selected_list)
       ∧ (w + 20 ≤ w' ≤ w + 200)%nat
       ∧ (∀ k l, (w ≤ k < w')%nat → fs directory k = Return l →
            (length l ≤ length selected_list)%nat)
       ∧ ((∃ k l, (w ≤ k < w')%nat ∧ fs directory k = Return l) →
            ∃ k, (w ≤ k < w')%nat ∧ fs directory k = Return selected_list))
  ∧ (listdir truncating_fs "patients" 0%nat).2 = Return (listing 7).
Proof.
  split; [|by vm_compute].
  intros fs directory w.
  destruct (listdir_loop_spec fs directory repeat_times w w (-1) [])
    as (w' & selected & Hrun & Hw' & Hmax & Hsrc & _).
  - lia.
  - intros k l Hk. lia.
  - by left.
  - exists w', selected. unfold repeat_times in Hw'.
    repeat split; [done|lia|lia|done|done].
Qed.

Lemma listdir_returns_largest_witness :
  ∃ w' selected_list,
    listdir truncating_fs "patients" 0%nat = (w', Return selected_list)
    ∧ (7 ≤ length selected_list)%nat.
Proof.
  destruct (proj1 listdir_returns_largest truncating_fs "patients" 0%nat)
    as (w' & selected_list & Hrun & Hw' & Hmax & _).
  exists w', selected_list. split; [exact Hrun|].
  apply (Hmax 2%nat (listing 7)); [lia|reflexivity].
Defined.

(** C10. [listdir] never raises: whatever the calls of [os.listdir] do,
    an exception that is not an [Exception] too, it returns a list, and
    the empty list when every call failed. *)
Theorem listdir_never_raises (fs : filesystem) (directory : string) (w : nat) :
  ∃ w' selected_list,
    listdir fs directory w = (w', Return selected_list)
    ∧ ((∀ k, (w ≤ k < w')%nat → ∃ e, fs directory k = Raise e) → selected_list = []).
Proof.
  destruct (listdir_loop_spec fs directory repeat_times w w (-1) [])
    as (w' & selected & Hrun & _ & _ & _ & Hnone).
  - lia.
  - intros k l Hk. lia.
  - by left.
  - by exists w', selected.
Qed.

Lemma listdir_never_raises_witness :
  ∃ w', listdir interrupted_fs "patients" 0%nat = (w', Return []).
Proof.
  destruct (listdir_never_raises interrupted_fs "patients" 0%nat)
    as (w' & selected_list & Hrun & Hnone).
  exists w'. rewrite Hrun. f_equal. f_equal. apply Hnone.
  intros k _. by exists KeyboardInterrupt.
Defined.

(** ** TagScrubber: properties *)

Section Scrub.
Implicit Types (dataset : Dataset) (t : tag) (field : string).

Lemma elem_of_keys t dataset : t ∈ keys dataset ↔ is_Some (dataset !! t).
Proof.
  unfold keys. rewrite list_elem_of_fmap. split.
  - intros ([t' e] & -> & Hin). apply elem_of_map_to_list in Hin. by exists e.
  - intros [e He]. exists (t, e). split; [done|]. by apply elem_of_map_to_list.
Qed.

Lemma add_new_upsert field v dataset :
  add_new field v dataset = (upsert field v dataset, Return tt).
Proof. done. Qed.

(** An assignment that falls back on a new element. *)
Lemma set_value_or_new field v dataset :
  try_except (set_value field v) (λ _, add_new field v) dataset
  = (upsert field v dataset, Return tt).
Proof.
  unfold try_except, set_value.
  by destruct (dataset !! Keyword field) as [[]|].
Qed.

(** An assignment to an element that reads as text. *)
Lemma set_value_text field v (handler : exn → Py Dataset unit) dataset old :
  dataset !! Keyword field = Some (Text old) →
  try_except (set_value field v) handler dataset = (upsert field v dataset, Return tt).
Proof. intros E. unfold try_except, set_value. by rewrite E. Qed.

Lemma setattr_absent field v dataset :
  dataset !! Keyword field = None →
  setattr field v dataset = (upsert field v dataset, Return tt).
Proof.
  intros E. unfold setattr, bind, gets.
  rewrite bool_decide_eq_false_2; [done|]. rewrite E. by intros [].
Qed.

Lemma setattr_present field v dataset :
  is_Some (dataset !! Keyword field) →
  setattr field v dataset = set_value field v dataset.
Proof.
  intros E. unfold setattr, bind, gets. by rewrite bool_decide_eq_true_2.
Qed.

Lemma lookup_upsert field v dataset :
  upsert field v dataset !! Keyword field = Some (Text v).
Proof. unfold upsert. by rewrite lookup_insert_eq. Qed.

Lemma lookup_upsert_ne field v dataset t :
  t ≠ Keyword field → upsert field v dataset !! t = dataset !! t.
Proof. intros Hne. unfold upsert. by rewrite lookup_insert_ne. Qed.

(** The loop over [replace_tags]. *)
Lemma replace_loop (l : list (string * string)) dataset :
  foreach l (λ fv, try_except (set_value fv.1 fv.2) (λ _, add_new fv.1 fv.2)) dataset
  = (foldl (λ d fv, upsert fv.1 fv.2 d) dataset l, Return tt).
Proof.
  revert dataset. induction l as [|[field v] l IH]; intros dataset; [done|].
  cbn [foreach foldl]. unfold bind.
  rewrite (set_value_or_new field v). apply IH.
Qed.

Lemma replace_loop_other (l : list (string * string)) dataset t :
  (∀ field, field ∈ l.*1 → t ≠ Keyword field) →
  foldl (λ d fv, upsert fv.1 fv.2 d) dataset l !! t = dataset !! t.
Proof.
  revert dataset. induction l as [|[field v] l IH]; intros dataset Hnot; [done|].
  cbn [foldl]. rewrite IH.
  - apply lookup_upsert_ne, Hnot. cbn. apply elem_of_cons. by left.
  - intros f Hf. apply Hnot. cbn. apply elem_of_cons. by right.
Qed.

Lemma replace_loop_value (l : list (string * string)) dataset field v :
  NoDup l.*1 → (field, v) ∈ l →
  foldl (λ d fv, upsert fv.1 fv.2 d) dataset l !! Keyword field = Some (Text v).
Proof.
  revert dataset. induction l as [|[f w] l IH]; intros dataset Hnd Hin.
  - by apply not_elem_of_nil in Hin.
  - cbn in Hnd. apply NoDup_cons in Hnd as [Hf Hnd].
    cbn [foldl]. apply elem_of_cons in Hin as [[= <- <-]|Hin].
    + rewrite replace_loop_other; [apply lookup_upsert|].
      intros f' Hf' [= ->]. done.
    + by apply IH.
Qed.

(** The loop over [delete_tags]. *)
Lemma delete_loop (l : list string) dataset :
  foreach l (λ field,
    present <- gets (λ dataset : Dataset, bool_decide (is_Some (dataset !! Keyword field))) ;;
    if (present : bool) then delattr field else ret tt) dataset
  = (foldl (λ d field, delete (Keyword field) d) dataset l, Return tt).
Proof.
  revert dataset. induction l as [|field l IH]; intros dataset; [done|].
  cbn [foreach foldl]. unfold bind at 1. unfold bind at 1. unfold gets.
  case_bool_decide as Hpresent.
  - unfold delattr, modify. apply IH.
  - unfold ret. rewrite IH. f_equal. f_equal. symmetry. apply delete_id.
    by apply eq_None_not_Some.
Qed.

Lemma delete_loop_lookup (l : list string) dataset t :
  foldl (λ d field, delete (Keyword field) d) dataset l !! t
  = if decide (t ∈ Keyword <$> l) then None else dataset !! t.
Proof.
  revert dataset. induction l as [|field l IH]; intros dataset; [done|].
  cbn [foldl]. rewrite IH. rewrite fmap_cons.
  destruct (decide (t ∈ Keyword <$> l)) as [Hin|Hnotin].
  - rewrite decide_True; [done|]. apply elem_of_cons. by right.
  - destruct (decide (t = Keyword field)) as [->|Hne].
    + rewrite lookup_delete_eq. rewrite decide_True; [done|]. apply elem_of_cons. by left.
    + rewrite lookup_delete_ne by done. rewrite decide_False; [done|].
      intros [?|?]%elem_of_cons; done.
Qed.
End Scrub.

Section PrivateTags.
Implicit Types (dataset : Dataset) (t : tag) (tags : list tag) (elem : DataElement).

(** The walk of a sequence is the walk of its items. *)
Lemma walk_value_Sequence (items : list Dataset) :
  walk_value (Sequence items) = (Sequence (walk_items items).1, (walk_items items).2).
Proof. reflexivity. Qed.

(** The loop of the walk over the elements [m] of a dataset, from a
    dataset [dataset]: the elements that are not in [m] are left, the
    private elements are deleted or left, and the others are left or have
    their items walked. *)
Lemma walk_loop dataset (m : Dataset) :
  let state := map_fold (visit walk_value) (dataset, Return tt) m in
  (∀ t, m !! t = None → state.1 !! t = dataset !! t)
  ∧ (∀ t, is_private t = true → state.1 !! t = dataset !! t ∨ state.1 !! t = None)
  ∧ (∀ t elem, is_private t = false → m !! t = Some elem →
       state.1 !! t = dataset !! t ∨ state.1 !! t = Some (walk_value elem).1).
Proof.
  cbn zeta.
  apply (map_fold_weak_ind
    (λ (state : Dataset * result unit) (m : Dataset),
       (∀ t, m !! t = None → state.1 !! t = dataset !! t)
       ∧ (∀ t, is_private t = true → state.1 !! t = dataset !! t ∨ state.1 !! t = None)
       ∧ (∀ t elem, is_private t = false → m !! t = Some elem →
            state.1 !! t = dataset !! t ∨ state.1 !! t = Some (walk_value elem).1))).
  - split; [done|]. split; by left.
  - intros i x m' [d r] Hi (Hout & Hprivate & Hother). cbn [fst snd] in *.
    assert (∀ t, <[i:=x]> m' !! t = None → t ≠ i ∧ m' !! t = None) as Hnone.
    { intros t Ht. apply lookup_insert_None in Ht as [? ?]. by split. }
    assert ((∀ t, <[i:=x]> m' !! t = None → d !! t = dataset !! t)
       ∧ (∀ t, is_private t = true → d !! t = dataset !! t ∨ d !! t = None)
       ∧ (∀ t elem, is_private t = false → <[i:=x]> m' !! t = Some elem →
            d !! t = dataset !! t ∨ d !! t = Some (walk_value elem).1)) as Hsame.
    { split; [|split].
      - intros t [_ Ht]%Hnone. by apply Hout.
      - done.
      - intros t elem Hp [[-> ->]|[Hne Ht]]%lookup_insert_Some.
        + left. by apply Hout.
        + by apply (Hother t elem). }
    unfold visit. cbn [fst snd].
    destruct r as [[]|e]; [|done].
    assert (let state := if is_private i then (delete i d, Return tt)
                         else (<[i:=(walk_value x).1]> d, (walk_value x).2) in
      (∀ t, <[i:=x]> m' !! t = None → state.1 !! t = dataset !! t)
      ∧ (∀ t, is_private t = true → state.1 !! t = dataset !! t ∨ state.1 !! t = None)
      ∧ (∀ t elem, is_private t = false → <[i:=x]> m' !! t = Some elem →
           state.1 !! t = dataset !! t ∨ state.1 !! t = Some (walk_value elem).1))
      as Hvisit.
    { cbn zeta. destruct (is_private i) eqn:Hpi; cbn [fst snd].
      - split; [|split].
        + intros t [Hne Ht]%Hnone. rewrite lookup_delete_ne by done. by apply Hout.
        + intros t Hp. destruct (decide (t = i)) as [->|Hne].
          * right. apply lookup_delete_eq.
          * rewrite lookup_delete_ne by done. by apply Hprivate.
        + intros t elem Hp [[-> ->]|[Hne Ht]]%lookup_insert_Some; [congruence|].
          rewrite lookup_delete_ne by done. by apply (Hother t elem).
      - split; [|split].
        + intros t [Hne Ht]%Hnone. rewrite lookup_insert_ne by done. by apply Hout.
        + intros t Hp. rewrite lookup_insert_ne by congruence. by apply Hprivate.
        + intros t elem Hp [[-> ->]|[Hne Ht]]%lookup_insert_Some.
          * right. by rewrite lookup_insert_eq.
          * rewrite lookup_insert_ne by done. by apply (Hother t elem). }
    destruct x as [v|items|raw]; [exact Hvisit|exact Hvisit|exact Hsame].
Qed.

(** The loop of the walk that ends without an exception: every private
    element is deleted and every other element has its items walked
    without an exception. *)
Lemma walk_loop_Return dataset (m : Dataset) :
  let state := map_fold (visit walk_value) (dataset, Return tt) m in
  state.2 = Return tt →
  ∀ t elem, m !! t = Some elem →
    if is_private t then state.1 !! t = None
    else state.1 !! t = Some (walk_value elem).1 ∧ (walk_value elem).2 = Return tt.
Proof.
  cbn zeta.
  apply (map_fold_weak_ind
    (λ (state : Dataset * result unit) (m : Dataset),
       state.2 = Return tt →
       ∀ t elem, m !! t = Some elem →
         if is_private t then state.1 !! t = None
         else state.1 !! t = Some (walk_value elem).1
              ∧ (walk_value elem).2 = Return tt)).
  - intros _ t elem H. by rewrite lookup_empty in H.
  - intros i x m' [d r] Hi IH. unfold visit. cbn [fst snd] in *.
    destruct r as [[]|e]; [|done].
    specialize (IH eq_refl).
    assert ((if is_private i then (delete i d, Return tt)
             else (<[i:=(walk_value x).1]> d, (walk_value x).2)).2 = Return tt →
            ∀ t elem, <[i:=x]> m' !! t = Some elem →
              if is_private t
              then (if is_private i then (delete i d, Return tt)
                    else (<[i:=(walk_value x).1]> d, (walk_value x).2)).1 !! t = None
              else (if is_private i then (delete i d, Return tt)
                    else (<[i:=(walk_value x).1]> d, (walk_value x).2)).1 !! t
                   = Some (walk_value elem).1
                   ∧ (walk_value elem).2 = Return tt) as Hvisit.
    { destruct (is_private i) eqn:Hpi; cbn [fst snd].
      - intros _ t elem [[-> ->]|[Hne Ht]]%lookup_insert_Some.
        + rewrite Hpi. apply lookup_delete_eq.
        + specialize (IH t elem Ht). destruct (is_private t).
          * by rewrite lookup_delete_ne.
          * by rewrite lookup_delete_ne.
      - intros Hr t elem [[-> ->]|[Hne Ht]]%lookup_insert_Some.
        + rewrite Hpi. by rewrite lookup_insert_eq.
        + specialize (IH t elem Ht). destruct (is_private t).
          * by rewrite lookup_insert_ne.
          * by rewrite lookup_insert_ne. }
    destruct x as [v|items|raw]; [exact Hvisit|exact Hvisit|done].
Qed.

(** The loop of the walk over elements whose walk does not raise. *)
Lemma walk_loop_returns dataset (m : Dataset) :
  (∀ t elem, m !! t = Some elem →
     (∀ raw, elem ≠ Malformed raw)
     ∧ (is_private t = false → (walk_value elem).2 = Return tt)) →
  (map_fold (visit walk_value) (dataset, Return tt) m).2 = Return tt.
Proof.
  apply (map_fold_weak_ind
    (λ (state : Dataset * result unit) (m : Dataset),
       (∀ t elem, m !! t = Some elem →
          (∀ raw, elem ≠ Malformed raw)
          ∧ (is_private t = false → (walk_value elem).2 = Return tt)) →
       state.2 = Return tt)).
  - done.
  - intros i x m' [d r] Hi IH Hall. unfold visit. cbn [fst snd] in *.
    rewrite IH.
    + destruct (Hall i x) as [Hsound Hwalk]; [by rewrite lookup_insert_eq|].
      destruct x as [v|items|raw]; [| |by destruct (Hsound raw)];
        (destruct (is_private i); [done|by apply Hwalk]).
    + intros t elem Ht. apply Hall. rewrite lookup_insert_ne; [done|].
      intros ->. congruence.
Qed.

(** The deletion of one private element in the loop over the tags. *)
Lemma delitem_or_skip t dataset :
  try_except (delitem t) (λ _, ret tt) dataset = (delete t dataset, Return tt).
Proof.
  unfold try_except, delitem.
  destruct (dataset !! t) as [elem|] eqn:Ht; [done|].
  unfold ret. by rewrite delete_id.
Qed.

(** The deletions one by one: every private element of the tags is
    deleted. *)
Lemma individual_loop tags dataset :
  foreach tags (λ t,
    if is_private t then try_except (delitem t) (λ _, ret tt) else ret tt) dataset
  = (foldl (λ d t, if is_private t then delete t d else d) dataset tags, Return tt).
Proof.
  revert dataset. induction tags as [|t0 tags IH]; intros dataset; [done|].
  cbn [foreach foldl]. unfold bind.
  destruct (is_private t0); [rewrite delitem_or_skip|unfold ret at 1]; apply IH.
Qed.

Lemma individual_lookup tags dataset t :
  foldl (λ d t, if is_private t then delete t d else d) dataset tags !! t
  = if decide (t ∈ tags ∧ is_private t = true) then None else dataset !! t.
Proof.
  revert dataset. induction tags as [|t0 tags IH]; intros dataset.
  - cbn [foldl]. rewrite decide_False; [done|]. by intros [?%not_elem_of_nil _].
  - cbn [foldl]. rewrite IH.
    destruct (decide (t ∈ tags ∧ is_private t = true)) as [[Hin Hp]|Hnot].
    + rewrite decide_True; [done|]. split; [|done]. apply elem_of_cons. by right.
    + destruct (decide (t = t0)) as [->|Hne].
      * destruct (is_private t0) eqn:Hp.
        -- rewrite lookup_delete_eq, decide_True; [done|].
           split; [|done]. apply elem_of_cons. by left.
        -- rewrite decide_False; [done|]. by intros [_ ?].
      * rewrite decide_False.
        -- destruct (is_private t0); [|done]. by rewrite lookup_delete_ne.
        -- intros [[?|?]%elem_of_cons ?]; [done|]. by apply Hnot.
Qed.
End PrivateTags.

(** ** The walk inside the items *)

Section Items.
Implicit Types (dataset item : Dataset) (items : list Dataset) (t : tag)
  (elem : DataElement).

Lemma map_fold_size_lookup item t elem :
  item !! t = Some elem →
  (element_size elem ≤ map_fold (λ _ e n, element_size e + n) 0 item)%nat.
Proof.
  revert t elem.
  apply (map_fold_weak_ind
    (λ (n : nat) (m : Dataset), ∀ t elem, m !! t = Some elem → (element_size elem ≤ n)%nat)).
  - intros t elem H. by rewrite lookup_empty in H.
  - intros i x m n Hi IH t elem [[-> ->]|[Hne Ht]]%lookup_insert_Some; [lia|].
    specialize (IH t elem Ht). lia.
Qed.

Lemma element_size_item items item t elem :
  item ∈ items → item !! t = Some elem →
  (element_size elem < element_size (Sequence items))%nat.
Proof.
  intros Hin Ht. apply map_fold_size_lookup in Ht. cbn [element_size].
  induction items as [|item0 rest IH]; [by apply not_elem_of_nil in Hin|].
  cbn [fmap list_fmap]. unfold list_sum in *. cbn [fold_right].
  apply elem_of_cons in Hin as [<-|Hin].
  - lia.
  - specialize (IH Hin). lia.
Qed.

(** Induction on an element and the elements of its items. *)
Lemma DataElement_items_ind (P : DataElement → Prop) :
  (∀ v, P (Text v)) →
  (∀ raw, P (Malformed raw)) →
  (∀ items, (∀ item t elem, item ∈ items → item !! t = Some elem → P elem) →
            P (Sequence items)) →
  ∀ elem, P elem.
Proof.
  intros Htext Hmalformed Hsequence elem.
  remember (element_size elem) as n eqn:Hn. revert elem Hn.
  induction (lt_wf n) as [n _ IH]. intros [v|items|raw] ->; [done| |done].
  apply Hsequence. intros item t elem Hin Ht.
  by apply (IH (element_size elem) (element_size_item items item t elem Hin Ht)).
Qed.

Lemma has_private_tag_false dataset :
  has_private_tag dataset = false
  ↔ ∀ t elem, dataset !! t = Some elem → is_private t = false ∧ private_in elem = false.
Proof.
  unfold has_private_tag.
  apply (map_fold_weak_ind
    (λ (found : bool) (m : Dataset),
       found = false
       ↔ ∀ t elem, m !! t = Some elem → is_private t = false ∧ private_in elem = false)).
  - split; [|done]. intros _ t elem H. by rewrite lookup_empty in H.
  - intros i x m found Hi IH. split.
    + intros [[Hfound Hprivate]%orb_false_elim Hin]%orb_false_elim t elem
        [[-> ->]|[Hne Ht]]%lookup_insert_Some; [done|].
      by apply IH.
    + intros Hall. destruct (Hall i x) as [-> ->]; [by rewrite lookup_insert_eq|].
      rewrite !orb_false_r. apply IH. intros t elem Ht. apply Hall.
      rewrite lookup_insert_ne; [done|]. intros ->. congruence.
Qed.

Lemma has_malformed_false dataset :
  has_malformed dataset = false
  ↔ ∀ t elem, dataset !! t = Some elem → malformed_in elem = false.
Proof.
  unfold has_malformed.
  apply (map_fold_weak_ind
    (λ (found : bool) (m : Dataset),
       found = false ↔ ∀ t elem, m !! t = Some elem → malformed_in elem = false)).
  - split; [|done]. intros _ t elem H. by rewrite lookup_empty in H.
  - intros i x m found Hi IH. split.
    + intros [Hfound Hin]%orb_false_elim t elem [[-> ->]|[Hne Ht]]%lookup_insert_Some;
        [done|].
      by apply (proj1 IH Hfound t).
    + intros Hall. rewrite (Hall i x) by (by rewrite lookup_insert_eq).
      rewrite orb_false_r. apply IH. intros t elem Ht. apply (Hall t).
      rewrite lookup_insert_ne; [done|]. intros ->. congruence.
Qed.

Lemma private_in_Sequence items :
  private_in (Sequence items) = existsb has_private_tag items.
Proof. reflexivity. Qed.

Lemma malformed_in_Sequence items :
  malformed_in (Sequence items) = existsb has_malformed items.
Proof. reflexivity. Qed.

(** A walk of a dataset that returns leaves no private element, when this
    is so for the items of its elements. *)
Lemma walk_no_private dataset :
  (∀ t elem, dataset !! t = Some elem →
     (walk_value elem).2 = Return tt → private_in (walk_value elem).1 = false) →
  (walk dataset).2 = Return tt → has_private_tag (walk dataset).1 = false.
Proof.
  intros Hitems Hreturn. apply has_private_tag_false. intros t elem' Ht.
  pose proof (walk_loop_Return dataset dataset Hreturn) as Hloop.
  destruct (walk_loop dataset dataset) as (Hout & _). fold (walk dataset) in *.
  destruct (dataset !! t) as [elem|] eqn:Hbefore.
  - specialize (Hloop t elem Hbefore). destruct (is_private t).
    + congruence.
    + destruct Hloop as [Hafter Hwalk]. split; [done|].
      rewrite Ht in Hafter. injection Hafter as ->. by apply (Hitems t).
  - rewrite Hout in Ht by done. congruence.
Qed.

Lemma walk_items_no_private items :
  (∀ item, item ∈ items →
     (walk item).2 = Return tt → has_private_tag (walk item).1 = false) →
  (walk_items items).2 = Return tt →
  existsb has_private_tag (walk_items items).1 = false.
Proof.
  induction items as [|item rest IH]; intros Hitems; [done|].
  cbn [walk_items].
  pose proof (Hitems item ltac:(by apply elem_of_cons; left)) as Hitem.
  destruct (walk item) as [item' [[]|e]]; [|done].
  specialize (Hitem eq_refl). cbn [fst] in Hitem.
  cbn [fst snd existsb]. intros Hrest. rewrite Hitem.
  apply IH; [|done]. intros item0 Hin. apply Hitems, elem_of_cons. by right.
Qed.

Lemma walk_value_no_private elem :
  (walk_value elem).2 = Return tt → private_in (walk_value elem).1 = false.
Proof.
  induction elem as [v|raw|items IH] using DataElement_items_ind; [done|done|].
  rewrite walk_value_Sequence. cbn [fst snd]. rewrite private_in_Sequence.
  apply walk_items_no_private. intros item Hin.
  apply walk_no_private. intros t elem Ht. by apply (IH item t).
Qed.

(** A walk that returns has removed the private elements at every depth. *)
Lemma walk_complete dataset :
  (walk dataset).2 = Return tt → has_private_tag (walk dataset).1 = false.
Proof. apply walk_no_private. intros t elem _. apply walk_value_no_private. Qed.

Lemma walk_items_returns items :
  (∀ item, item ∈ items → (walk item).2 = Return tt) →
  (walk_items items).2 = Return tt.
Proof.
  induction items as [|item rest IH]; intros Hitems; [done|].
  cbn [walk_items].
  pose proof (Hitems item ltac:(by apply elem_of_cons; left)) as Hitem.
  destruct (walk item) as [item' [[]|e]]; [|done].
  cbn [snd]. apply IH. intros item0 Hin. apply Hitems, elem_of_cons. by right.
Qed.

Lemma malformed_in_item items item t elem :
  malformed_in (Sequence items) = false → item ∈ items → item !! t = Some elem →
  malformed_in elem = false.
Proof.
  rewrite malformed_in_Sequence. intros Hnone Hin Ht.
  assert (has_malformed item = false) as Hitem.
  { apply not_true_is_false. intros Hyes.
    assert (existsb has_malformed items = true); [|congruence].
    apply existsb_exists. exists item. split; [|done]. by apply list_elem_of_In. }
  by apply (proj1 (has_malformed_false item) Hitem t).
Qed.

Lemma walk_value_returns elem :
  malformed_in elem = false → (walk_value elem).2 = Return tt.
Proof.
  induction elem as [v|raw|items IH] using DataElement_items_ind; [done|done|].
  intros Hsound. rewrite walk_value_Sequence. cbn [snd].
  apply walk_items_returns. intros item Hin.
  apply walk_loop_returns. intros t elem Ht.
  pose proof (malformed_in_item items item t elem Hsound Hin Ht) as Helem.
  split.
  - intros raw ->. done.
  - intros _. by apply (IH item t).
Qed.

(** The walk of a dataset without an element that is incorrectly
    populated returns. *)
Lemma walk_returns dataset :
  has_malformed dataset = false → (walk dataset).2 = Return tt.
Proof.
  intros Hsound. apply walk_loop_returns. intros t elem Ht.
  pose proof (proj1 (has_malformed_false dataset) Hsound t elem Ht) as Helem.
  split.
  - intros raw ->. done.
  - intros _. by apply walk_value_returns.
Qed.

Lemma pruned_dataset_refl dataset : pruned_dataset dataset dataset.
Proof.
  intros t. right. destruct (dataset !! t); constructor. apply pruned_same.
Qed.

(** What a walk leaves of a dataset, whether it returns or raises, when
    the walk of the items of its elements prunes them. *)
Lemma walk_pruned_items dataset :
  (∀ t elem, dataset !! t = Some elem → pruned elem (walk_value elem).1) →
  pruned_dataset dataset (walk dataset).1.
Proof.
  intros Hitems t.
  destruct (walk_loop dataset dataset) as (Hout & Hprivate & Hother).
  fold (walk dataset) in *.
  destruct (dataset !! t) as [elem|] eqn:Hbefore.
  - destruct (is_private t) eqn:Hp.
    + destruct (Hprivate t Hp) as [->| ->]; [|by left].
      right. rewrite Hbefore. constructor. apply pruned_same.
    + right. destruct (Hother t elem Hp Hbefore) as [->| ->].
      * rewrite Hbefore. constructor. apply pruned_same.
      * constructor. by apply (Hitems t).
  - right. rewrite Hout, Hbefore by done. constructor.
Qed.

Lemma walk_items_pruned items :
  (∀ item, item ∈ items → pruned_dataset item (walk item).1) →
  Forall2 pruned_dataset items (walk_items items).1.
Proof.
  induction items as [|item rest IH]; intros Hitems; [constructor|].
  cbn [walk_items].
  pose proof (Hitems item ltac:(by apply elem_of_cons; left)) as Hitem.
  destruct (walk item) as [item' [[]|e]]; cbn [fst] in *.
  - constructor; [done|]. apply IH. intros item0 Hin.
    apply Hitems, elem_of_cons. by right.
  - constructor; [done|]. apply Forall2_same_length_lookup_2; [done|].
    intros i x y Hx Hy. assert (x = y) as -> by congruence.
    apply pruned_dataset_refl.
Qed.

Lemma walk_value_pruned elem : pruned elem (walk_value elem).1.
Proof.
  induction elem as [v|raw|items IH] using DataElement_items_ind;
    [apply pruned_same..|].
  rewrite walk_value_Sequence. cbn [fst]. apply pruned_Sequence.
  apply walk_items_pruned. intros item Hin.
  apply walk_pruned_items. intros t elem Ht. by apply (IH item t).
Qed.

(** A walk only removes private elements, whether it returns or raises. *)
Lemma walk_pruned dataset : pruned_dataset dataset (walk dataset).1.
Proof. apply walk_pruned_items. intros t elem _. apply walk_value_pruned. Qed.
End Items.

Section Removal.
Implicit Types (dataset : Dataset) (t : tag).

(** The removal of the private tags, with its fallback: it does not
    raise, no private element is left in the dataset itself, and the other
    elements are as they were but for private elements removed inside
    their items. When the walk returns, the dataset is the one it leaves. *)
Lemma remove_private_tags_lookup dataset :
  ∃ dataset1,
    try_except remove_private_tags
      (λ _, tags <- gets keys ;;
            foreach tags (λ t,
              if is_private t then try_except (delitem t) (λ _, ret tt) else ret tt))
      dataset
    = (dataset1, Return tt)
    ∧ (∀ t, is_private t = true → dataset1 !! t = None)
    ∧ (∀ t, is_private t = false →
         option_Forall2 pruned (dataset !! t) (dataset1 !! t))
    ∧ ((walk dataset).2 = Return tt → dataset1 = (walk dataset).1).
Proof.
  pose proof (walk_pruned dataset) as Hpruned.
  pose proof (walk_loop_Return dataset dataset) as Hdone.
  destruct (walk_loop dataset dataset) as (Hout & _).
  fold (walk dataset) in *.
  unfold try_except, remove_private_tags.
  destruct (walk dataset) as [d [[]|e]]; cbn [fst snd] in *.
  - exists d. split; [done|]. split; [|split; [|done]].
    + intros t Hp. destruct (dataset !! t) as [elem|] eqn:Ht.
      * specialize (Hdone eq_refl t elem Ht). by rewrite Hp in Hdone.
      * by rewrite Hout.
    + intros t Hp. destruct (Hpruned t) as [[? _]|?]; [congruence|done].
  - unfold bind, gets. rewrite individual_loop. eexists.
    split; [done|]. split; [|split; [|done]].
    + intros t Hp. rewrite individual_lookup.
      destruct (decide (t ∈ keys d ∧ is_private t = true)) as [_|Hnot]; [done|].
      apply eq_None_not_Some. intros Hsome. apply Hnot. split; [|done].
      by apply elem_of_keys.
    + intros t Hp. rewrite individual_lookup, decide_False.
      * destruct (Hpruned t) as [[? _]|?]; [congruence|done].
      * intros [_ ?]. congruence.
Qed.
End Removal.

Section KeyInfo.
Implicit Types (dataset : Dataset) (t : tag).

Lemma get_value_with_patient_name field dataset :
  field ≠ patient_name_key →
  get_value field (with_patient_name dataset) = get_value field dataset.
Proof.
  intros Hne. unfold get_value, with_patient_name.
  destruct (dataset !! Keyword patient_name_key); [done|].
  rewrite lookup_insert_ne; [done|]. congruence.
Qed.

Lemma with_patient_name_lookup dataset t :
  t ≠ Keyword patient_name_key → with_patient_name dataset !! t = dataset !! t.
Proof.
  intros Hne. unfold with_patient_name.
  destruct (dataset !! Keyword patient_name_key); [done|].
  by rewrite lookup_insert_ne.
Qed.

(** The patient name read, and the dataset this leaves: the name of the
    dataset, or [Z^Z] for a dataset without a name, which gets it. A name
    that does not read as text is not replaced: the assignment raises. *)
Lemma read_patient_name dataset :
  try_except (read (get_value patient_name_key))
    (λ _, setattr patient_name_key "Z^Z" ;;; read (get_value patient_name_key)) dataset
  = match dataset !! Keyword patient_name_key with
    | Some (Text patient_name) => (dataset, Return patient_name)
    | Some (Sequence _) => (dataset, Raise (Exception "the value is no sequence"))
    | Some (Malformed _) => (dataset, Raise (Exception "incorrectly populated tag"))
    | None => (with_patient_name dataset, Return "Z^Z")
    end.
Proof.
  unfold try_except, read, get_value at 1, with_patient_name.
  destruct (dataset !! Keyword patient_name_key) as [[name|items|raw]|] eqn:E; [done| | |].
  - unfold bind. rewrite setattr_present by (by rewrite E).
    unfold set_value. by rewrite E.
  - unfold bind. rewrite setattr_present by (by rewrite E).
    unfold set_value. by rewrite E.
  - unfold bind. rewrite setattr_absent by done.
    unfold get_value. by rewrite lookup_upsert.
Qed.

(** [extract_key_info], case by case. *)
Lemma extract_key_info_eq base_folder dataset :
  extract_key_info base_folder dataset =
  match get_value patient_id_key dataset with
  | Raise e => (dataset, Raise e)
  | Return patient_id =>
      match dataset !! Keyword patient_name_key with
      | Some (Sequence _) => (dataset, Raise (Exception "the value is no sequence"))
      | Some (Malformed _) => (dataset, Raise (Exception "incorrectly populated tag"))
      | name =>
          match get_value accession_key dataset with
          | Raise e => (with_patient_name dataset, Raise e)
          | Return accession_number =>
              match get_value study_date_key dataset with
              | Raise e => (with_patient_name dataset, Raise e)
              | Return study_date =>
                  (with_patient_name dataset,
                   Return (Info.mk patient_id (default "Z^Z" (name ≫= text_of))
                             accession_number study_date base_folder))
              end
          end
      end
  end.
Proof.
  unfold extract_key_info. unfold bind at 1. unfold read at 1.
  destruct (get_value patient_id_key dataset) as [patient_id|e]; [|done].
  unfold bind at 1. rewrite read_patient_name.
  pose proof (get_value_with_patient_name accession_key dataset) as Haccession.
  pose proof (get_value_with_patient_name study_date_key dataset) as Hdate.
  unfold with_patient_name in *.
  destruct (dataset !! Keyword patient_name_key) as [[name|items|raw]|] eqn:E.
  - unfold bind, read, ret.
    destruct (get_value accession_key dataset); [|done].
    by destruct (get_value study_date_key dataset).
  - done.
  - done.
  - unfold bind, read, ret. rewrite Haccession, Hdate by done.
    destruct (get_value accession_key dataset); [|done].
    by destruct (get_value study_date_key dataset).
Qed.

Lemma get_value_Return field dataset v :
  get_value field dataset = Return v ↔ dataset !! Keyword field = Some (Text v).
Proof.
  unfold get_value. destruct (dataset !! Keyword field) as [[]|]; split; congruence.
Qed.

(** What a dataset has when [extract_key_info] returns. *)
Lemma extract_key_info_Return base_folder dataset dataset0 patient_info :
  extract_key_info base_folder dataset = (dataset0, Return patient_info) →
  dataset0 = with_patient_name dataset
  ∧ dataset !! Keyword patient_id_key = Some (Text (Info.PatientID patient_info))
  ∧ dataset !! Keyword accession_key = Some (Text (Info.AccessionNumber patient_info))
  ∧ dataset !! Keyword study_date_key = Some (Text (Info.StudyDate patient_info))
  ∧ dataset0 !! Keyword patient_name_key = Some (Text (Info.PatientName patient_info))
  ∧ Info.PatientName patient_info
    = default "Z^Z" (dataset !! Keyword patient_name_key ≫= text_of)
  ∧ Info.OriginalBaseFolder patient_info = base_folder.
Proof.
  rewrite extract_key_info_eq.
  destruct (get_value patient_id_key dataset) as [id|] eqn:Hid; [|done].
  destruct (get_value accession_key dataset) as [accession|] eqn:Haccession.
  2:{ by destruct (dataset !! Keyword patient_name_key) as [[]|]. }
  destruct (get_value study_date_key dataset) as [date|] eqn:Hdate.
  2:{ by destruct (dataset !! Keyword patient_name_key) as [[]|]. }
  apply get_value_Return in Hid, Haccession, Hdate.
  unfold with_patient_name.
  destruct (dataset !! Keyword patient_name_key) as [[name|items|raw]|] eqn:E;
    [| done | done |].
  - intros [= <- <-]. by rewrite E.
  - intros [= <- <-]. by rewrite lookup_insert_eq.
Qed.

(** The dataset [extract_key_info] leaves, whether it returns or raises. *)
Lemma extract_key_info_dataset base_folder dataset :
  (extract_key_info base_folder dataset).1 = dataset
  ∨ (extract_key_info base_folder dataset).1 = with_patient_name dataset.
Proof.
  rewrite extract_key_info_eq.
  destruct (get_value patient_id_key dataset); [|by left].
  destruct (get_value accession_key dataset);
    [destruct (get_value study_date_key dataset)|];
    destruct (dataset !! Keyword patient_name_key) as [[]|]; by auto.
Qed.
End KeyInfo.

Section AnonymiseDicom.
Implicit Types (dataset : Dataset) (mapping : ledger) (t : tag).

Lemma pruned_text v elem : pruned (Text v) elem → elem = Text v.
Proof. by inversion 1. Qed.

Lemma option_pruned_text v (found : option DataElement) :
  option_Forall2 pruned (Some (Text v)) found → found = Some (Text v).
Proof. inversion 1 as [? ? Hpruned|]. by rewrite (pruned_text _ _ Hpruned). Qed.

Lemma option_pruned_None (found : option DataElement) :
  option_Forall2 pruned None found → found = None.
Proof. by inversion 1. Qed.

(** [anonymise_dicom] raises where the extraction of the key information
    or [add_to_mapping] raises, and nowhere else. *)
Lemma anonymise_dicom_cases base_folder mapping dataset :
  ∃ dataset1,
    anonymise_dicom base_folder (mapping, dataset)
    = match extract_key_info base_folder dataset with
      | (dataset0, Raise e) => ((mapping, dataset0), Raise e)
      | (dataset0, Return patient_info) =>
          match add_to_mapping patient_info mapping with
          | (mapping1, Raise e) => ((mapping1, dataset0), Raise e)
          | (mapping1, Return new_patient_name) =>
              ((mapping1, dataset1), Return new_patient_name)
          end
      end
    ∧ (∀ dataset0 patient_info new_patient_name,
         extract_key_info base_folder dataset = (dataset0, Return patient_info) →
         (add_to_mapping patient_info mapping).2 = Return new_patient_name →
         (∀ t, is_private t = true → dataset1 !! t = None)
         ∧ (∀ t, is_private t = false →
              option_Forall2 pruned (scrubbed new_patient_name dataset0 !! t)
                (dataset1 !! t))
         ∧ ((walk (scrubbed new_patient_name dataset0)).2 = Return tt →
              dataset1 = (walk (scrubbed new_patient_name dataset0)).1)).
Proof.
  unfold anonymise_dicom.
  unfold bind at 1, on_snd at 1. cbn [fst snd].
  destruct (extract_key_info base_folder dataset) as [dataset0 [patient_info|e]]
    eqn:Hextract; [|by exists dataset].
  unfold bind at 1, on_fst at 1. cbn [fst snd].
  destruct (add_to_mapping patient_info mapping) as [m1 [p|e]] eqn:Hadd.
  2:{ exists dataset. split; [done|]. intros ? ? ? [= <- <-]. by rewrite Hadd. }
  apply extract_key_info_Return in Hextract as (_ & _ & _ & _ & Hname & _).
  unfold bind at 1, on_snd at 1. cbn [fst snd].
  rewrite (set_value_text _ _ _ _ _ Hname).
  unfold bind at 1, on_snd at 1. cbn [fst snd].
  rewrite replace_loop.
  unfold bind at 1, on_snd at 1. cbn [fst snd].
  rewrite delete_loop.
  unfold bind at 1, on_snd at 1. cbn [fst snd].
  match goal with
  | |- context [try_except remove_private_tags ?h ?d] =>
      destruct (remove_private_tags_lookup d) as (d1 & -> & Hprivate & Hother & Hwalk)
  end.
  exists d1. split; [done|].
  intros ? ? ? [= <- <-]. rewrite Hadd. by intros [= <-].
Qed.

(** The dataset [anonymise_dicom] leaves when it returns. *)
Lemma anonymise_dicom_returns base_folder mapping dataset mapping1 dataset1
    new_patient_name :
  anonymise_dicom base_folder (mapping, dataset)
  = ((mapping1, dataset1), Return new_patient_name) →
  ∃ patient_info,
    extract_key_info base_folder dataset
    = (with_patient_name dataset, Return patient_info)
    ∧ add_to_mapping patient_info mapping = (mapping1, Return new_patient_name)
    ∧ (∀ t, is_private t = true → dataset1 !! t = None)
    ∧ (∀ t, is_private t = false →
         option_Forall2 pruned
           (scrubbed new_patient_name (with_patient_name dataset) !! t) (dataset1 !! t))
    ∧ ((walk (scrubbed new_patient_name (with_patient_name dataset))).2 = Return tt →
         dataset1 = (walk (scrubbed new_patient_name (with_patient_name dataset))).1).
Proof.
  destruct (anonymise_dicom_cases base_folder mapping dataset) as (d1 & -> & Hd1).
  destruct (extract_key_info base_folder dataset) as [dataset0 [patient_info|e]]
    eqn:Hextract; [|done].
  destruct (add_to_mapping patient_info mapping) as [m1 [p|e]] eqn:Hadd; [|done].
  intros [= <- <- <-]. exists patient_info.
  destruct (Hd1 _ _ p eq_refl) as (Hprivate & Hother & Hwalk); [by rewrite Hadd|].
  apply extract_key_info_Return in Hextract as Hfields.
  destruct Hfields as (-> & _). by rewrite Hadd.
Qed.

Lemma replace_tags_NoDup : NoDup replace_tags.*1.
Proof. by apply (bool_decide_unpack _). Qed.

Lemma replace_tags_not_deleted field :
  field ∈ replace_tags.*1 → field ∉ delete_tags.
Proof.
  revert field. apply Forall_forall. by apply (bool_decide_unpack _).
Qed.

Lemma patient_name_not_listed :
  (patient_name_key ∉ replace_tags.*1) ∧ (patient_name_key ∉ delete_tags).
Proof. by apply (bool_decide_unpack _). Qed.

(** The named assignments and deletions leave the other tags alone. *)
Lemma scrubbed_other dataset new_patient_name t :
  ¬ named_tag t → scrubbed new_patient_name dataset !! t = dataset !! t.
Proof.
  intros Hnamed. unfold scrubbed.
  rewrite delete_loop_lookup, decide_False.
  - rewrite replace_loop_other.
    + apply lookup_upsert_ne. intros ->. apply Hnamed. by left.
    + intros field Hin ->. apply Hnamed. right. left. eauto.
  - intros (field & -> & Hin)%list_elem_of_fmap. apply Hnamed. right. right. eauto.
Qed.

Lemma scrubbed_deleted dataset new_patient_name field :
  field ∈ delete_tags → scrubbed new_patient_name dataset !! Keyword field = None.
Proof.
  intros Hin. unfold scrubbed. rewrite delete_loop_lookup, decide_True; [done|].
  apply list_elem_of_fmap. eauto.
Qed.

Lemma scrubbed_replaced dataset new_patient_name field v :
  (field, v) ∈ replace_tags →
  scrubbed new_patient_name dataset !! Keyword field = Some (Text v).
Proof.
  intros Hin. unfold scrubbed. rewrite delete_loop_lookup, decide_False.
  - by apply replace_loop_value; [apply replace_tags_NoDup|].
  - intros (field' & [= <-] & Hin')%list_elem_of_fmap.
    apply (replace_tags_not_deleted field); [|done].
    apply list_elem_of_fmap. by exists (field, v).
Qed.

Lemma scrubbed_patient_name dataset new_patient_name :
  scrubbed new_patient_name dataset !! Keyword patient_name_key
  = Some (Text new_patient_name).
Proof.
  destruct patient_name_not_listed as [Hreplace Hdelete].
  unfold scrubbed. rewrite delete_loop_lookup, decide_False.
  - rewrite replace_loop_other; [apply lookup_upsert|].
    intros field Hin [= <-]. done.
  - intros (field & [= <-] & Hin)%list_elem_of_fmap. done.
Qed.

Lemma private_not_named t : is_private t = true → ¬ named_tag t.
Proof. by intros Hp [->|[(? & -> & _)|(? & -> & _)]]. Qed.

Lemma replace_loop_cases (l : list (string * string)) dataset t elem :
  foldl (λ d fv, upsert fv.1 fv.2 d) dataset l !! t = Some elem →
  (∃ v, elem = Text v) ∨ dataset !! t = Some elem.
Proof.
  revert dataset. induction l as [|[field v] l IH]; intros dataset; [by right|].
  cbn [foldl]. intros [Htext|Hupsert]%IH; [by left|].
  unfold upsert in Hupsert. cbn [fst snd] in Hupsert.
  apply lookup_insert_Some in Hupsert as [[_ <-]|[_ ?]]; [left; by eexists|by right].
Qed.

(** The assignments and deletions by name make text elements only. *)
Lemma scrubbed_cases dataset new_patient_name t elem :
  scrubbed new_patient_name (with_patient_name dataset) !! t = Some elem →
  (∃ v, elem = Text v) ∨ dataset !! t = Some elem.
Proof.
  unfold scrubbed. rewrite delete_loop_lookup.
  destruct (decide (t ∈ Keyword <$> delete_tags)); [done|].
  intros [Htext|Hupsert]%replace_loop_cases; [by left|].
  unfold upsert in Hupsert.
  apply lookup_insert_Some in Hupsert as [[_ <-]|[_ Hname]]; [left; by eexists|].
  unfold with_patient_name in Hname.
  destruct (dataset !! Keyword patient_name_key); [by right|].
  apply lookup_insert_Some in Hname as [[_ <-]|[_ ?]]; [left; by eexists|by right].
Qed.

Lemma scrubbed_sound dataset new_patient_name :
  has_malformed dataset = false →
  has_malformed (scrubbed new_patient_name (with_patient_name dataset)) = false.
Proof.
  rewrite !has_malformed_false. intros Hsound t elem Ht.
  apply scrubbed_cases in Ht as [[v ->]|Ht]; [done|]. by apply (Hsound t).
Qed.
End AnonymiseDicom.

(** C5. The code does not do what C5 says where
    [dataset.remove_private_tags()] raises. The walk of pydicom reads every
    element and goes into the items of the sequences; the loop that
    [anonymise_dicom] runs when the walk has raised deletes the private
    elements of the dataset itself and does not go into the items. For the
    dataset with a sequence of two items, the first with an element that is
    incorrectly populated and the second with a private element, the walk
    raises, [anonymise_dicom] returns, the private element of the dataset
    itself is gone and the sequence is as it was: a private element is
    still in the record. The sequence is the only element whose visit
    raises, and it raises in its first item, so this does not depend on the
    order in which the elements of the dataset are visited. For the same
    dataset with the first item correctly populated the walk returns and no
    private element is left at any depth. *)
Theorem nested_private_tag_remains :
  let run := anonymise_dicom "source" (∅, referenced_dataset referenced_items) in
  (remove_private_tags (referenced_dataset referenced_items)).2
  = Raise (Exception "incorrectly populated tag")
  ∧ run.2 = Return "JS1_20200101"
  ∧ run.1.2 !! PrivateTag 9 16 = None
  ∧ run.1.2 !! Keyword "ReferencedImageSequence" = Some (Sequence referenced_items)
  ∧ has_private_tag run.1.2 = true
  ∧ has_private_tag (anonymise_dicom "source" (∅, referenced_dataset sound_items)).1.2
    = false.
Proof. cbn zeta. repeat split; by vm_compute. Qed.

(** ** Existence checks and the generators of paths *)

Section Probes.
Variable probe : probes.
Variable directory : string.

Lemma probe_loop_true n w :
  probe_loop probe directory n true w = (w, Return true).
Proof.
  revert w. induction n as [|n IH]; intros w; [done|].
  cbn [probe_loop]. unfold bind, ret. apply IH.
Qed.

(** From [value = False]: the loop stops calling at the first call that
    answers true. *)
Lemma probe_loop_false n w :
  ∃ w' b,
    probe_loop probe directory n false w = (w', Return b)
    ∧ ((b = true ∧ (w < w' ≤ w + n)%nat ∧ probe directory (w' - 1)%nat = true
        ∧ ∀ k, (w ≤ k < w' - 1)%nat → probe directory k = false)
       ∨ (b = false ∧ w' = (w + n)%nat
          ∧ ∀ k, (w ≤ k < w + n)%nat → probe directory k = false)).
Proof.
  revert w. induction n as [|n IH]; intros w.
  - exists w, false. split; [done|]. right. repeat split; [lia|]. intros k Hk. lia.
  - cbn [probe_loop]. unfold bind, os_path_probe.
    destruct (probe directory w) eqn:Hw.
    + exists (S w), true. split; [apply probe_loop_true|]. left.
      replace (S w - 1)%nat with w by lia. repeat split; [lia|lia|done|].
      intros k Hk. lia.
    + destruct (IH (S w)) as (w' & b & -> & Hcases).
      exists w', b. split; [done|].
      destruct Hcases as [(-> & Hw' & Hlast & Hbefore)|(-> & -> & Hnone)].
      * left. repeat split; [lia|lia|done|].
        intros k Hk. destruct (decide (k = w)) as [->|]; [done|]. apply Hbefore. lia.
      * right. repeat split; [lia|].
        intros k Hk. destruct (decide (k = w)) as [->|]; [done|]. apply Hnone. lia.
Qed.
End Probes.

(** X1. [isdir] and [isfile] answer true exactly when one of the next 40
    calls of [os.path.isdir] (or [os.path.isfile]) would answer true. They
    stop calling at the first true answer, and make all 40 calls before
    they answer false. *)
Theorem isdir_isfile_any (probe : probes) (directory : string) (w : nat) :
  ∃ w' b,
    isdir probe directory w = (w', Return b)
    ∧ isfile probe directory w = (w', Return b)
    ∧ (b = true ↔ ∃ k, (w ≤ k < w + 40)%nat ∧ probe directory k = true)
    ∧ (b = true →
         (w < w' ≤ w + 40)%nat ∧ probe directory (w' - 1)%nat = true
         ∧ ∀ k, (w ≤ k < w' - 1)%nat → probe directory k = false)
    ∧ (b = false → w' = (w + 40)%nat).
Proof.
  destruct (probe_loop_false probe directory 40 w) as (w' & b & Hrun & Hcases).
  exists w', b. split; [done|]. split; [done|].
  destruct Hcases as [(-> & Hw' & Hlast & Hbefore)|(-> & -> & Hnone)].
  - split; [|split; [done|done]].
    split; [|done]. intros _. exists (w' - 1)%nat. split; [lia|done].
  - split; [|split; [done|done]].
    split; [done|]. intros (k & Hk & Htrue). rewrite Hnone in Htrue; done.
Qed.

Lemma isdir_isfile_any_witness :
  ∃ w', isdir late_probes "source/P1" 0%nat = (w', Return true) ∧ w' = 2%nat.
Proof.
  destruct (isdir_isfile_any late_probes "source/P1" 0%nat)
    as (w' & b & Hrun & _ & Hiff & Htrue & _).
  assert (b = true) as ->.
  { apply Hiff. exists 1%nat. split; [lia|reflexivity]. }
  exists w'. split; [exact Hrun|].
  destruct (Htrue eq_refl) as (Hw' & Hlast & Hbefore).
  destruct (decide (w' = 1%nat)) as [->|]; [discriminate Hlast|].
  destruct (decide (w' = 2%nat)) as [->|]; [reflexivity|].
  specialize (Hbefore 1%nat ltac:(lia)). discriminate Hbefore.
Defined.

Section YieldLoop.
Variable test : string → Py nat bool.
Variable item : string → string.
(** What is known of a test that answered [b] between two counts of calls. *)
Variable answered : string → nat → nat → bool → Prop.
Hypothesis test_returns :
  ∀ name w, ∃ w' b, test name w = (w', Return b) ∧ (w ≤ w')%nat ∧ answered name w w' b.

Lemma yield_loop_spec names w :
  ∃ w' files,
    yield_loop names test item w = (w', Return files)
    ∧ (w ≤ w')%nat
    ∧ sublist files (item <$> names)
    ∧ (∀ f, f ∈ files →
         ∃ name w1 w2, name ∈ names ∧ f = item name
                       ∧ (w ≤ w1 ∧ w2 ≤ w')%nat ∧ answered name w1 w2 true)
    ∧ (∀ name, name ∈ names →
         item name ∈ files
         ∨ ∃ w1 w2, (w ≤ w1 ∧ w2 ≤ w')%nat ∧ answered name w1 w2 false).
Proof.
  revert w. induction names as [|name names IH]; intros w.
  - exists w, []. repeat split; [lia|done| |].
    + by intros f ?%not_elem_of_nil.
    + by intros name ?%not_elem_of_nil.
  - cbn [yield_loop]. unfold bind at 1.
    destruct (test_returns name w) as (w1 & b & -> & Hw1 & Hanswer).
    unfold bind.
    destruct (IH w1) as (w' & files & -> & Hw' & Hsub & Hfiles & Hnames).
    unfold ret.
    exists w', (if b then item name :: files else files).
    split; [done|]. split; [lia|]. split; [|split].
    + rewrite fmap_cons. destruct b; [by apply sublist_skip|by apply sublist_cons].
    + intros f Hf.
      assert (f ∈ files ∨ (b = true ∧ f = item name)) as [Hin|[-> ->]].
      { destruct b; [|by left]. apply elem_of_cons in Hf as [->|?]; [by right|by left]. }
      * destruct (Hfiles f Hin) as (n & w2 & w3 & Hn & -> & Hw & Ha).
        exists n, w2, w3. split; [by apply elem_of_cons; right|].
        split; [done|]. split; [lia|done].
      * exists name, w, w1. split; [by apply elem_of_cons; left|].
        split; [done|]. split; [lia|done].
    + intros n [->|Hn]%elem_of_cons.
      * destruct b.
        -- left. apply elem_of_cons. by left.
        -- right. exists w, w1. split; [lia|done].
      * destruct (Hnames n Hn) as [Hin|(w2 & w3 & Hw & Ha)].
        -- left. destruct b; [|done]. apply elem_of_cons. by right.
        -- right. exists w2, w3. split; [lia|done].
Qed.
End YieldLoop.

Lemma endswith_spec s suffix :
  endswith s suffix = true ↔ ∃ stem, s = stem +:+ suffix.
Proof.
  assert (∀ t stem, t ≠ suffix → t = stem +:+ suffix →
            ∃ b stem', stem = String b stem') as Hcons.
  { intros t [|b stem] Hne Ht; [|by eauto]. by destruct Hne. }
  induction s as [|a s IH]; cbn [endswith]; case_bool_decide as Heq.
  - split; [|done]. intros _. by exists "".
  - split; [done|]. intros (stem & Hstem).
    destruct (Hcons _ _ Heq Hstem) as (b & stem' & ->). done.
  - split; [|done]. intros _. by exists "".
  - rewrite IH. split.
    + intros (stem & ->). by exists (String a stem).
    + intros (stem & Hstem).
      destruct (Hcons _ _ Heq Hstem) as (b & stem' & ->).
      injection Hstem as -> ->. by exists stem'.
Qed.

Section Generators.
Variable join : string → string → string.
Variable fs : filesystem.
Variable os_path_isdir os_path_isfile : probes.

Lemma listdir_returns directory w :
  ∃ w' names, listdir fs directory w = (w', Return names) ∧ (w ≤ w')%nat.
Proof.
  destruct (listdir_loop_spec fs directory repeat_times w w (-1) [])
    as (w' & names & Hrun & Hw' & _); [lia|intros; lia|by left|].
  exists w', names. split; [done|lia].
Qed.

Lemma isdir_answered directory name w :
  ∃ w' b,
    isdir os_path_isdir (join directory name) w = (w', Return b)
    ∧ (w ≤ w')%nat
    ∧ ((b = true → ∃ k, (w ≤ k < w')%nat ∧ os_path_isdir (join directory name) k = true)
       ∧ (b = false → os_path_isdir (join directory name) w = false)).
Proof.
  destruct (probe_loop_false os_path_isdir (join directory name) 40 w)
    as (w' & b & Hrun & Hcases).
  exists w', b. split; [done|].
  destruct Hcases as [(-> & Hw' & Hlast & _)|(-> & -> & Hnone)].
  - split; [lia|]. split; [|done]. intros _. exists (w' - 1)%nat. split; [lia|done].
  - split; [lia|]. split; [done|]. intros _. apply Hnone. lia.
Qed.

Lemma isfile_dcm_answered directory name w :
  ∃ w' b,
    (is_file <- isfile os_path_isfile (join directory name) ;;
     ret (if (is_file : bool) then endswith name ".dcm" else false)) w
    = (w', Return b)
    ∧ (w ≤ w')%nat
    ∧ ((b = true →
          endswith name ".dcm" = true
          ∧ ∃ k, (w ≤ k < w')%nat ∧ os_path_isfile (join directory name) k = true)
       ∧ (b = false →
            endswith name ".dcm" = false
            ∨ os_path_isfile (join directory name) w = false)).
Proof.
  unfold bind, ret.
  destruct (probe_loop_false os_path_isfile (join directory name) 40 w)
    as (w' & b & Hrun & Hcases).
  unfold isfile. rewrite Hrun.
  destruct Hcases as [(-> & Hw' & Hlast & _)|(-> & -> & Hnone)].
  - exists w', (endswith name ".dcm"). split; [done|]. split; [lia|]. split.
    + intros Hdcm. split; [done|]. exists (w' - 1)%nat. split; [lia|done].
    + intros Hdcm. by left.
  - exists (w + 40)%nat, false. split; [done|]. split; [lia|]. split; [done|].
    intros _. right. apply Hnone. lia.
Qed.

(** The directories a generator of directories yields. *)
Lemma directory_yield_spec directory w :
  ∃ w1 w' names directories,
    listdir fs directory w = (w1, Return names)
    ∧ patient_directory_yield join fs os_path_isdir directory w
      = (w', Return directories)
    ∧ sublist directories (join directory <$> names)
    ∧ (∀ d, d ∈ directories →
         ∃ name k, name ∈ names ∧ d = join directory name
                   ∧ (w1 ≤ k < w')%nat ∧ os_path_isdir d k = true)
    ∧ (∀ name, name ∈ names →
         (∀ k, os_path_isdir (join directory name) k = true) →
         join directory name ∈ directories).
Proof.
  unfold patient_directory_yield, bind.
  destruct (listdir_returns directory w) as (w1 & names & -> & Hw1).
  destruct (yield_loop_spec
              (λ patient_folder, isdir os_path_isdir (join directory patient_folder))
              (join directory) _ (isdir_answered directory) names w1)
    as (w' & directories & -> & Hw' & Hsub & Hyes & Hno).
  exists w1, w', names, directories. split; [done|]. split; [done|].
  split; [done|]. split.
  - intros d Hd.
    destruct (Hyes d Hd) as (name & w2 & w3 & Hname & -> & Hw & Htrue & _).
    destruct (Htrue eq_refl) as (k & Hk & Hprobe).
    exists name, k. split; [done|]. split; [done|]. split; [lia|done].
  - intros name Hname Halways.
    destruct (Hno name Hname) as [Hin|(w2 & w3 & _ & _ & Hfalse)]; [done|].
    specialize (Hfalse eq_refl). by rewrite Halways in Hfalse.
Qed.
End Generators.

(** X2. [patient_directory_yield] and [sequence_directory_yield] never
    raise. Run to the end they yield, in the order of the listing [listdir]
    selected, joined paths of entries of that listing only; each path
    yielded had a call of [os.path.isdir] that answered true, and an entry
    for which [os.path.isdir] always answers true is yielded. *)
Theorem directory_yield_selects (join : string → string → string) (fs : filesystem)
    (os_path_isdir : probes) (directory : string) (w : nat) :
  ∃ w1 w' names directories,
    listdir fs directory w = (w1, Return names)
    ∧ patient_directory_yield join fs os_path_isdir directory w
      = (w', Return directories)
    ∧ sequence_directory_yield join fs os_path_isdir directory w
      = (w', Return directories)
    ∧ sublist directories (join directory <$> names)
    ∧ (∀ d, d ∈ directories →
         ∃ name k, name ∈ names ∧ d = join directory name
                   ∧ (w1 ≤ k < w')%nat ∧ os_path_isdir d k = true)
    ∧ (∀ name, name ∈ names →
         (∀ k, os_path_isdir (join directory name) k = true) →
         join directory name ∈ directories).
Proof.
  destruct (directory_yield_spec join fs os_path_isdir directory w)
    as (w1 & w' & names & directories & Hlist & Hrun & Hsub & Hyes & Hall).
  by exists w1, w', names, directories.
Qed.

Lemma directory_yield_selects_witness :
  ∃ w' directories,
    patient_directory_yield slash_join series_fs (λ _ _, true) "source" 0%nat
    = (w', Return directories)
    ∧ "source/notes.txt" ∈ directories.
Proof.
  destruct (directory_yield_selects slash_join series_fs (λ _ _, true) "source" 0%nat)
    as (w1 & w' & names & directories & Hlist & Hrun & _ & _ & _ & Hall).
  exists w', directories. split; [exact Hrun|].
  assert (names = ["IM1.dcm"; "notes.txt"; "IM2.dcm"]) as ->.
  { vm_compute in Hlist. by injection Hlist as _ <-. }
  apply (Hall "notes.txt"); [|done].
  apply elem_of_cons. right. apply elem_of_cons. by left.
Defined.

(** X3. [dicom_directory_yield] never raises. Run to the end it yields,
    in the order of the listing, joined paths of entries whose name ends
    in [.dcm] only, each with a call of [os.path.isfile] that answered
    true; an entry with such a name for which [os.path.isfile] always
    answers true is yielded. *)
Theorem dicom_directory_yield_selects (join : string → string → string)
    (fs : filesystem) (os_path_isfile : probes) (directory : string) (w : nat) :
  ∃ w1 w' names files,
    listdir fs directory w = (w1, Return names)
    ∧ dicom_directory_yield join fs os_path_isfile directory w = (w', Return files)
    ∧ sublist files (join directory <$> names)
    ∧ (∀ f, f ∈ files →
         ∃ name k, name ∈ names ∧ f = join directory name
                   ∧ (∃ stem, name = stem +:+ ".dcm")
                   ∧ (w1 ≤ k < w')%nat ∧ os_path_isfile f k = true)
    ∧ (∀ name stem, name ∈ names →
         name = stem +:+ ".dcm" →
         (∀ k, os_path_isfile (join directory name) k = true) →
         join directory name ∈ files).
Proof.
  unfold dicom_directory_yield. unfold bind at 1.
  destruct (listdir_returns fs directory w) as (w1 & names & -> & Hw1).
  destruct (yield_loop_spec
              (λ dicom_file,
                 is_file <- isfile os_path_isfile (join directory dicom_file) ;;
                 ret (if (is_file : bool) then endswith dicom_file ".dcm" else false))
              (join directory) _
              (isfile_dcm_answered join os_path_isfile directory) names w1)
    as (w' & files & -> & Hw' & Hsub & Hyes & Hno).
  exists w1, w', names, files. split; [done|]. split; [done|].
  split; [done|]. split.
  - intros f Hf.
    destruct (Hyes f Hf) as (name & w2 & w3 & Hname & -> & Hw & Htrue & _).
    destruct (Htrue eq_refl) as (Hdcm & k & Hk & Hprobe).
    exists name, k. split; [done|]. split; [done|].
    split; [by apply endswith_spec|]. split; [lia|done].
  - intros name stem Hname Hstem Halways.
    assert (endswith name ".dcm" = true) as Hdcm by (apply endswith_spec; eauto).
    destruct (Hno name Hname) as [Hin|(w2 & w3 & _ & _ & Hfalse)]; [done|].
    destruct (Hfalse eq_refl) as [Hnot|Hprobe]; [congruence|].
    by rewrite Halways in Hprobe.
Qed.

Lemma dicom_directory_yield_selects_witness :
  ∃ w' files,
    dicom_directory_yield slash_join series_fs (λ _ _, true) "source/P1/T1" 0%nat
    = (w', Return files)
    ∧ "source/P1/T1/IM2.dcm" ∈ files.
Proof.
  destruct (dicom_directory_yield_selects slash_join series_fs (λ _ _, true)
              "source/P1/T1" 0%nat)
    as (w1 & w' & names & files & Hlist & Hrun & _ & _ & Hall).
  exists w', files. split; [exact Hrun|].
  assert (names = ["IM1.dcm"; "notes.txt"; "IM2.dcm"]) as ->.
  { vm_compute in Hlist. by injection Hlist as _ <-. }
  apply (Hall "IM2.dcm" "IM2"); [|done|done].
  do 2 (apply elem_of_cons; right). apply elem_of_cons. by left.
Defined.

(** ** Which listing, and how many calls *)

Section ListdirMore.
Variable fs : filesystem.
Variable directory : string.

(** The call that returned is the last one made, after calls that raised;
    when none returned, every call made raised. *)
Lemma try_listdir_last n e w :
  ∃ w' r,
    try_function (os_listdir fs directory) n e w = (w', r)
    ∧ (w ≤ w' ≤ w + n)%nat
    ∧ (∀ l, r = Return l →
         (w < w')%nat ∧ fs directory (w' - 1)%nat = Return l
         ∧ ∀ k, (w ≤ k < w' - 1)%nat → ∃ e', fs directory k = Raise e')
    ∧ (∀ e', r = Raise e' → ∀ k, (w ≤ k < w')%nat → ∃ e'', fs directory k = Raise e'').
Proof.
  revert e w. induction n as [|n IH]; intros e w.
  - exists w, (Raise e). split; [done|]. split; [lia|]. split; [done|]. intros; lia.
  - cbn [try_function]. unfold os_listdir at 1.
    destruct (fs directory w) as [l|c] eqn:E.
    + exists (S w), (Return l). split; [done|]. split; [lia|]. split; [|done].
      intros l' [= <-]. replace (S w - 1)%nat with w by lia.
      split; [lia|]. split; [done|]. intros; lia.
    + destruct (is_Exception c).
      * destruct (IH c (S w)) as (w' & r & -> & Hw & Hret & Hraise).
        exists w', r. split; [done|]. split; [lia|]. split.
        -- intros l Hl. destruct (Hret l Hl) as (Hlt & Hlast & Hbefore).
           split; [lia|]. split; [done|].
           intros k Hk. destruct (decide (k = w)) as [->|]; [eauto|].
           apply Hbefore. lia.
        -- intros e' He' k Hk. destruct (decide (k = w)) as [->|]; [eauto|].
           apply (Hraise e' He'). lia.
      * exists (S w), (Raise c). split; [done|]. split; [lia|]. split; [done|].
        intros e' _ k Hk. assert (k = w) as -> by lia. eauto.
Qed.

(** The rounds keep the first of the longest listings. *)
Lemma listdir_loop_first n w0 w max_size selected_list :
  (w0 ≤ w)%nat →
  (∀ k l, (w0 ≤ k < w)%nat → fs directory k = Return l → Z.of_nat (length l) ≤ max_size) →
  ((max_size = -1 ∧ ∀ k, (w0 ≤ k < w)%nat → ∃ e, fs directory k = Raise e)
   ∨ (max_size = Z.of_nat (length selected_list)
      ∧ ∃ k0, (w0 ≤ k0 < w)%nat ∧ fs directory k0 = Return selected_list
              ∧ ∀ j l, (w0 ≤ j < k0)%nat → fs directory j = Return l →
                       (length l < length selected_list)%nat)) →
  ∃ w' selected,
    listdir_loop fs directory n max_size selected_list w = (w', Return selected)
    ∧ ((∃ k l, (w0 ≤ k < w')%nat ∧ fs directory k = Return l) →
         ∃ k0, (w0 ≤ k0 < w')%nat ∧ fs directory k0 = Return selected
               ∧ ∀ j l, (w0 ≤ j < k0)%nat → fs directory j = Return l →
                        (length l < length selected)%nat).
Proof.
  revert w max_size selected_list.
  induction n as [|n IH]; intros w max_size selected_list Hw Hmax Hsel.
  - exists w, selected_list. split; [done|].
    intros (k & l & Hk & Hl).
    destruct Hsel as [[_ Hnone]|[_ Hfirst]]; [|done].
    destruct (Hnone k Hk) as [e He]. congruence.
  - cbn [listdir_loop]. unfold bind at 1, listdir_round, try_except, bind, retry_function.
    destruct (try_listdir_last (Z.to_nat exception_repeat_times)
                (Exception "Retry Exception Failed.") w)
      as (w1 & r & -> & Hw1 & Hret & Hraise).
    destruct r as [directory_list|c].
    + destruct (Hret directory_list eq_refl) as (Hlt & Hlast & Hbefore).
      assert (∀ k l, (w ≤ k < w1)%nat → fs directory k = Return l → l = directory_list)
        as Honly.
      { intros k l Hk Hl. destruct (decide (k = w1 - 1)%nat) as [->|]; [congruence|].
        destruct (Hbefore k ltac:(lia)) as [e He]. congruence. }
      case_bool_decide as Hcmp; cbn [ret fst snd].
      * apply IH; [lia| |].
        -- intros k l Hk Hl. destruct (decide (k < w)%nat).
           ++ specialize (Hmax k l ltac:(lia) Hl). lia.
           ++ rewrite (Honly k l ltac:(lia) Hl). lia.
        -- right. split; [done|]. exists (w1 - 1)%nat.
           split; [lia|]. split; [done|].
           intros j l Hj Hl. destruct (decide (j < w)%nat).
           ++ specialize (Hmax j l ltac:(lia) Hl). lia.
           ++ destruct (Hbefore j ltac:(lia)) as [e He]. congruence.
      * apply IH; [lia| |].
        -- intros k l Hk Hl. destruct (decide (k < w)%nat).
           ++ apply (Hmax k l); [lia|done].
           ++ rewrite (Honly k l ltac:(lia) Hl). lia.
        -- destruct Hsel as [[-> _]|[-> (k0 & Hk0 & Hfs & Hfirst)]]; [lia|].
           right. split; [done|]. exists k0. split; [lia|done].
    + cbn [ret fst snd]. apply IH; [lia| |].
      * intros k l Hk Hl. destruct (decide (k < w)%nat).
        -- apply (Hmax k l); [lia|done].
        -- destruct (Hraise c eq_refl k ltac:(lia)) as [e He]. congruence.
      * destruct Hsel as [[-> Hnone]|[-> (k0 & Hk0 & Hfs & Hfirst)]].
        -- left. split; [done|]. intros k Hk. destruct (decide (k < w)%nat).
           ++ apply Hnone. lia.
           ++ apply (Hraise c eq_refl). lia.
        -- right. split; [done|]. exists k0. split; [lia|done].
Qed.

(** A round returns, after the calls of its [retry_function]. *)
Lemma listdir_round_calls max_size selected_list w :
  ∃ st,
    listdir_round fs directory max_size selected_list w
    = ((retry_function exception_repeat_times (os_listdir fs directory) w).1, Return st).
Proof.
  unfold listdir_round, try_except, bind.
  destruct (retry_function exception_repeat_times (os_listdir fs directory) w)
    as [w1 [l|e]]; [|by eexists].
  case_bool_decide; by eexists.
Qed.

Lemma attempt_os_listdir w j :
  attempt (os_listdir fs directory) w j = (S (w + j), fs directory (w + j)%nat).
Proof.
  revert w. induction j as [|j IH]; intros w; cbn [attempt].
  - unfold os_listdir. by replace (w + 0)%nat with w by lia.
  - unfold os_listdir at 2. cbn [fst]. rewrite IH.
    by replace (S w + j)%nat with (w + S j)%nat by lia.
Qed.

(** [n] rounds take [n] calls when every call returns, and ten times as
    many when every call raises an [Exception]. *)
Lemma listdir_loop_calls n w max_size selected_list :
  ((∀ k, (w ≤ k < w + n)%nat → ∃ l, fs directory k = Return l) →
     (listdir_loop fs directory n max_size selected_list w).1 = (w + n)%nat)
  ∧ ((∀ k, (w ≤ k < w + 10 * n)%nat →
        ∃ e, fs directory k = Raise e ∧ is_Exception e = true) →
       (listdir_loop fs directory n max_size selected_list w).1 = (w + 10 * n)%nat).
Proof.
  revert w max_size selected_list.
  induction n as [|n IH]; intros w max_size selected_list.
  - cbn. split; intros _; lia.
  - cbn [listdir_loop]. unfold bind.
    destruct (listdir_round_calls max_size selected_list w) as [st ->].
    split; intros Hall.
    + assert ((retry_function exception_repeat_times (os_listdir fs directory) w).1
              = S w) as ->.
      { destruct (Hall w ltac:(lia)) as [l Hl].
        unfold retry_function. change (Z.to_nat exception_repeat_times) with 10%nat.
        cbn [try_function]. unfold os_listdir at 1. by rewrite Hl. }
      rewrite (proj1 (IH (S w) _ _)); [lia|]. intros k Hk. apply Hall. lia.
    + assert ((retry_function exception_repeat_times (os_listdir fs directory) w).1
              = (w + 10)%nat) as ->.
      { unfold retry_function. change (Z.to_nat exception_repeat_times) with 10%nat.
        rewrite try_function_exhausted; [|lia|].
        - rewrite attempt_os_listdir. cbn [fst]. lia.
        - intros j Hj. rewrite attempt_os_listdir. cbn [snd]. apply Hall. lia. }
      rewrite (proj2 (IH (w + 10)%nat _ _)); [lia|]. intros k Hk. apply Hall. lia.
Qed.
End ListdirMore.

(** X4. Among the listings the calls of [os.listdir] returned, [listdir]
    returns the first of the longest: every listing returned by an earlier
    call is strictly shorter than the one it selects. *)
Theorem listdir_first_longest (fs : filesystem) (directory : string) (w : nat) :
  ∃ w' selected_list,
    listdir fs directory w = (w', Return selected_list)
    ∧ ((∃ k l, (w ≤ k < w')%nat ∧ fs directory k = Return l) →
         ∃ k0, (w ≤ k0 < w')%nat ∧ fs directory k0 = Return selected_list
               ∧ ∀ j l, (w ≤ j < k0)%nat → fs directory j = Return l →
                        (length l < length selected_list)%nat).
Proof.
  apply (listdir_loop_first fs directory repeat_times w w (-1) []); [lia| |].
  - intros k l Hk. lia.
  - left. split; [done|]. intros k Hk. lia.
Qed.

Lemma listdir_first_longest_witness :
  ∃ w' selected_list k0,
    listdir tie_fs "patients" 0%nat = (w', Return selected_list)
    ∧ tie_fs "patients" k0 = Return selected_list
    ∧ ∀ j l, (0 ≤ j < k0)%nat → tie_fs "patients" j = Return l →
             (length l < length selected_list)%nat.
Proof.
  destruct (listdir_first_longest tie_fs "patients" 0%nat)
    as (w' & selected_list & Hrun & Hfirst).
  pose proof (f_equal fst Hrun) as Hw. vm_compute in Hw. subst w'.
  destruct Hfirst as (k0 & Hk0 & Hfs & Hshorter).
  { exists 0%nat, (listing 2). split; [lia|reflexivity]. }
  exists 164%nat, selected_list, k0.
  split; [exact Hrun|]. split; [exact Hfs|exact Hshorter].
Defined.

(** X5. [listdir] makes exactly 20 calls of [os.listdir] when each of
    them returns, and 200 when every call raises an [Exception]. *)
Theorem listdir_call_count (fs : filesystem) (directory : string) (w : nat) :
  ((∀ k, (w ≤ k < w + 20)%nat → ∃ l, fs directory k = Return l) →
     (listdir fs directory w).1 = (w + 20)%nat)
  ∧ ((∀ k, (w ≤ k < w + 200)%nat →
        ∃ e, fs directory k = Raise e ∧ is_Exception e = true) →
       (listdir fs directory w).1 = (w + 200)%nat).
Proof.
  exact (listdir_loop_calls fs directory repeat_times w (-1) []).
Qed.

Lemma listdir_call_count_witness :
  (listdir series_fs "source" 0%nat).1 = 20%nat
  ∧ (listdir (λ _ _, Raise (OSError "gone")) "source" 7%nat).1 = 207%nat.
Proof.
  split.
  - apply (proj1 (listdir_call_count series_fs "source" 0%nat)).
    intros k _. by eexists.
  - apply (proj2 (listdir_call_count (λ _ _, Raise (OSError "gone")) "source" 7%nat)).
    intros k _. by eexists.
Defined.

(** ** Key information *)

(** X6. [extract_key_info] returns for every dataset whose patient ID,
    accession number and study date read as text: it gives their values, the
    base folder, and the patient name of the dataset. A dataset without a
    patient name is given the name [Z^Z], which is also written into the
    dataset; otherwise the dataset is left as it is. *)
Theorem extract_key_info_returns (base_folder : string) (dataset : Dataset)
    (id accession date : string) :
  dataset !! Keyword patient_id_key = Some (Text id) →
  dataset !! Keyword accession_key = Some (Text accession) →
  dataset !! Keyword study_date_key = Some (Text date) →
  (∀ name, dataset !! Keyword patient_name_key = Some (Text name) →
     extract_key_info base_folder dataset
     = (dataset, Return (Info.mk id name accession date base_folder)))
  ∧ (dataset !! Keyword patient_name_key = None →
       extract_key_info base_folder dataset
       = (<[Keyword patient_name_key := Text "Z^Z"]> dataset,
          Return (Info.mk id "Z^Z" accession date base_folder))).
Proof.
  intros Hid Haccession Hdate. rewrite extract_key_info_eq.
  unfold get_value, with_patient_name. rewrite Hid, Haccession, Hdate.
  split.
  - intros name Hname. by rewrite Hname.
  - intros Hname. by rewrite Hname.
Qed.

Lemma extract_key_info_returns_witness :
  extract_key_info "source" study_dataset
  = (study_dataset, Return smith_a1)
  ∧ (extract_key_info "source" (delete (Keyword "PatientName") study_dataset)).2
    = Return (Info.mk "P1" "Z^Z" "A1" "20200101" "source").
Proof.
  split.
  - apply (proj1 (extract_key_info_returns "source" study_dataset
                    "P1" "A1" "20200101" eq_refl eq_refl eq_refl) "SMITH^JOHN").
    reflexivity.
  - pose proof (extract_key_info_returns "source"
                  (delete (Keyword "PatientName") study_dataset)
                  "P1" "A1" "20200101") as Hreturns.
    destruct Hreturns as [_ Hnameless]; [by vm_compute..|].
    rewrite Hnameless; [reflexivity|by vm_compute].
Defined.

(** X7. Without a patient ID, [extract_key_info] raises the [KeyError] of
    the patient ID and does not touch the dataset. When the elements it
    reads that are in the dataset read as text, it raises exactly when the
    patient ID, the accession number or the study date is missing, with the
    [KeyError] of the first one missing in this order, and in the two last
    cases a missing patient name has already been replaced by [Z^Z] in the
    dataset. *)
Theorem extract_key_info_raises (base_folder : string) (dataset : Dataset) :
  (dataset !! Keyword patient_id_key = None →
     extract_key_info base_folder dataset = (dataset, Raise (KeyError "PatientID")))
  ∧ (readable dataset = true →
       (is_Some (dataset !! Keyword patient_id_key) →
          dataset !! Keyword accession_key = None →
          extract_key_info base_folder dataset
          = (with_patient_name dataset, Raise (KeyError "AccessionNumber")))
       ∧ (is_Some (dataset !! Keyword patient_id_key) →
            is_Some (dataset !! Keyword accession_key) →
            dataset !! Keyword study_date_key = None →
            extract_key_info base_folder dataset
            = (with_patient_name dataset, Raise (KeyError "StudyDate")))
       ∧ (∀ e, (extract_key_info base_folder dataset).2 = Raise e →
            dataset !! Keyword patient_id_key = None
            ∨ dataset !! Keyword accession_key = None
            ∨ dataset !! Keyword study_date_key = None)).
Proof.
  rewrite extract_key_info_eq. unfold get_value. split.
  { intros Hid. by rewrite Hid. }
  intros Hreadable. unfold readable, key_fields in Hreadable.
  cbn [forallb] in Hreadable.
  apply andb_prop in Hreadable as [Hid Hreadable].
  apply andb_prop in Hreadable as [Hname Hreadable].
  apply andb_prop in Hreadable as [Haccession Hreadable].
  apply andb_prop in Hreadable as [Hdate _].
  destruct (dataset !! Keyword patient_id_key) as [[id| |]|]; [|done|done|].
  2:{ repeat split; [by intros [? ?]..|by left]. }
  destruct (dataset !! Keyword patient_name_key) as [[name| |]|]; [|done|done|].
  - destruct (dataset !! Keyword accession_key) as [[accession| |]|]; [|done|done|].
    2:{ repeat split; [by intros _ [? ?]|by right; left]. }
    destruct (dataset !! Keyword study_date_key) as [[date| |]|]; [|done|done|].
    + by repeat split.
    + repeat split; [done|by right; right].
  - destruct (dataset !! Keyword accession_key) as [[accession| |]|]; [|done|done|].
    2:{ repeat split; [by intros _ [? ?]|by right; left]. }
    destruct (dataset !! Keyword study_date_key) as [[date| |]|]; [|done|done|].
    + by repeat split.
    + repeat split; [done|by right; right].
Qed.

Lemma extract_key_info_raises_witness :
  let dataset := delete (Keyword "PatientName") (delete (Keyword "StudyDate") study_dataset) in
  (extract_key_info "source" dataset).2 = Raise (KeyError "StudyDate")
  ∧ (extract_key_info "source" dataset).1 !! Keyword "PatientName" = Some (Text "Z^Z").
Proof.
  cbn zeta.
  assert (readable (delete (Keyword "PatientName")
                      (delete (Keyword "StudyDate") study_dataset)) = true) as Hreadable
    by (by vm_compute).
  rewrite (proj1 (proj2 (proj2 (extract_key_info_raises "source"
             (delete (Keyword "PatientName")
                (delete (Keyword "StudyDate") study_dataset))) Hreadable))).
  - split; by vm_compute.
  - exists (Text "P1"). by vm_compute.
  - exists (Text "A1"). by vm_compute.
  - by vm_compute.
Defined.

(** ** The ledger: entries, history and indices *)

(** X8. [initialise_mapping_entry] never changes an entry that is there,
    of this patient or of another; it makes the entry of a new patient with
    no index and five empty sequences, one entry more; done again it
    changes nothing. *)
Theorem initialise_mapping_entry_keeps (patient_id : string) (mapping : ledger) :
  (∀ other patient_values,
     mapping !! other = Some patient_values →
     initialise_mapping_entry patient_id mapping !! other = Some patient_values)
  ∧ (mapping !! patient_id = None →
       initialise_mapping_entry patient_id mapping !! patient_id
       = Some (Entry.mk None [] [] [] [] [])
       ∧ size (initialise_mapping_entry patient_id mapping) = S (size mapping))
  ∧ initialise_mapping_entry patient_id (initialise_mapping_entry patient_id mapping)
    = initialise_mapping_entry patient_id mapping.
Proof.
  split; [|split].
  - intros other e He.
    destruct (decide (patient_id = other)) as [->|Hne].
    + rewrite initialise_present; [done|by eexists].
    + by rewrite initialise_lookup_ne.
  - intros Hnone. unfold initialise_mapping_entry. rewrite Hnone.
    split; [by rewrite lookup_insert_eq|by apply map_size_insert_None].
  - apply initialise_present. rewrite initialise_lookup. by eexists.
Qed.

Lemma initialise_mapping_entry_keeps_witness :
  let mapping := (add_to_mapping smith_a1 ∅).1 in
  initialise_mapping_entry "P1" mapping !! "P1" = mapping !! "P1"
  ∧ size (initialise_mapping_entry "P2" mapping) = 2%nat.
Proof.
  cbn zeta. split.
  - pose proof (proj1 (initialise_mapping_entry_keeps "P1" (add_to_mapping smith_a1 ∅).1)
                  "P1" (entry_of (add_to_mapping smith_a1 ∅).1 "P1")) as Hkeep.
    rewrite Hkeep; by vm_compute.
  - pose proof (proj1 (proj2 (initialise_mapping_entry_keeps "P2"
                                (add_to_mapping smith_a1 ∅).1))) as Hnew.
    destruct Hnew as [_ ->]; by vm_compute.
Defined.

(** X9. [exists_in_mapping] is true exactly when the patient has an entry
    in which one position holds both the accession number and the study
    date of the record: the two found at different positions do not count,
    and a patient without entry gives false. *)
Theorem exists_in_mapping_positions (patient_info : Info.t) (mapping : ledger) :
  exists_in_mapping patient_info mapping = true
  ↔ ∃ patient_values i,
      mapping !! Info.PatientID patient_info = Some patient_values
      ∧ Entry.AccessionNumber patient_values !! i = Some (Info.AccessionNumber patient_info)
      ∧ Entry.StudyDate patient_values !! i = Some (Info.StudyDate patient_info).
Proof.
  rewrite exists_in_mapping_spec. unfold encounters_of, encounters, encounter.
  destruct (mapping !! Info.PatientID patient_info) as [e|]; simpl.
  - rewrite list_elem_of_lookup. split.
    + intros (i & (a & d & [= <- <-] & Ha & Hd)%lookup_zip_with_Some).
      by exists e, i.
    + intros (e' & i & [= <-] & Ha & Hd). exists i.
      apply lookup_zip_with_Some. by exists (Info.AccessionNumber patient_info),
        (Info.StudyDate patient_info).
  - split; [by intros ?%not_elem_of_nil|]. by intros (e & i & ? & _).
Qed.

Lemma exists_in_mapping_positions_witness :
  exists_in_mapping (Info.mk "P1" "SMITH^JOHN" "A1" "20200102" "source")
    (resolve_all [smith_a1; smith_a2] ∅).1 = false.
Proof.
  apply not_true_is_false. intros Hex.
  apply (proj1 (exists_in_mapping_positions _ _)) in Hex
    as (patient_values & i & Hentry & Haccession & Hdate).
  vm_compute in Hentry. injection Hentry as <-.
  destruct i as [|[|i]]; vm_compute in Haccession, Hdate; congruence.
Defined.

Section History.
Implicit Types (mapping : ledger) (patient_info : Info.t) (patient_id : string).

Lemma add_to_mapping_other patient_info mapping other :
  other ≠ Info.PatientID patient_info →
  (add_to_mapping patient_info mapping).1 !! other = mapping !! other.
Proof.
  intros Hne. rewrite add_to_mapping_eq. cbn zeta.
  destruct (generate_new_patient_name _ _ _) as [p|e]; simpl.
  - destruct (exists_in_mapping patient_info mapping); simpl; [done|].
    by rewrite lookup_insert_ne.
  - by rewrite initialise_lookup_ne.
Qed.

Lemma extends_refl (patient_values : Entry.t) : extends patient_values patient_values.
Proof. by repeat split. Qed.

Lemma extends_trans (e1 e2 e3 : Entry.t) : extends e1 e2 → extends e2 e3 → extends e1 e3.
Proof.
  intros (A1 & A2 & A3 & A4 & A5) (B1 & B2 & B3 & B4 & B5).
  repeat split; by etrans.
Qed.

Lemma extends_append patient_index patient_info new_patient_name (patient_values : Entry.t) :
  extends patient_values
    (append_encounter patient_index patient_info new_patient_name patient_values).
Proof. repeat split; by apply prefix_app_r. Qed.

Lemma add_to_mapping_extends patient_info mapping patient_id (patient_values : Entry.t) :
  mapping !! patient_id = Some patient_values →
  ∃ after, (add_to_mapping patient_info mapping).1 !! patient_id = Some after
           ∧ extends patient_values after.
Proof.
  intros He.
  destruct (decide (patient_id = Info.PatientID patient_info)) as [->|Hne].
  - rewrite add_to_mapping_eq. cbn zeta.
    destruct (generate_new_patient_name _ _ _) as [p|e]; simpl.
    + destruct (exists_in_mapping patient_info mapping); simpl.
      * exists patient_values. split; [done|apply extends_refl].
      * rewrite lookup_insert_eq. eexists. split; [done|].
        unfold entry_of. rewrite He. apply extends_append.
    + rewrite initialise_present by eauto.
      exists patient_values. split; [done|apply extends_refl].
  - rewrite add_to_mapping_other by done.
    exists patient_values. split; [done|apply extends_refl].
Qed.

Lemma resolve_all_extends records mapping patient_id (patient_values : Entry.t) :
  mapping !! patient_id = Some patient_values →
  ∃ after, (resolve_all records mapping).1 !! patient_id = Some after
           ∧ extends patient_values after.
Proof.
  revert mapping patient_values.
  induction records as [|patient_info records IH]; intros mapping e He.
  - exists e. split; [done|apply extends_refl].
  - rewrite resolve_all_cons.
    destruct (add_to_mapping_extends patient_info _ _ _ He) as (e1 & He1 & Hext1).
    destruct (add_to_mapping patient_info mapping).2.
    + destruct (IH _ _ He1) as (e2 & He2 & Hext2).
      exists e2. split; [done|by eapply extends_trans].
    + by exists e1.
Qed.
End History.

(** X10. A call of [add_to_mapping] changes the entry of the patient of
    the record only: the entry of every other patient is as before,
    whether the call returns or raises. *)
Theorem add_to_mapping_frame (patient_info : Info.t) (mapping : ledger) (other : string) :
  other ≠ Info.PatientID patient_info →
  (add_to_mapping patient_info mapping).1 !! other = mapping !! other.
Proof. apply add_to_mapping_other. Qed.

Lemma add_to_mapping_frame_witness :
  (add_to_mapping doe_a7 (add_to_mapping smith_a1 ∅).1).1 !! "P1"
  = (add_to_mapping smith_a1 ∅).1 !! "P1".
Proof.
  apply (add_to_mapping_frame doe_a7 (add_to_mapping smith_a1 ∅).1 "P1"). discriminate.
Defined.



(** X12. The history is only appended to: after any run of calls of
    [add_to_mapping], returning or ended by an exception, every entry that
    was in the ledger is still there and each of its five sequences starts
    with the sequence it was. *)
Theorem history_append_only (records : list Info.t) (mapping : ledger)
    (patient_id : string) (patient_values : Entry.t) :
  mapping !! patient_id = Some patient_values →
  ∃ after,
    (resolve_all records mapping).1 !! patient_id = Some after
    ∧ Entry.PatientName patient_values `prefix_of` Entry.PatientName after
    ∧ Entry.NewPatientName patient_values `prefix_of` Entry.NewPatientName after
    ∧ Entry.AccessionNumber patient_values `prefix_of` Entry.AccessionNumber after
    ∧ Entry.StudyDate patient_values `prefix_of` Entry.StudyDate after
    ∧ Entry.OriginalBaseFolder patient_values `prefix_of` Entry.OriginalBaseFolder after.
Proof. apply resolve_all_extends. Qed.

Lemma history_append_only_witness :
  ∃ after,
    (resolve_all [doe_a7; smith_a2; nameless_a1] (add_to_mapping smith_a1 ∅).1).1 !! "P1"
    = Some after
    ∧ ["JS1_20200101"] `prefix_of` Entry.NewPatientName after.
Proof.
  destruct (history_append_only [doe_a7; smith_a2; nameless_a1]
              (add_to_mapping smith_a1 ∅).1 "P1"
              (entry_of (add_to_mapping smith_a1 ∅).1 "P1"))
    as (after & Hafter & _ & Hnames & _); [by vm_compute|].
  exists after. split; [exact Hafter|exact Hnames].
Defined.

Section Lookup.
Implicit Types (mapping : ledger) (patient_info : Info.t) (patient_values : Entry.t).

(** A new encounter is found at the end of the entry. *)
Lemma matching_position_append patient_index patient_info new_patient_name patient_values :
  parallel patient_values →
  encounter patient_info ∉ encounters patient_values →
  matching_position patient_info
    (append_encounter patient_index patient_info new_patient_name patient_values)
  = Some (length (Entry.StudyDate patient_values)).
Proof.
  intros Hpar Hfresh. unfold matching_position.
  rewrite encounters_append by done.
  rewrite list_find_app_r.
  - cbn. rewrite decide_True by done. cbn. f_equal.
    destruct Hpar as (_ & _ & Hlen & _).
    unfold encounters. by rewrite length_zip_with_r_eq.
  - apply list_find_None, Forall_forall. intros x Hx ->. done.
Qed.
End Lookup.

(** X13. What a call records can be read back: after a call of
    [add_to_mapping] that returned for an encounter that was not in the
    ledger, the encounter is there, and at its position are the name the
    call returned and the patient name of the record. *)
Theorem add_then_lookup (mapping mapping1 : ledger) (patient_info : Info.t)
    (new_patient_name : string) :
  reachable mapping →
  exists_in_mapping patient_info mapping = false →
  add_to_mapping patient_info mapping = (mapping1, Return new_patient_name) →
  exists_in_mapping patient_info mapping1 = true
  ∧ stored_pseudonym patient_info mapping1 = Some new_patient_name
  ∧ recorded_name patient_info mapping1 = Some (Info.PatientName patient_info).
Proof.
  intros Hr Hex Hadd.
  pose proof (reachable_ok _ Hr) as Hok.
  split; [by destruct (add_to_mapping_again _ _ _ _ Hok Hadd)|].
  revert Hadd. rewrite add_to_mapping_eq. cbn zeta.
  destruct (generate_new_patient_name _ _ _) as [p|e]; [|done].
  rewrite Hex. intros [= <- <-].
  pose proof (entry_of_parallel (Info.PatientID patient_info) _
                (ledger_ok_parallel _ Hok)) as Hpar.
  assert (encounter patient_info
          ∉ encounters (entry_of mapping (Info.PatientID patient_info))) as Hfresh.
  { rewrite <-encounters_of_entry_of, <-exists_in_mapping_spec. by rewrite Hex. }
  unfold stored_pseudonym, recorded_name. rewrite lookup_insert_eq. cbn [mbind option_bind].
  rewrite matching_position_append by done. cbn [mbind option_bind].
  destruct Hpar as (H1 & H2 & H3 & H4).
  unfold append_encounter. cbn [Entry.NewPatientName Entry.PatientName].
  split.
  - replace (length (Entry.StudyDate _)) with (length (Entry.NewPatientName
      (entry_of mapping (Info.PatientID patient_info)))) by lia.
    apply list_lookup_middle. done.
  - replace (length (Entry.StudyDate _)) with (length (Entry.PatientName
      (entry_of mapping (Info.PatientID patient_info)))) by lia.
    apply list_lookup_middle. done.
Qed.

Lemma add_then_lookup_witness :
  let mapping := (add_to_mapping doe_a7 (add_to_mapping smith_a1 ∅).1).1 in
  let mapping1 := (add_to_mapping smith_a2 mapping).1 in
  stored_pseudonym smith_a2 mapping1 = Some "JS1_20200102"
  ∧ recorded_name smith_a2 mapping1 = Some "SMITH^JOHN".
Proof.
  cbn zeta.
  apply (add_then_lookup (add_to_mapping doe_a7 (add_to_mapping smith_a1 ∅).1).1
           (add_to_mapping smith_a2
              (add_to_mapping doe_a7 (add_to_mapping smith_a1 ∅).1).1).1
           smith_a2 "JS1_20200102").
  - apply reachable_step, reachable_step, reachable_empty.
  - by vm_compute.
  - by vm_compute.
Defined.

Section Indexed.
Implicit Types (mapping : ledger) (patient_info : Info.t) (patient_id : string).

Lemma index_of_Some mapping patient_id i :
  index_of mapping patient_id = Some i
  ↔ ∃ patient_values, mapping !! patient_id = Some patient_values
                      ∧ Entry.PatientIndex patient_values = Some i.
Proof.
  unfold index_of. destruct (mapping !! patient_id) as [e|]; simpl.
  - split; [by eauto|]. by intros (e' & [= <-] & ?).
  - split; [done|]. by intros (e' & ? & _).
Qed.

Lemma indexed_empty : indexed ∅.
Proof.
  split.
  - intros pid e He. by rewrite lookup_empty in He.
  - intros p1 p2 i Hi. unfold index_of in Hi. by rewrite lookup_empty in Hi.
Qed.

Lemma add_to_mapping_indexed patient_info mapping mapping1 new_patient_name :
  indexed mapping →
  add_to_mapping patient_info mapping = (mapping1, Return new_patient_name) →
  indexed mapping1.
Proof.
  intros [Hrange Hinj]. rewrite add_to_mapping_eq. cbn zeta.
  destruct (generate_new_patient_name _ _ _) as [p|e]; [|done].
  destruct (exists_in_mapping patient_info mapping); intros [= <- <-]; [done|].
  set (pid := Info.PatientID patient_info).
  destruct (mapping !! pid) as [e0|] eqn:He0.
  - destruct (Hrange _ _ He0) as (i & Hi & Hbound).
    assert (candidate_index patient_info mapping = i) as Hcand.
    { apply candidate_index_assigned. unfold entry_of. fold pid. by rewrite He0. }
    rewrite Hcand.
    assert (∀ other, index_of (<[pid := append_encounter i patient_info p
                                           (entry_of mapping pid)]> mapping) other
                     = index_of mapping other) as Hsame.
    { intros other. destruct (decide (pid = other)) as [<-|Hne].
      - rewrite index_of_insert. simpl. symmetry. apply index_of_Some. eauto.
      - by rewrite index_of_insert_ne. }
    split.
    + intros other e'. rewrite map_size_insert_Some by eauto.
      rewrite lookup_insert. case_decide as Hcase.
      * intros [= <-]. simpl. eauto.
      * apply Hrange.
    + intros p1 p2 j. rewrite !Hsame. apply Hinj.
  - assert (candidate_index patient_info mapping = Z.of_nat (S (size mapping))) as Hcand.
    { unfold candidate_index, entry_of, initialise_mapping_entry. fold pid.
      rewrite He0. simpl. by rewrite map_size_insert_None. }
    rewrite Hcand. split.
    + intros other e'. rewrite map_size_insert_None by done.
      rewrite lookup_insert. case_decide as Hcase.
      * intros [= <-]. simpl. eexists. split; [done|lia].
      * intros He'. destruct (Hrange _ _ He') as (i & Hi & Hbound).
        exists i. split; [done|lia].
    + assert (∀ other i, other ≠ pid → index_of mapping other = Some i →
                i ≠ Z.of_nat (S (size mapping))) as Hold.
      { intros other i _ (e' & He' & Hi)%index_of_Some.
        destruct (Hrange _ _ He') as (j & Hj & Hbound).
        assert (i = j) as -> by congruence. lia. }
      intros p1 p2 j.
      destruct (decide (pid = p1)) as [<-|Hne1];
        destruct (decide (pid = p2)) as [<-|Hne2]; [done| | |].
      * rewrite index_of_insert, index_of_insert_ne by done. simpl.
        intros [= <-] H2. by destruct (Hold p2 _ ltac:(done) H2).
      * rewrite index_of_insert, index_of_insert_ne by done. simpl.
        intros H1 [= <-]. by destruct (Hold p1 _ ltac:(done) H1).
      * rewrite !index_of_insert_ne by done. apply Hinj.
Qed.

Lemma resolve_all_indexed records mapping mapping1 names :
  indexed mapping →
  resolve_all records mapping = (mapping1, Return names) →
  indexed mapping1.
Proof.
  revert mapping names.
  induction records as [|patient_info records IH]; intros mapping names Hidx.
  - by intros [= <- _].
  - rewrite resolve_all_unfold.
    destruct (add_to_mapping patient_info mapping) as [m1 [p|e]] eqn:Hadd; [|done].
    destruct (resolve_all records m1) as [m2 [ps|e]] eqn:Hrest; [|done].
    intros [= <- _]. apply (IH m1 ps); [|done].
    by eapply add_to_mapping_indexed.
Qed.
End Indexed.

(** X14. In a run from the empty ledger in which every call of
    [add_to_mapping] returns, no two patients get the same index, every
    patient of the ledger has an index, and the indices are the numbers from
    1 to the number of patients. *)
Theorem indices_unique (records : list Info.t) (mapping : ledger) (names : list string) :
  resolve_all records ∅ = (mapping, Return names) →
  (∀ patient1 patient2 i,
     index_of mapping patient1 = Some i →
     index_of mapping patient2 = Some i →
     patient1 = patient2)
  ∧ (∀ patient_id, is_Some (mapping !! patient_id) →
       ∃ i, index_of mapping patient_id = Some i ∧ 1 ≤ i ≤ Z.of_nat (size mapping)).
Proof.
  intros Hrun.
  destruct (resolve_all_indexed _ _ _ _ indexed_empty Hrun) as [Hrange Hinj].
  split; [done|].
  intros patient_id [e He]. destruct (Hrange _ _ He) as (i & Hi & Hbound).
  exists i. split; [|done]. apply index_of_Some. eauto.
Qed.

Lemma indices_unique_witness :
  let mapping := (resolve_all [smith_a1; doe_a7; smith_a2] ∅).1 in
  ∃ i, index_of mapping "P2" = Some i ∧ 1 ≤ i ≤ 2.
Proof.
  cbn zeta.
  destruct (indices_unique [smith_a1; doe_a7; smith_a2]
              (resolve_all [smith_a1; doe_a7; smith_a2] ∅).1
              ["JS1_20200101"; "JD2_20200301"; "JS1_20200102"]) as [_ Hindex];
    [by vm_compute|].
  apply Hindex. eexists. vm_compute. reflexivity.
Defined.

Section AfterException.
Implicit Types (mapping : ledger) (patient_info : Info.t).

Lemma add_to_mapping_no_family patient_info mapping :
  family_name (Info.PatientName patient_info) = "" →
  add_to_mapping patient_info mapping
  = (initialise_mapping_entry (Info.PatientID patient_info) mapping, Raise IndexError).
Proof.
  intros Hfamily. rewrite add_to_mapping_eq. cbn zeta.
  unfold generate_new_patient_name, initials. rewrite Hfamily.
  by destruct (first_char (given_name _)).
Qed.

Lemma add_to_mapping_family patient_info mapping :
  family_name (Info.PatientName patient_info) ≠ "" →
  ∃ new_patient_name,
    add_to_mapping patient_info mapping
    = ((add_to_mapping patient_info mapping).1, Return new_patient_name).
Proof.
  intros Hfamily. rewrite add_to_mapping_eq. cbn zeta.
  unfold generate_new_patient_name, initials.
  destruct (family_name (Info.PatientName patient_info)) as [|f family]; [done|].
  destruct (first_char (given_name _));
    destruct (exists_in_mapping patient_info mapping); by eexists.
Qed.

(** The first call that returns for a patient whose entry has no index
    and no encounter. *)
Lemma add_to_mapping_first_index patient_info mapping :
  family_name (Info.PatientName patient_info) ≠ "" →
  (mapping !! Info.PatientID patient_info = None
   ∨ mapping !! Info.PatientID patient_info = Some Entry.initial) →
  index_of (add_to_mapping patient_info mapping).1 (Info.PatientID patient_info)
  = Some (Z.of_nat (size (initialise_mapping_entry (Info.PatientID patient_info) mapping))).
Proof.
  intros Hfamily Hentry.
  destruct (add_to_mapping_family _ mapping Hfamily) as [p Hadd].
  assert (index_of mapping (Info.PatientID patient_info) = None) as Hnone.
  { unfold index_of. by destruct Hentry as [->| ->]. }
  assert (exists_in_mapping patient_info mapping = false) as Hex.
  { unfold exists_in_mapping. by destruct Hentry as [->| ->]. }
  destruct (add_to_mapping_new_index _ _ _ _ Hnone Hex Hadd) as [Hidx Hsize].
  by rewrite Hidx, Hsize.
Qed.
End AfterException.

(** X15. After a call that raised, the uniqueness of the indices is lost:
    when the first call for a new patient raises, a call for another new
    patient returns, and a later call for the first patient returns, both
    patients have the same index, the number of entries the ledger had at
    the start plus two. *)
Theorem index_shared_after_exception (mapping : ledger) (failed retried other : Info.t) :
  Info.PatientID failed = Info.PatientID retried →
  Info.PatientID other ≠ Info.PatientID retried →
  mapping !! Info.PatientID retried = None →
  mapping !! Info.PatientID other = None →
  family_name (Info.PatientName failed) = "" →
  family_name (Info.PatientName retried) ≠ "" →
  family_name (Info.PatientName other) ≠ "" →
  let mapping3 :=
    (add_to_mapping retried
       (add_to_mapping other (add_to_mapping failed mapping).1).1).1 in
  index_of mapping3 (Info.PatientID retried) = Some (Z.of_nat (size mapping + 2))
  ∧ index_of mapping3 (Info.PatientID other) = Some (Z.of_nat (size mapping + 2)).
Proof.
  intros Hsame Hne Hnone_a Hnone_b Hfailed Hretried Hother. cbn zeta.
  rewrite (add_to_mapping_no_family failed) by done. cbn [fst]. rewrite Hsame.
  set (a := Info.PatientID retried) in *. set (b := Info.PatientID other) in *.
  set (m1 := initialise_mapping_entry a mapping).
  assert (m1 !! a = Some Entry.initial) as Ha1.
  { unfold m1. rewrite initialise_lookup. unfold entry_of. by rewrite Hnone_a. }
  assert (m1 !! b = None) as Hb1.
  { unfold m1. by rewrite initialise_lookup_ne. }
  assert (size m1 = S (size mapping)) as Hsize1.
  { unfold m1, initialise_mapping_entry. rewrite Hnone_a.
    by apply map_size_insert_None. }
  set (m2 := (add_to_mapping other m1).1).
  assert (index_of m2 b = Some (Z.of_nat (size mapping + 2))) as Hb2.
  { unfold m2, b. rewrite add_to_mapping_first_index by (done || by left).
    fold b. unfold initialise_mapping_entry. rewrite Hb1.
    rewrite map_size_insert_None by done. f_equal. lia. }
  assert (m2 !! a = Some Entry.initial) as Ha2.
  { unfold m2. rewrite add_to_mapping_other by done. done. }
  assert (size m2 = (size mapping + 2)%nat) as Hsize2.
  { unfold m2. rewrite <-size_dom, dom_add_to_mapping, size_union, size_singleton, size_dom.
    - lia.
    - apply disjoint_singleton_l. fold b. by apply not_elem_of_dom. }
  split.
  - unfold a. rewrite add_to_mapping_first_index by (done || by right).
    fold a. rewrite initialise_present by eauto. by rewrite Hsize2.
  - by apply add_to_mapping_index.
Qed.

Lemma index_shared_after_exception_witness :
  let mapping3 :=
    (add_to_mapping smith_a1 (add_to_mapping doe_a7 (add_to_mapping nameless_a1 ∅).1).1).1 in
  index_of mapping3 "P1" = Some 2 ∧ index_of mapping3 "P2" = Some 2.
Proof.
  exact (index_shared_after_exception ∅ nameless_a1 smith_a1 doe_a7
           eq_refl ltac:(discriminate) eq_refl eq_refl eq_refl
           ltac:(discriminate) ltac:(discriminate)).
Defined.

(** ** The anonymised name determines the index *)

Section NameDetermines.
Lemma pretty_N_go_mentions x s :
  mentions "_" s = false → mentions "_" (pretty_N_go x s) = false.
Proof.
  revert s. induction (N.lt_wf_0 x) as [x _ IH]. intros s Hs.
  destruct (decide (x = 0%N)) as [->|Hx].
  - by rewrite pretty_N_go_0.
  - rewrite pretty_N_go_step by lia.
    apply IH; [apply N.div_lt; lia|].
    cbn [mentions]. rewrite Hs, orb_false_r. apply bool_decide_eq_false.
    unfold pretty_N_char. by repeat case_match.
Qed.

Lemma str_int_mentions (i : Z) : mentions "_" (str i) = false.
Proof.
  unfold str, str_int, pretty, pretty_Z.
  assert (∀ p, mentions "_" (pretty (N.pos p)) = false) as Hpos.
  { intros p. unfold pretty, pretty_N. rewrite decide_False by done.
    by apply pretty_N_go_mentions. }
  destruct i as [|p|p]; [done|apply Hpos|].
  change ("-" +:+ pretty p) with (String "-" (pretty (N.pos p))).
  cbn [mentions]. by rewrite Hpos.
Qed.

(** Two strings without underscore, each followed by an underscore. *)
Lemma split_at_underscore s1 s2 t1 t2 :
  mentions "_" s1 = false →
  mentions "_" s2 = false →
  s1 +:+ String "_" t1 = s2 +:+ String "_" t2 →
  s1 = s2 ∧ t1 = t2.
Proof.
  revert s2. induction s1 as [|c s1 IH]; intros [|c' s2]; cbn [mentions].
  - intros _ _ [= ->]. done.
  - intros _ [Hc _]%orb_false_elim [= <- _]. by rewrite bool_decide_eq_true_2 in Hc.
  - intros [Hc _]%orb_false_elim _ [= -> _]. by rewrite bool_decide_eq_true_2 in Hc.
  - intros [_ H1]%orb_false_elim [_ H2]%orb_false_elim [= -> Hrest].
    destruct (IH _ H1 H2 Hrest) as [-> ->]. done.
Qed.

Lemma initials_cases patient_name ini :
  initials patient_name = Return ini →
  (given_name patient_name = "" ∧ ∃ a, ini = String a "")
  ∨ (given_name patient_name ≠ "" ∧ ∃ a b, ini = String a (String b "")).
Proof.
  unfold initials.
  destruct (given_name patient_name) as [|g given]; cbn [first_char].
  - intros (a & ? & _ & ->)%first_char_Return. left. eauto.
  - destruct (family_name patient_name) as [|f family]; cbn [first_char]; [done|].
    intros [= <-]. right. split; [done|]. by exists g, f.
Qed.
End NameDetermines.

(** X16. The anonymised name determines the index and the study date:
    two names that both have, or both lack, a given name and get the same
    anonymised name were given the same index and the same study date, so
    patients with different indices do not share an anonymised name. *)
Theorem new_patient_name_determines (name1 name2 : PersonName) (index1 index2 : Z)
    (date1 date2 new_patient_name : string) :
  generate_new_patient_name name1 index1 date1 = Return new_patient_name →
  generate_new_patient_name name2 index2 date2 = Return new_patient_name →
  (given_name name1 = "" ↔ given_name name2 = "") →
  index1 = index2 ∧ date1 = date2.
Proof.
  intros (ini1 & Hini1 & ->)%generate_new_patient_name_initials
         (ini2 & Hini2 & Heq)%generate_new_patient_name_initials Hgiven.
  assert (str index1 +:+ String "_" date1 = str index2 +:+ String "_" date2) as Hrest.
  { apply initials_cases in Hini1 as [[Hg1 (a1 & ->)]|[Hg1 (a1 & b1 & ->)]];
      apply initials_cases in Hini2 as [[Hg2 (a2 & ->)]|[Hg2 (a2 & b2 & ->)]].
    - by injection Heq.
    - by destruct Hg2; apply Hgiven.
    - by destruct Hg1; apply Hgiven.
    - by injection Heq. }
  apply split_at_underscore in Hrest as [Hindex ->]; [|apply str_int_mentions..].
  split; [|done]. by apply (inj pretty).
Qed.

Lemma new_patient_name_determines_witness :
  (1 : Z) = 1 ∧ ("20200101" : string) = "20200101".
Proof.
  apply (new_patient_name_determines "SMITH^JOHN" "SMYTHE^JON" 1 1
           "20200101" "20200101" "JS1_20200101"); [reflexivity|reflexivity|].
  split; discriminate.
Defined.

(** ** When the anonymisation of a dataset raises, and what is read from
    a dataset it returned *)

Section Outcome.
Implicit Types (dataset : Dataset) (mapping : ledger).

Lemma add_to_mapping_Raise patient_info mapping mapping1 e :
  add_to_mapping patient_info mapping = (mapping1, Raise e) →
  mapping1 = initialise_mapping_entry (Info.PatientID patient_info) mapping.
Proof.
  rewrite add_to_mapping_eq. cbn zeta.
  destruct (generate_new_patient_name _ _ _); [|by intros [= <- _]].
  by destruct (exists_in_mapping patient_info mapping).
Qed.

(** The fields of a dataset [anonymise_dicom] returned that the
    extraction of the key information reads. *)
Lemma anonymise_dicom_key_fields base_folder mapping dataset mapping1 dataset1
    new_patient_name :
  anonymise_dicom base_folder (mapping, dataset)
  = ((mapping1, dataset1), Return new_patient_name) →
  dataset1 !! Keyword patient_id_key = Some (Text "anonymised")
  ∧ dataset1 !! Keyword patient_name_key = Some (Text new_patient_name)
  ∧ (∃ accession, dataset !! Keyword accession_key = Some (Text accession)
                  ∧ dataset1 !! Keyword accession_key = Some (Text accession))
  ∧ (∃ date, dataset !! Keyword study_date_key = Some (Text date)
             ∧ dataset1 !! Keyword study_date_key = Some (Text date)).
Proof.
  intros (patient_info & Hextract & Hadd & Hprivate & Hother & _)%anonymise_dicom_returns.
  apply extract_key_info_Return in Hextract as (_ & _ & Haccession & Hdate & _).
  assert (∀ field v, ¬ named_tag (Keyword field) →
            dataset !! Keyword field = Some (Text v) →
            dataset1 !! Keyword field = Some (Text v)) as Hkept.
  { intros field v Hnamed Hfield. apply option_pruned_text.
    assert (Keyword field ≠ Keyword patient_name_key) as Hne.
    { intros Heq. apply Hnamed. by left. }
    rewrite <-Hfield, <-(with_patient_name_lookup dataset (Keyword field)),
      <-(scrubbed_other _ new_patient_name) by done.
    by apply Hother. }
  split; [|split; [|split]].
  - apply option_pruned_text.
    rewrite <-(scrubbed_replaced (with_patient_name dataset) new_patient_name
                 patient_id_key "anonymised") by (by apply (bool_decide_unpack _)).
    by apply Hother.
  - apply option_pruned_text.
    rewrite <-(scrubbed_patient_name (with_patient_name dataset) new_patient_name).
    by apply Hother.
  - eexists. split; [done|]. apply Hkept; [|done].
    intros [[=]|[(field & [= <-] & Hin)|(field & [= <-] & Hin)]];
      revert Hin; by apply (bool_decide_unpack _).
  - eexists. split; [done|]. apply Hkept; [|done].
    intros [[=]|[(field & [= <-] & Hin)|(field & [= <-] & Hin)]];
      revert Hin; by apply (bool_decide_unpack _).
Qed.
End Outcome.

(** X17. [anonymise_dicom] returns only for a dataset that has a patient
    ID, an accession number and a study date and whose patient name ([Z^Z]
    when there is none) has a family name. The assignment of the new name,
    the replacement and the deletion of the tags and the removal of the
    private tags never raise: when [anonymise_dicom] raises, the dataset is
    the input, or the input with the name [Z^Z] added, and the ledger is as
    it was or has one new empty entry. *)
Theorem anonymise_dicom_outcome (base_folder : string) (mapping : ledger)
    (dataset : Dataset) :
  (∀ mapping1 dataset1 new_patient_name,
     anonymise_dicom base_folder (mapping, dataset)
     = ((mapping1, dataset1), Return new_patient_name) →
     is_Some (dataset !! Keyword patient_id_key)
     ∧ is_Some (dataset !! Keyword accession_key)
     ∧ is_Some (dataset !! Keyword study_date_key)
     ∧ family_name (default "Z^Z" (dataset !! Keyword patient_name_key ≫= text_of)) ≠ "")
  ∧ (∀ mapping1 dataset1 e,
       anonymise_dicom base_folder (mapping, dataset) = ((mapping1, dataset1), Raise e) →
       (dataset1 = dataset ∨ dataset1 = with_patient_name dataset)
       ∧ (mapping1 = mapping
          ∨ ∃ patient_id, mapping1 = initialise_mapping_entry patient_id mapping)).
Proof.
  split.
  - intros mapping1 dataset1 new_patient_name
      (patient_info & Hextract & Hadd & _)%anonymise_dicom_returns.
    apply extract_key_info_Return in Hextract
      as (_ & Hid & Haccession & Hdate & _ & Hname & _).
    repeat split; [by eexists..|].
    intros Hfamily. rewrite <-Hname in Hfamily.
    by rewrite (add_to_mapping_no_family patient_info mapping Hfamily) in Hadd.
  - intros mapping1 dataset1 e.
    destruct (anonymise_dicom_cases base_folder mapping dataset) as (d1 & -> & _).
    pose proof (extract_key_info_dataset base_folder dataset) as Hdataset.
    destruct (extract_key_info base_folder dataset) as [dataset0 [patient_info|e0]]
      eqn:Hextract.
    + destruct (add_to_mapping patient_info mapping) as [m1 [p|e1]] eqn:Hadd; [done|].
      intros [= <- <- _]. split; [done|]. right.
      exists (Info.PatientID patient_info). by apply (add_to_mapping_Raise _ _ _ e1).
    + intros [= <- <- _]. split; [done|by left].
Qed.

Lemma anonymise_dicom_outcome_witness :
  let dataset := delete (Keyword "PatientName") (delete (Keyword "StudyDate") study_dataset) in
  let run := anonymise_dicom "source" (∅, dataset) in
  family_name "SMITH^JOHN" ≠ ""
  ∧ (run.1.2 = dataset ∨ run.1.2 = with_patient_name dataset)
  ∧ (run.1.1 = ∅ ∨ ∃ patient_id, run.1.1 = initialise_mapping_entry patient_id ∅).
Proof.
  cbn zeta. split.
  - apply (proj1 (anonymise_dicom_outcome "source" ∅ study_dataset)
             (anonymise_dicom "source" (∅, study_dataset)).1.1
             (anonymise_dicom "source" (∅, study_dataset)).1.2 "JS1_20200101").
    reflexivity.
  - exact (proj2 (anonymise_dicom_outcome "source" ∅
                    (delete (Keyword "PatientName")
                       (delete (Keyword "StudyDate") study_dataset)))
             _ _ (KeyError "StudyDate") eq_refl).
Defined.

(** X18. A dataset [anonymise_dicom] returned, read by
    [extract_key_info], gives the patient ID [anonymised], the anonymised
    name as patient name, and the accession number and study date of the
    input: anonymising it once more would file it under the one patient
    [anonymised]. *)
Theorem anonymised_read_again (base_folder again : string) (mapping mapping1 : ledger)
    (dataset dataset1 : Dataset) (new_patient_name : string) :
  anonymise_dicom base_folder (mapping, dataset)
  = ((mapping1, dataset1), Return new_patient_name) →
  ∃ accession date,
    dataset !! Keyword accession_key = Some (Text accession)
    ∧ dataset !! Keyword study_date_key = Some (Text date)
    ∧ extract_key_info again dataset1
      = (dataset1,
         Return (Info.mk "anonymised" new_patient_name accession date again)).
Proof.
  intros Hrun.
  destruct (anonymise_dicom_key_fields _ _ _ _ _ _ Hrun)
    as (Hid & Hname & (accession & Ha & Ha1) & (date & Hd & Hd1)).
  exists accession, date. split; [done|]. split; [done|].
  rewrite extract_key_info_eq. unfold get_value, with_patient_name.
  by rewrite Hid, Hname, Ha1, Hd1.
Qed.

Lemma anonymised_read_again_witness :
  ∃ accession date,
    study_dataset !! Keyword accession_key = Some (Text accession)
    ∧ study_dataset !! Keyword study_date_key = Some (Text date)
    ∧ extract_key_info "target" (anonymise_dicom "source" (∅, study_dataset)).1.2
      = ((anonymise_dicom "source" (∅, study_dataset)).1.2,
         Return (Info.mk "anonymised" "JS1_20200101" accession date "target")).
Proof.
  exact (anonymised_read_again "source" "target" ∅
           (anonymise_dicom "source" (∅, study_dataset)).1.1 study_dataset
           (anonymise_dicom "source" (∅, study_dataset)).1.2 "JS1_20200101" eq_refl).
Defined.

(** X19. When [anonymise_dicom] returns, the dataset itself has no field
    of the delete list and no private element, every field of the replace
    table is there with its value, the patient name is the name
    [add_to_mapping] returned for the key information of the dataset, and
    every other element is as it was but for private elements removed
    inside its items: inside the items nothing is deleted by name, replaced
    or added. *)
Theorem anonymise_dicom_top_level (base_folder : string) (mapping mapping1 : ledger)
    (dataset dataset1 : Dataset) (new_patient_name : string) :
  anonymise_dicom base_folder (mapping, dataset)
  = ((mapping1, dataset1), Return new_patient_name) →
  (∀ field, field ∈ delete_tags → dataset1 !! Keyword field = None)
  ∧ (∀ field v, (field, v) ∈ replace_tags → dataset1 !! Keyword field = Some (Text v))
  ∧ (∀ t, is_private t = true → dataset1 !! t = None)
  ∧ dataset1 !! Keyword patient_name_key = Some (Text new_patient_name)
  ∧ (∃ patient_info,
       extract_key_info base_folder dataset
       = (with_patient_name dataset, Return patient_info)
       ∧ add_to_mapping patient_info mapping = (mapping1, Return new_patient_name))
  ∧ (∀ t, is_private t = false → ¬ named_tag t →
       option_Forall2 pruned (dataset !! t) (dataset1 !! t)).
Proof.
  intros (patient_info & Hextract & Hadd & Hprivate & Hother & _)%anonymise_dicom_returns.
  split; [|split; [|split; [|split; [|split]]]].
  - intros field Hin. apply option_pruned_None.
    rewrite <-(scrubbed_deleted (with_patient_name dataset) new_patient_name field Hin).
    by apply Hother.
  - intros field v Hin. apply option_pruned_text.
    rewrite <-(scrubbed_replaced (with_patient_name dataset) new_patient_name field v Hin).
    by apply Hother.
  - done.
  - apply option_pruned_text.
    rewrite <-(scrubbed_patient_name (with_patient_name dataset) new_patient_name).
    by apply Hother.
  - by exists patient_info.
  - intros t Hp Hnamed.
    rewrite <-(with_patient_name_lookup dataset t),
      <-(scrubbed_other _ new_patient_name) by (done || (intros ->; apply Hnamed; by left)).
    by apply Hother.
Qed.

Lemma anonymise_dicom_top_level_witness :
  let dataset1 := (anonymise_dicom "source" (∅, study_dataset)).1.2 in
  dataset1 !! Keyword "InstitutionName" = None
  ∧ dataset1 !! Keyword "PatientID" = Some (Text "anonymised")
  ∧ dataset1 !! Keyword "PatientName" = Some (Text "JS1_20200101")
  ∧ dataset1 !! PrivateTag 9 17 = None
  ∧ dataset1 !! Keyword "Modality" = Some (Text "MR").
Proof.
  cbn zeta.
  pose proof (anonymise_dicom_top_level "source" ∅
                (anonymise_dicom "source" (∅, study_dataset)).1.1 study_dataset
                (anonymise_dicom "source" (∅, study_dataset)).1.2 "JS1_20200101"
                eq_refl)
    as (Hdelete & Hreplace & Hprivate & Hname & _ & Hother).
  split; [|split; [|split; [|split]]].
  - apply Hdelete. by apply (bool_decide_unpack _).
  - apply Hreplace. by apply (bool_decide_unpack _).
  - exact Hname.
  - by apply Hprivate.
  - apply option_pruned_text.
    change (Some (Text "MR")) with (study_dataset !! Keyword "Modality").
    apply Hother; [done|].
    intros [[=]|[(field & [= <-] & Hin)|(field & [= <-] & Hin)]];
      revert Hin; by apply (bool_decide_unpack _).
Defined.

(** X20. For a dataset without an element that is incorrectly populated,
    at any depth, [remove_private_tags] does not raise, and a dataset
    [anonymise_dicom] returns has no private element left at any depth. *)
Theorem anonymise_dicom_sound_dataset (base_folder : string) (mapping mapping1 : ledger)
    (dataset dataset1 : Dataset) (new_patient_name : string) :
  has_malformed dataset = false →
  anonymise_dicom base_folder (mapping, dataset)
  = ((mapping1, dataset1), Return new_patient_name) →
  (remove_private_tags dataset).2 = Return tt
  ∧ has_private_tag dataset1 = false.
Proof.
  intros Hsound (patient_info & _ & _ & _ & _ & Hwalk)%anonymise_dicom_returns.
  split; [by apply walk_returns|].
  pose proof (walk_returns _ (scrubbed_sound dataset new_patient_name Hsound)) as Hreturn.
  rewrite (Hwalk Hreturn). by apply walk_complete.
Qed.

Lemma anonymise_dicom_sound_dataset_witness :
  (remove_private_tags (referenced_dataset sound_items)).2 = Return tt
  ∧ has_private_tag (anonymise_dicom "source" (∅, referenced_dataset sound_items)).1.2
    = false.
Proof.
  exact (anonymise_dicom_sound_dataset "source" ∅
           (anonymise_dicom "source" (∅, referenced_dataset sound_items)).1.1
           (referenced_dataset sound_items)
           (anonymise_dicom "source" (∅, referenced_dataset sound_items)).1.2
           "JS1_20200101" eq_refl eq_refl).
Defined.
